(** * simple-async: the channel scheduler

    A shallow embedding of [channel.ts] (with [promise.ts] and [delay.ts])
    and the properties of the channel that follow from the code.

    Conventions of the embedding.
    - A JavaScript [number] that the channel uses (concurrency, priority,
      [Date.now()]) is an integer, [Z].
    - The channel object is mutated in place by the source; here every
      function takes the world (the channel together with what the host keeps
      for it) and returns the new one.
    - A handler ([channel.eventHandler], [task.eventHandler],
      [options.eventHandler]) is an observer: a call of it is recorded in
      [delivered], it returns normally and does not call back into the
      channel.  The function of a task returns or throws, and does not call
      back into the channel either.
    - An object that passes [isPromise] behaves as a promise: of the two
      reactions given to [.then(..).catch(..)] at most one runs, once, in a
      later job of the host. *)

From Stdlib Require Import String.
From Stdlib Require Import ZArith List Bool Lia Sorted Permutation.
Import ListNotations.
Local Open Scope Z_scope.

(** ** promise.ts *)
Module Promise.

#[local] Set Warnings "-register-all".

(** JavaScript values, as far as [isPromise] looks at them. *)
Inductive Value : Type :=
| VUndefined
| VNull
| VBool (b : bool)
| VNum (n : Z)
| VStr (s : string)
| VFun (ref : nat)
| VObject (props : list (string * Value))
| VPromise (p : nat).

Inductive JsType : Type :=
| TyUndefined | TyObject | TyBoolean | TyNumber | TyString | TyFunction.

Definition JsType_eqb (a b : JsType) : bool :=
  match a, b with
  | TyUndefined, TyUndefined | TyObject, TyObject | TyBoolean, TyBoolean
  | TyNumber, TyNumber | TyString, TyString | TyFunction, TyFunction => true
  | _, _ => false
  end.

(** [typeof v]. *)
Definition typeof (v : Value) : JsType :=
  match v with
  | VUndefined => TyUndefined
  | VNull => TyObject
  | VBool _ => TyBoolean
  | VNum _ => TyNumber
  | VStr _ => TyString
  | VFun _ => TyFunction
  | VObject _ => TyObject
  | VPromise _ => TyObject
  end.

Definition is_null (v : Value) : bool :=
  match v with VNull => true | _ => false end.

Fixpoint lookup (name : string) (props : list (string * Value)) : option Value :=
  match props with
  | [] => None
  | (k, v) :: rest => if String.eqb k name then Some v else lookup name rest
  end.

(** The methods a native promise inherits from [Promise.prototype]. *)
Definition promise_prototype : list (string * Value) :=
  [("then"%string, VFun 0); ("catch"%string, VFun 1); ("finally"%string, VFun 2)].

Definition properties (v : Value) : list (string * Value) :=
  match v with
  | VObject props => props
  | VPromise _ => promise_prototype
  | _ => []
  end.

(** [name in v], for [v] an object that is not [null]. *)
Definition has_property (name : string) (v : Value) : bool :=
  match lookup name (properties v) with Some _ => true | None => false end.

(** [v.name], for [v] an object that is not [null]. *)
Definition get (name : string) (v : Value) : Value :=
  match lookup name (properties v) with Some x => x | None => VUndefined end.

Definition isPromise (possiblePromise : Value) : bool :=
  JsType_eqb (typeof possiblePromise) TyObject &&
  negb (is_null possiblePromise) &&
  has_property "then"%string possiblePromise &&
  has_property "catch"%string possiblePromise &&
  JsType_eqb (typeof (get "then"%string possiblePromise)) TyFunction &&
  JsType_eqb (typeof (get "catch"%string possiblePromise)) TyFunction.

(** [v] has a method called [name]. *)
Definition has_method (name : string) (v : Value) : bool :=
  has_property name v && JsType_eqb (typeof (get name v)) TyFunction.

(** The state of the promise of [createPendingPromise]. *)
Inductive PromiseState (T : Type) : Type :=
| Pending
| Fulfilled (value : T)
| Rejected (reason : Value).
Arguments Pending {T}.
Arguments Fulfilled {T} value.
Arguments Rejected {T} reason.

End Promise.

(** ** delay.ts *)
Module Delay.

(** What the host offers: [typeof requestAnimationFrame !== "undefined"]
    and [typeof setTimeout !== "undefined"]. *)
Record Host : Type := mkHost {
  has_requestAnimationFrame : bool;
  has_setTimeout : bool
}.

(** [runNextTick fn]: [requestAnimationFrame] and [setTimeout] are what the
    host does with the callback, [fn] is the callback run at once. *)
Definition runNextTick {W : Type} (host : Host)
    (requestAnimationFrame setTimeout : W -> W) (fn : W -> W) (w : W) : W :=
  if has_requestAnimationFrame host then requestAnimationFrame w
  else if has_setTimeout host then setTimeout w
  else fn w.

End Delay.

(** ** channel.ts *)
Module Channel.
Import Promise.

(** *** Types *)

(** What a call of a task's function does: [try { result = task.task() }
    catch (e) { .. }] matches on it. *)
Inductive Completion : Type :=
| Returns (result : Value)
| Throws (e : Value).

(** A function given as a task.  [ref] is the identity of the function
    object, which [===] compares; [body] is what a call of it does. *)
Record Fn : Type := mkFn {
  ref : nat;
  body : Completion
}.

Definition call (f : Fn) : Completion := body f.

(** [ChannelTask].  [ident] is the identity of the task object: the
    [ident]-th object that [addTaskToChannel] has built.  [eventHandler], the
    closure over [resultPromise] and [options.eventHandler], is the function
    [taskEventHandler] below; [observed] says that [options.eventHandler] was
    given. *)
Record ChannelTask : Type := mkTask {
  ident : nat;
  task : Fn;
  priority : Z;
  requestedAt : Z;
  observed : bool
}.

(** [ChannelEvent]; the four events that have a task are the
    [ChannelTaskEvent]s.  The field [channel] of an event is the one channel
    of the world. *)
Inductive ChannelEvent : Type :=
| CANCELLED_ALL_TASKS
| TASK_CANCELLED (t : ChannelTask)
| TASK_COMPLETED (t : ChannelTask) (isSuccess isError : bool) (result : Value)
| TASK_STARTED (t : ChannelTask)
| TASK_ADDED (t : ChannelTask).

(** [Channel]; its [eventHandler] is an observer, whose calls the world
    records. *)
Record Channel : Type := mkChannel {
  concurrency : Z;
  tasksInProgress : list ChannelTask;
  tasksInQueue : list ChannelTask
}.

(** [ChannelTaskResult]. *)
Record ChannelTaskResult : Type := mkResult {
  isSuccess : bool;
  isError : bool;
  isCancelation : bool;
  result : Value;
  error : Value
}.

Definition success (v : Value) : ChannelTaskResult :=
  {| isSuccess := true; isError := false; isCancelation := false;
     result := v; error := VUndefined |}.

Definition failure (e : Value) : ChannelTaskResult :=
  {| isSuccess := false; isError := true; isCancelation := false;
     result := VUndefined; error := e |}.

Definition cancelation : ChannelTaskResult :=
  {| isSuccess := false; isError := false; isCancelation := true;
     result := VUndefined; error := VUndefined |}.

(** A call of a handler with an event. *)
Inductive Delivery : Type :=
| ToChannel (ev : ChannelEvent)              (* channel.eventHandler(ev) *)
| ToTask (tid : nat) (ev : ChannelEvent)     (* task.eventHandler(ev) *)
| ToOptions (tid : nat) (ev : ChannelEvent). (* options.eventHandler(ev) *)

(** The channel and what the host keeps for it. *)
Record World : Type := mkWorld {
  channel : Channel;
  (** the calls of the handlers, oldest first *)
  delivered : list Delivery;
  (** the calls of [resultPromise.resolve], oldest first, each with the
      task whose [resultPromise] it is *)
  resolved : list (nat * ChannelTaskResult);
  (** the tasks whose result has the reactions of [.then(..).catch(..)]
      registered and not yet run *)
  awaiting : list ChannelTask;
  (** the callbacks [() => proccessChannel(channel)] given to
      [requestAnimationFrame] or [setTimeout] and not yet run *)
  deferred : nat;
  (** the task objects built so far *)
  allocated : nat
}.

Definition with_channel (c : Channel) (w : World) : World :=
  {| channel := c; delivered := delivered w; resolved := resolved w;
     awaiting := awaiting w; deferred := deferred w; allocated := allocated w |}.

Definition set_tasksInQueue (q : list ChannelTask) (w : World) : World :=
  with_channel {| concurrency := concurrency (channel w);
                  tasksInProgress := tasksInProgress (channel w);
                  tasksInQueue := q |} w.

Definition set_tasksInProgress (l : list ChannelTask) (w : World) : World :=
  with_channel {| concurrency := concurrency (channel w);
                  tasksInProgress := l;
                  tasksInQueue := tasksInQueue (channel w) |} w.

Definition deliver (d : Delivery) (w : World) : World :=
  {| channel := channel w; delivered := delivered w ++ [d];
     resolved := resolved w; awaiting := awaiting w; deferred := deferred w;
     allocated := allocated w |}.

Definition resolve (tid : nat) (r : ChannelTaskResult) (w : World) : World :=
  {| channel := channel w; delivered := delivered w;
     resolved := resolved w ++ [(tid, r)]; awaiting := awaiting w;
     deferred := deferred w; allocated := allocated w |}.

Definition set_awaiting (l : list ChannelTask) (w : World) : World :=
  {| channel := channel w; delivered := delivered w; resolved := resolved w;
     awaiting := l; deferred := deferred w; allocated := allocated w |}.

Definition set_deferred (n : nat) (w : World) : World :=
  {| channel := channel w; delivered := delivered w; resolved := resolved w;
     awaiting := awaiting w; deferred := n; allocated := allocated w |}.

Definition set_allocated (n : nat) (w : World) : World :=
  {| channel := channel w; delivered := delivered w; resolved := resolved w;
     awaiting := awaiting w; deferred := deferred w; allocated := n |}.

(** *** Arrays *)

(** [l.findIndex(p)], counted from [i]. *)
Fixpoint findIndex_from {A : Type} (p : A -> bool) (l : list A) (i : Z) : Z :=
  match l with
  | [] => -1
  | x :: rest => if p x then i else findIndex_from p rest (i + 1)
  end.

Definition findIndex {A : Type} (p : A -> bool) (l : list A) : Z :=
  findIndex_from p l 0.

(** [l.splice(start, 1)]: the removed elements and the array left.  A
    negative [start] counts from the end. *)
Definition splice1 {A : Type} (start : Z) (l : list A) : list A * list A :=
  let len := Z.of_nat (length l) in
  let k := Z.to_nat (if start <? 0 then Z.max (len + start) 0 else Z.min start len) in
  (firstn 1 (skipn k l), firstn k l ++ skipn (S k) l).

(** [l.shift()]. *)
Definition shift {A : Type} (l : list A) : option A * list A :=
  match l with
  | [] => (None, [])
  | x :: rest => (Some x, rest)
  end.

(** [l.sort(cmp)]: the sort is stable, and with a comparator that is a
    total preorder every stable sort gives the same array; this one inserts
    from the right. *)
Fixpoint sort_insert {A : Type} (cmp : A -> A -> Z) (x : A) (l : list A) : list A :=
  match l with
  | [] => [x]
  | y :: rest => if cmp x y <=? 0 then x :: y :: rest else y :: sort_insert cmp x rest
  end.

Definition sort {A : Type} (cmp : A -> A -> Z) (l : list A) : list A :=
  fold_right (sort_insert cmp) [] l.

(** [l.indexOf(t)] for a task object [t]: the objects are compared by
    identity. *)
Definition indexOf (t : ChannelTask) (l : list ChannelTask) : Z :=
  findIndex (fun x => Nat.eqb (ident x) (ident t)) l.

(** *** The channel *)

(** The closure [eventHandler] that [addTaskToChannel] puts in the task. *)
Definition taskEventHandler (t : ChannelTask) (event : ChannelEvent) (w : World) : World :=
  let w1 :=
    match event with
    | TASK_COMPLETED _ ok _ res =>
        if ok then resolve (ident t) (success res) w
        else resolve (ident t) (failure res) w
    | TASK_CANCELLED _ => resolve (ident t) cancelation w
    | _ => w
    end in
  if observed t then deliver (ToOptions (ident t) event) w1 else w1.

Definition sendEvent (t : ChannelTask) (event : ChannelEvent) (w : World) : World :=
  taskEventHandler t event
    (deliver (ToTask (ident t) event) (deliver (ToChannel event) w)).

(** The argument of [createChannel]; the handler is an observer and has no
    field here. *)
Record ChannelArgs : Type := mkArgs {
  arg_concurrency : option Z
}.

(** [x || d] for a number [x] that may be [undefined]. *)
Definition or_default (x : option Z) (d : Z) : Z :=
  match x with
  | Some n => if n =? 0 then d else n
  | None => d
  end.

(** [args?.concurrency]. *)
Definition optional_concurrency (args : option ChannelArgs) : option Z :=
  match args with
  | Some a => arg_concurrency a
  | None => None
  end.

Definition createChannel (args : option ChannelArgs) : Channel :=
  {| concurrency := or_default (optional_concurrency args) 1;
     tasksInProgress := [];
     tasksInQueue := [] |}.

(** The world of a channel that has just been created. *)
Definition init (args : option ChannelArgs) : World :=
  {| channel := createChannel args; delivered := []; resolved := [];
     awaiting := []; deferred := 0; allocated := 0 |}.

Definition sortChannelQueue (a b : ChannelTask) : Z :=
  if priority a =? priority b then requestedAt a - requestedAt b
  else priority a - priority b.

Definition cancelAllChannelTasks (w : World) : World :=
  let tasks := tasksInQueue (channel w) in
  let w1 := set_tasksInQueue [] w in
  let w2 := deliver (ToChannel CANCELLED_ALL_TASKS) w1 in
  fold_left (fun w' t => sendEvent t (TASK_CANCELLED t) w') tasks w2.

Definition cancelChannelTask (f : Fn) (w : World) : World :=
  let foundChannelIndex :=
    findIndex (fun x => Nat.eqb (ref (task x)) (ref f)) (tasksInQueue (channel w)) in
  if foundChannelIndex =? -1 then w
  else
    let (removed, rest) := splice1 foundChannelIndex (tasksInQueue (channel w)) in
    let w1 := set_tasksInQueue rest w in
    match removed with
    | [] => w1
    | taskInfo :: _ => sendEvent taskInfo (TASK_CANCELLED taskInfo) w1
    end.

(** The closure [removeTaskFromInProgress] of [proccessChannel]. *)
Definition removeTaskFromInProgress (t : ChannelTask) (w : World) : World :=
  let l := tasksInProgress (channel w) in
  set_tasksInProgress (snd (splice1 (indexOf t l) l)) w.

(** The host keeps the callback for a later tick. *)
Definition defer (w : World) : World := set_deferred (S (deferred w)) w.

(** [result.then(..).catch(..)]: the reactions of task [t] wait. *)
Definition register (t : ChannelTask) (w : World) : World :=
  set_awaiting (awaiting w ++ [t]) w.

Section WithHost.
Variable host : Delay.Host.

(** What [proccessChannel] does once a task has settled: the three places
    of the source that remove the task, send TASK_COMPLETED and call
    [runNextTick]. *)
Definition complete (next : World -> World) (t : ChannelTask)
    (ok : bool) (res : Value) (w : World) : World :=
  Delay.runNextTick host defer defer next
    (sendEvent t (TASK_COMPLETED t ok (negb ok) res)
       (removeTaskFromInProgress t w)).

(** [proccessChannel].  In a host without [requestAnimationFrame] and
    [setTimeout] the callback of [runNextTick] runs at once, so the function
    calls itself; [fuel] bounds these calls. *)
Fixpoint proccessChannel_rec (fuel : nat) (w : World) : World :=
  match fuel with
  | O => w
  | S fuel' =>
    if Z.of_nat (length (tasksInProgress (channel w))) >=? concurrency (channel w)
    then w
    else
      match shift (tasksInQueue (channel w)) with
      | (None, _) => w
      | (Some t, rest) =>
        let w1 := set_tasksInProgress (tasksInProgress (channel w) ++ [t])
                    (set_tasksInQueue rest w) in
        let w2 := sendEvent t (TASK_STARTED t) w1 in
        match call (task t) with
        | Throws e => complete (proccessChannel_rec fuel') t false e w2
        | Returns res =>
          if isPromise res then register t w2
          else complete (proccessChannel_rec fuel') t true res w2
        end
      end
  end.

(** Every call shifts the queue before it calls itself, so one call more
    than the queue is long is enough (lemma [proccessChannel_rec_fuel]). *)
Definition proccessChannel (w : World) : World :=
  proccessChannel_rec (S (length (tasksInQueue (channel w)))) w.

(** The argument of [addTaskToChannel], without the channel. *)
Record Options : Type := mkOptions {
  opt_task : Fn;
  opt_priority : option Z;
  opt_eventHandler : bool
}.

(** [x ?? d]. *)
Definition nullish (x : option Z) (d : Z) : Z :=
  match x with Some n => n | None => d end.

(** The promise that a submission returns: the [resultPromise] of a task,
    or the promise of [Promise.resolve(r)]. *)
Inductive Handle : Type :=
| ResultPromise (tid : nat)
| PromiseResolve (r : ChannelTaskResult).

(** [addTaskToChannel]; [now] is what [Date.now()] returns. *)
Definition addTaskToChannel (options : Options) (now : Z) (w : World) : World * Handle :=
  let t := {| ident := allocated w;
              task := opt_task options;
              priority := nullish (opt_priority options) 0;
              requestedAt := now;
              observed := opt_eventHandler options |} in
  let w1 := set_allocated (S (allocated w)) w in
  let w2 := set_tasksInQueue (sort sortChannelQueue (tasksInQueue (channel w1) ++ [t])) w1 in
  let w3 := sendEvent t (TASK_ADDED t) w2 in
  (proccessChannel w3, ResultPromise (ident t)).

Definition addTaskToChannelExclusively (options : Options) (now : Z) (w : World)
    : World * Handle :=
  let w1 := if Nat.eqb (length (tasksInQueue (channel w))) 0 then w
            else cancelAllChannelTasks w in
  addTaskToChannel options now w1.

Definition addTaskToChannelIfEmpty (options : Options) (now : Z) (w : World)
    : World * Handle :=
  if Nat.eqb (length (tasksInQueue (channel w))) 0
  then addTaskToChannel options now w
  else (w, PromiseResolve cancelation).

(** *** The host *)

(** How the promise that a task returned settles. *)
Inductive Settlement : Type :=
| Fulfils (value : Value)
| Rejects (reason : Value).

(** The reaction of the task [tid] runs: the callback of [.then] for a
    fulfilled promise, the one of [.catch] for a rejected one. *)
Definition settle (tid : nat) (s : Settlement) (w : World) : option World :=
  match find (fun t => Nat.eqb (ident t) tid) (awaiting w) with
  | None => None
  | Some t =>
    let w1 := set_awaiting
                (snd (splice1 (findIndex (fun x => Nat.eqb (ident x) tid) (awaiting w))
                        (awaiting w))) w in
    match s with
    | Fulfils value => Some (complete proccessChannel t true value w1)
    | Rejects reason => Some (complete proccessChannel t false reason w1)
    end
  end.

(** A callback given to [runNextTick] runs. *)
Definition tick (w : World) : option World :=
  match deferred w with
  | O => None
  | S n => Some (proccessChannel (set_deferred n w))
  end.

(** What can happen to a channel: the calls of its interface and the jobs
    of the host. *)
Inductive Action : Type :=
| Submit (options : Options) (now : Z)
| SubmitExclusively (options : Options) (now : Z)
| SubmitIfEmpty (options : Options) (now : Z)
| CancelAll
| CancelTask (f : Fn)
| Settle (tid : nat) (s : Settlement)
| Tick.

Definition perform (a : Action) (w : World) : option World :=
  match a with
  | Submit o now => Some (fst (addTaskToChannel o now w))
  | SubmitExclusively o now => Some (fst (addTaskToChannelExclusively o now w))
  | SubmitIfEmpty o now => Some (fst (addTaskToChannelIfEmpty o now w))
  | CancelAll => Some (cancelAllChannelTasks w)
  | CancelTask f => Some (cancelChannelTask f w)
  | Settle tid s => settle tid s w
  | Tick => tick w
  end.

Fixpoint run (acts : list Action) (w : World) : option World :=
  match acts with
  | [] => Some w
  | a :: rest =>
    match perform a w with
    | Some w' => run rest w'
    | None => None
    end
  end.

End WithHost.

(** ** What the handlers and the promises have seen *)

(** The handler calls of one [sendEvent]. *)
Definition event_deliveries (t : ChannelTask) (ev : ChannelEvent) : list Delivery :=
  [ToChannel ev; ToTask (ident t) ev] ++
  (if observed t then [ToOptions (ident t) ev] else []).

(** The calls of [resultPromise.resolve] of one [sendEvent]. *)
Definition event_resolutions (t : ChannelTask) (ev : ChannelEvent)
    : list (nat * ChannelTaskResult) :=
  match ev with
  | TASK_COMPLETED _ ok _ res => [(ident t, if ok then success res else failure res)]
  | TASK_CANCELLED _ => [(ident t, cancelation)]
  | _ => []
  end.

(** The calls of [resolve] on the [resultPromise] of the task [tid]. *)
Definition resolutions (tid : nat) (l : list (nat * ChannelTaskResult))
    : list ChannelTaskResult :=
  map snd (filter (fun p => Nat.eqb (fst p) tid) l).

(** The state of the [resultPromise] of the task [tid]: the first call of
    [resolve] settles it, and the channel never calls [reject]. *)
Definition handle (tid : nat) (w : World) : PromiseState ChannelTaskResult :=
  match resolutions tid (resolved w) with
  | [] => Pending
  | r :: _ => Fulfilled r
  end.

(** The state of the promise that a submission returned. *)
Definition handle_state (h : Handle) (w : World) : PromiseState ChannelTaskResult :=
  match h with
  | ResultPromise tid => handle tid w
  | PromiseResolve r => Fulfilled r
  end.

(** There is a free slot: the first test of [proccessChannel] fails. *)
Definition room (w : World) : Prop :=
  Z.of_nat (length (tasksInProgress (channel w))) < concurrency (channel w).

(** The world once [proccessChannel] has moved the head [t] of the queue to
    the tasks in progress and has sent TASK_STARTED (the source up to the
    [try]). *)
Definition start (t : ChannelTask) (rest : list ChannelTask) (w : World) : World :=
  sendEvent t (TASK_STARTED t)
    (set_tasksInProgress (tasksInProgress (channel w) ++ [t])
       (set_tasksInQueue rest w)).

(** The world once a task has settled, before [runNextTick]. *)
Definition settled (t : ChannelTask) (ok : bool) (res : Value) (w : World) : World :=
  sendEvent t (TASK_COMPLETED t ok (negb ok) res) (removeTaskFromInProgress t w).

(** The part of [addTaskToChannel] before the call of [proccessChannel]:
    the task is built, pushed, the queue sorted and TASK_ADDED sent. *)
Definition new_task (options : Options) (now : Z) (w : World) : ChannelTask :=
  {| ident := allocated w;
     task := opt_task options;
     priority := nullish (opt_priority options) 0;
     requestedAt := now;
     observed := opt_eventHandler options |}.

Definition enqueue (options : Options) (now : Z) (w : World) : World :=
  let t := new_task options now w in
  sendEvent t (TASK_ADDED t)
    (set_tasksInQueue (sort sortChannelQueue (tasksInQueue (channel w) ++ [t]))
       (set_allocated (S (allocated w)) w)).

(** The part of [settle] before [runNextTick]. *)
Definition react (t : ChannelTask) (ok : bool) (res : Value) (w : World) : World :=
  settled t ok res
    (set_awaiting
       (snd (splice1 (findIndex (fun x => Nat.eqb (ident x) (ident t)) (awaiting w))
               (awaiting w))) w).

(** The call of the task's function ended at once: it threw [res]
    ([ok = false]) or returned [res], which is no promise ([ok = true]). *)
Definition outcome (c : Completion) (ok : bool) (res : Value) : Prop :=
  match c with
  | Throws e => ok = false /\ res = e
  | Returns v => ok = true /\ res = v /\ isPromise v = false
  end.

(** A property of the world that every part of the channel keeps, but for
    the submission of a task, which has its own rule. *)
Record stable (P : World -> Prop) : Prop := {
  st_async : forall w t rest res,
    P w -> room w -> tasksInQueue (channel w) = t :: rest ->
    call (task t) = Returns res -> isPromise res = true ->
    P (register t (start t rest w));
  st_sync : forall w t rest ok res,
    P w -> room w -> tasksInQueue (channel w) = t :: rest ->
    outcome (call (task t)) ok res ->
    P (settled t ok res (start t rest w));
  st_defer : forall w, P w -> P (defer w);
  st_tick : forall w n, P w -> deferred w = S n -> P (set_deferred n w);
  st_react : forall w t ok res,
    P w -> find (fun x => Nat.eqb (ident x) (ident t)) (awaiting w) = Some t ->
    P (react t ok res w);
  st_cancelAll : forall w, P w -> P (cancelAllChannelTasks w);
  st_cancelTask : forall w f, P w -> P (cancelChannelTask f w)
}.

(** The concurrency is [c] and no more tasks are in progress than it
    allows. *)
Definition within_limit (c : Z) (w : World) : Prop :=
  concurrency (channel w) = c /\
  Z.of_nat (length (tasksInProgress (channel w))) <= Z.max 0 c.

(** *** The life of a task *)

Inductive Kind : Type := Added | Started | Completed | Cancelled.

Definition kind (ev : ChannelEvent) : list Kind :=
  match ev with
  | CANCELLED_ALL_TASKS => []
  | TASK_CANCELLED _ => [Cancelled]
  | TASK_COMPLETED _ _ _ _ => [Completed]
  | TASK_STARTED _ => [Started]
  | TASK_ADDED _ => [Added]
  end.

(** The event is about the task [tid]. *)
Definition about (tid : nat) (ev : ChannelEvent) : bool :=
  match ev with
  | CANCELLED_ALL_TASKS => false
  | TASK_CANCELLED t | TASK_COMPLETED t _ _ _ | TASK_STARTED t | TASK_ADDED t =>
      Nat.eqb (ident t) tid
  end.

(** The events about the task [tid] that the handler of the channel got. *)
Definition channel_view (tid : nat) (ds : list Delivery) : list Kind :=
  flat_map (fun d => match d with
                     | ToChannel ev => if about tid ev then kind ev else []
                     | _ => []
                     end) ds.

(** The events that the [eventHandler] of the task [tid] got. *)
Definition task_view (tid : nat) (ds : list Delivery) : list Kind :=
  flat_map (fun d => match d with
                     | ToTask k ev => if Nat.eqb k tid then kind ev else []
                     | _ => []
                     end) ds.

(** The events that the [options.eventHandler] of the task [tid] got. *)
Definition options_view (tid : nat) (ds : list Delivery) : list Kind :=
  flat_map (fun d => match d with
                     | ToOptions k ev => if Nat.eqb k tid then kind ev else []
                     | _ => []
                     end) ds.

Inductive Phase : Type := Unborn | Queued | Running | Done | Dropped.

Definition phase_trace (ph : Phase) : list Kind :=
  match ph with
  | Unborn => []
  | Queued => [Added]
  | Running => [Added; Started]
  | Done => [Added; Started; Completed]
  | Dropped => [Added; Cancelled]
  end.

Definition phase_resolutions (ph : Phase) : nat :=
  match ph with
  | Done | Dropped => 1
  | _ => 0
  end.

(** The task [tid] is in the phase [ph]: what the handlers and the
    [resultPromise] have seen of it and where the channel holds it agree. *)
Record task_state (w : World) (tid : nat) (ph : Phase) (obs : bool) : Prop := {
  ts_channel : channel_view tid (delivered w) = phase_trace ph;
  ts_task : task_view tid (delivered w) = phase_trace ph;
  ts_options : options_view tid (delivered w) = (if obs then phase_trace ph else []);
  ts_resolved : length (resolutions tid (resolved w)) = phase_resolutions ph;
  ts_queued : In tid (map ident (tasksInQueue (channel w))) <-> ph = Queued;
  ts_running : In tid (map ident (tasksInProgress (channel w))) <-> ph = Running;
  ts_unborn : (allocated w <= tid)%nat <-> ph = Unborn;
  ts_observed : forall u,
    In u (tasksInQueue (channel w) ++ tasksInProgress (channel w)) ->
    ident u = tid -> observed u = obs
}.

(** The task objects of the channel are distinct, the tasks in progress are
    the ones whose reactions wait, and every task is in some phase. *)
Definition consistent (w : World) : Prop :=
  NoDup (map ident (tasksInQueue (channel w) ++ tasksInProgress (channel w))) /\
  awaiting w = tasksInProgress (channel w) /\
  forall tid, exists ph obs, task_state w tid ph obs.

(** *** The order of the queue *)

(** [a] does not come after [b] in the order of [sortChannelQueue]. *)
Definition precedes (a b : ChannelTask) : Prop := sortChannelQueue a b <= 0.

(** Of two tasks with one priority, [a] was submitted before [b]. *)
Definition arrival (a b : ChannelTask) : Prop :=
  priority a = priority b -> (ident a < ident b)%nat.

(** The tasks that have been started, oldest first. *)
Definition started_tasks (ds : list Delivery) : list ChannelTask :=
  flat_map (fun d => match d with
                     | ToChannel (TASK_STARTED t) => [t]
                     | _ => []
                     end) ds.

(** The queue is in the order of [sortChannelQueue]. *)
Definition queue_sorted (w : World) : Prop :=
  StronglySorted precedes (tasksInQueue (channel w)).

(** The queue is sorted, tasks of one priority wait in the order of their
    submission, no task of the queue is younger than the clock reading [lo],
    and no task has been started before an older one of its priority that
    still waits. *)
Definition ordered (lo : Z) (w : World) : Prop :=
  queue_sorted w /\
  StronglySorted arrival (tasksInQueue (channel w)) /\
  Forall (fun u => requestedAt u <= lo /\ (ident u < allocated w)%nat)
    (tasksInQueue (channel w)) /\
  Forall (fun b => (ident b < allocated w)%nat /\
                   Forall (arrival b) (tasksInQueue (channel w)))
    (started_tasks (delivered w)).

(** What [Date.now()] returns at the submissions of a run. *)
Definition reading (a : Action) : list Z :=
  match a with
  | Submit _ now | SubmitExclusively _ now | SubmitIfEmpty _ now => [now]
  | _ => []
  end.

Definition readings (acts : list Action) : list Z := flat_map reading acts.

(** The clock of the host does not run backwards. *)
Definition monotone_clock (acts : list Action) : Prop :=
  Sorted Z.le (readings acts).

(** The world has the deliveries [base] and maybe more. *)
Definition extends (base : list Delivery) (w : World) : Prop :=
  exists more, delivered w = base ++ more.

(** The world has the calls of [resolve] of [base] and maybe more. *)
Definition keeps (base : list (nat * ChannelTaskResult)) (w : World) : Prop :=
  exists more, resolved w = base ++ more.


(** The free slots. *)
Definition free (w : World) : Z :=
  concurrency (channel w) - Z.of_nat (length (tasksInProgress (channel w))).

(** For all the tasks that wait and could start, but [k] of them, a call
    of [proccessChannel] is due. *)
Definition no_stall (k : Z) (w : World) : Prop :=
  Z.min (free w) (Z.of_nat (length (tasksInQueue (channel w)))) <=
  Z.of_nat (deferred w) + k.

(** *** Worlds to try the channel on *)

(** A host with [setTimeout] only, and one with neither facility. *)
Definition node : Delay.Host :=
  {| Delay.has_requestAnimationFrame := false; Delay.has_setTimeout := true |}.

Definition bare : Delay.Host :=
  {| Delay.has_requestAnimationFrame := false; Delay.has_setTimeout := false |}.

(** A task that returns a promise, one that returns a number, one that
    throws. *)
Definition waits (n : nat) : Options :=
  {| opt_task := {| ref := n; body := Returns (VPromise n) |};
     opt_priority := None; opt_eventHandler := true |}.

Definition returns (n : nat) (p : Z) : Options :=
  {| opt_task := {| ref := n; body := Returns (VNum (Z.of_nat n)) |};
     opt_priority := Some p; opt_eventHandler := false |}.

Definition throws (n : nat) : Options :=
  {| opt_task := {| ref := n; body := Throws (VStr "Error 1") |};
     opt_priority := None; opt_eventHandler := false |}.

Definition limit (c : Z) : option ChannelArgs :=
  Some {| arg_concurrency := Some c |}.

(** One task in progress and three in the queue, two of them with the same
    function. *)
Definition busy_run : list Action :=
  [Submit (waits 0) 10; Submit (waits 1) 11; Submit (returns 2 (-1)) 12;
   Submit (waits 1) 13].

Definition busy_world : World :=
  Eval vm_compute in
    match run node busy_run (init (limit 1)) with
    | Some w => w
    | None => init None
    end.

(** A task has thrown, a promise was rejected, and two tasks wait. *)
Definition failing_run : list Action :=
  [Submit (throws 0) 10; Submit (waits 1) 11; Submit (waits 2) 12;
   Submit (throws 3) 13; Settle 1 (Rejects (VStr "Error 2"))].

Definition failing_world : World :=
  Eval vm_compute in
    match run node failing_run (init (limit 1)) with
    | Some w => w
    | None => init None
    end.

(** A task that returns an object with a method [then] and no [catch]. *)
Definition thenable (n : nat) : Options :=
  {| opt_task := {| ref := n; body := Returns (VObject [("then"%string, VFun 7)]) |};
     opt_priority := None; opt_eventHandler := false |}.

(** A slot is free and the task with the thenable waits for the tick. *)
Definition thenable_run : list Action :=
  [Submit (waits 0) 10; Submit (thenable 1) 11; Settle 0 (Fulfils VUndefined)].

Definition thenable_world : World :=
  Eval vm_compute in
    match run node thenable_run (init None) with
    | Some w => w
    | None => init None
    end.

(** Two tasks have the same place in the order of [sortChannelQueue]. *)
Definition same_key (x y : ChannelTask) : bool :=
  (priority y =? priority x) && (requestedAt y =? requestedAt x).

(** *** The tests of the repository *)

(** The field [type] of an event. *)
Definition type_of (ev : ChannelEvent) : string :=
  match ev with
  | CANCELLED_ALL_TASKS => "CANCELLED_ALL_TASKS"
  | TASK_CANCELLED _ => "TASK_CANCELLED"
  | TASK_COMPLETED _ _ _ _ => "TASK_COMPLETED"
  | TASK_STARTED _ => "TASK_STARTED"
  | TASK_ADDED _ => "TASK_ADDED"
  end.

(** The types of the events that the handler of the channel got, and of
    the ones that the handler in the options of the task [tid] got. *)
Definition channel_events (ds : list Delivery) : list string :=
  flat_map (fun d => match d with ToChannel ev => [type_of ev] | _ => [] end) ds.

Definition options_events (tid : nat) (ds : list Delivery) : list string :=
  flat_map (fun d => match d with
                     | ToOptions k ev => if Nat.eqb k tid then [type_of ev] else []
                     | _ => []
                     end) ds.

(** A task [async () => { await delay(10); return n }]; the promise settles
    in a later job. *)
Definition delayed (n : nat) (handler : bool) : Options :=
  {| opt_task := {| ref := n; body := Returns (VPromise n) |};
     opt_priority := None; opt_eventHandler := handler |}.

(** The three exclusive submissions of the tests, the first promise
    fulfilled, the tick, the third promise fulfilled, the tick. *)
Definition exclusive_run : list Action :=
  [SubmitExclusively (delayed 1 false) 0;
   SubmitExclusively (delayed 2 true) 0;
   SubmitExclusively (delayed 3 false) 0;
   Settle 0 (Fulfils (VNum 1)); Tick;
   Settle 2 (Fulfils (VNum 3)); Tick].

(** [async () => { throw new Error("Error 1") }]: the call returns a
    promise, which is rejected. *)
Definition rejected_run : list Action :=
  [Submit (delayed 1 false) 0; Settle 0 (Rejects (VStr "Error 1"))].

(** Three tasks [() => output.push(n)]. *)
Definition pushes_run : list Action :=
  [Submit (returns 1 0) 0; Submit (returns 2 0) 0; Submit (returns 3 0) 0].

(** The result that an event asks the [resultPromise] of its task to be
    resolved with. *)
Definition event_result (ev : ChannelEvent) : list ChannelTaskResult :=
  match ev with
  | TASK_COMPLETED _ ok _ res => [if ok then success res else failure res]
  | TASK_CANCELLED _ => [cancelation]
  | _ => []
  end.

(** The results of the events about the task [tid] that the handler of the
    channel got. *)
Definition outcome_view (tid : nat) (ds : list Delivery) : list ChannelTaskResult :=
  flat_map (fun d => match d with
                     | ToChannel ev => if about tid ev then event_result ev else []
                     | _ => []
                     end) ds.

(** The calls of [resolve] are the results of the events that were sent. *)
Definition agree (ds : list Delivery) (rs : list (nat * ChannelTaskResult)) : Prop :=
  forall tid, resolutions tid rs = outcome_view tid ds.

Definition agrees (w : World) : Prop := agree (delivered w) (resolved w).

(** *** Further worlds to try the channel on *)

(** A host with [requestAnimationFrame]. *)
Definition browser : Delay.Host :=
  {| Delay.has_requestAnimationFrame := true; Delay.has_setTimeout := true |}.

(** Three tasks that return at once wait behind a task in progress, whose
    promise is then fulfilled. *)
Definition drain_run : list Action :=
  [Submit (waits 0) 10; Submit (returns 1 0) 11; Submit (returns 2 0) 12;
   Submit (returns 3 0) 13; Settle 0 (Fulfils VUndefined)].

Definition drain_world_bare : World :=
  Eval vm_compute in
    match run bare drain_run (init (limit 1)) with
    | Some w => w
    | None => init None
    end.

(** The concurrency is negative. *)
Definition stuck_run : list Action :=
  [Submit (returns 0 0) 10; Submit (waits 1) 11; CancelTask (opt_task (waits 1));
   Submit (throws 2) 12].

Definition stuck_world : World :=
  Eval vm_compute in
    match run node stuck_run (init (limit (-1))) with
    | Some w => w
    | None => init None
    end.

(** No task is in progress and none has been started. *)
Definition never_started (c : Z) (w : World) : Prop :=
  concurrency (channel w) = c /\
  tasksInProgress (channel w) = [] /\
  started_tasks (delivered w) = [].

(** The run has no call of [addTaskToChannel] itself. *)
Definition no_plain_submit (acts : list Action) : Prop :=
  Forall (fun a => match a with Submit _ _ => False | _ => True end) acts.

(** The handler calls of one [sendEvent] for an event about its task, or
    the one call of [cancelAllChannelTasks] with CANCELLED_ALL_TASKS. *)
Inductive batch : list Delivery -> Prop :=
| batch_all : batch [ToChannel CANCELLED_ALL_TASKS]
| batch_event (t : ChannelTask) (ev : ChannelEvent) :
    about (ident t) ev = true -> batch (event_deliveries t ev).

(** The handler calls are a sequence of such batches. *)
Inductive Batched : list Delivery -> Prop :=
| Batched_nil : Batched []
| Batched_app (ds g : list Delivery) : Batched ds -> batch g -> Batched (ds ++ g).

(** Exclusive submissions, one cancelled by the next, and a conditional
    submission that is refused. *)
Definition exclusive_only_run : list Action :=
  [SubmitExclusively (waits 0) 10; SubmitExclusively (waits 1) 11;
   SubmitExclusively (waits 2) 12; SubmitIfEmpty (waits 3) 13;
   Settle 0 (Fulfils VUndefined)].

Definition exclusive_only_world : World :=
  Eval vm_compute in
    match run node exclusive_only_run (init (limit 1)) with
    | Some w => w
    | None => init None
    end.

(** Every task that was started and whose call ended at once has the
    result of the call as the result of its promise, and TASK_COMPLETED was
    sent for it. *)
Definition finished (w : World) : Prop :=
  forall t ok res,
    In (ToChannel (TASK_STARTED t)) (delivered w) ->
    outcome (call (task t)) ok res ->
    handle (ident t) w = Fulfilled (if ok then success res else failure res) /\
    In (ToChannel (TASK_COMPLETED t ok (negb ok) res)) (delivered w).

(** Tasks that return at once, and a promise that is fulfilled. *)
Definition succeeding_run : list Action :=
  [Submit (returns 0 0) 10; Submit (waits 1) 11; Submit (returns 2 0) 12;
   Settle 1 (Fulfils (VStr "done")); Tick].

Definition succeeding_world : World :=
  Eval vm_compute in
    match run node succeeding_run (init (limit 1)) with
    | Some w => w
    | None => init None
    end.

(** The world of [succeeding_run] after its first two steps. *)
Definition succeeding_start : list Action :=
  [Submit (returns 0 0) 10; Submit (waits 1) 11].

Definition succeeding_rest : list Action :=
  [Submit (returns 2 0) 12; Settle 1 (Fulfils (VStr "done")); Tick].

Definition early_world : World :=
  Eval vm_compute in
    match run node succeeding_start (init (limit 1)) with
    | Some w => w
    | None => init None
    end.

(** The jobs of the host: the reaction of a promise that has settled and a
    callback of [runNextTick]. *)
Definition host_job (a : Action) : bool :=
  match a with
  | Settle _ _ | Tick => true
  | _ => false
  end.

(** What the channel has still to do: it weighs the tasks that wait, the
    tasks in progress and the callbacks that are due, so that every job of
    the host takes from it. *)
Definition pending_work (w : World) : nat :=
  (3 * length (tasksInQueue (channel w)) +
   2 * length (tasksInProgress (channel w)) + deferred w)%nat.

(** ** Facts about the arrays *)

Section Arrays.
Context {A : Type}.

Lemma Some_eq (x y : A) : Some x = Some y -> x = y.
Proof. congruence. Qed.

Lemma findIndex_from_found (p : A -> bool) (pre post : list A) (x : A) (i : Z) :
  Forall (fun y => p y = false) pre -> p x = true ->
  findIndex_from p (pre ++ x :: post) i = i + Z.of_nat (length pre).
Proof.
  intros Hpre Hx. revert i.
  induction Hpre as [|y pre Hy _ IH]; intros i; simpl.
  - rewrite Hx. lia.
  - rewrite Hy, IH. lia.
Qed.

Lemma findIndex_from_none (p : A -> bool) (l : list A) (i : Z) :
  Forall (fun y => p y = false) l -> findIndex_from p l i = -1.
Proof.
  intros H. revert i. induction H as [|y l Hy _ IH]; intros i; simpl.
  - reflexivity.
  - now rewrite Hy.
Qed.

(** A list splits at the first element that satisfies [p], if there is one. *)
Lemma first_match (p : A -> bool) (l : list A) :
  Forall (fun y => p y = false) l \/
  exists pre x post, l = pre ++ x :: post /\
    Forall (fun y => p y = false) pre /\ p x = true.
Proof.
  induction l as [|a l IH].
  - left. constructor.
  - destruct (p a) eqn:Ha.
    + right. exists [], a, l. repeat split; auto.
    + destruct IH as [IH | (pre & x & post & -> & Hpre & Hx)].
      * left. constructor; assumption.
      * right. exists (a :: pre), x, post. repeat split; auto.
Qed.

Lemma findIndex_found (p : A -> bool) (pre post : list A) (x : A) :
  Forall (fun y => p y = false) pre -> p x = true ->
  findIndex p (pre ++ x :: post) = Z.of_nat (length pre).
Proof.
  intros. unfold findIndex. now rewrite findIndex_from_found.
Qed.

Lemma firstn_prefix (pre rest : list A) :
  firstn (length pre) (pre ++ rest) = pre.
Proof. induction pre; simpl; congruence. Qed.

Lemma skipn_prefix (pre rest : list A) :
  skipn (length pre) (pre ++ rest) = rest.
Proof. induction pre; simpl; congruence. Qed.

Lemma skipn_past (pre post : list A) (x : A) :
  skipn (S (length pre)) (pre ++ x :: post) = post.
Proof. induction pre; simpl; auto. Qed.

Lemma splice1_at (pre post : list A) (x : A) :
  splice1 (Z.of_nat (length pre)) (pre ++ x :: post) = ([x], pre ++ post).
Proof.
  unfold splice1.
  assert ((Z.of_nat (length pre) <? 0) = false) as -> by (apply Z.ltb_ge; lia).
  rewrite length_app. simpl length.
  replace (Z.to_nat (Z.min _ _)) with (length pre) by lia.
  now rewrite skipn_prefix, firstn_prefix, skipn_past.
Qed.

(** A splice never makes the array longer. *)
Lemma splice1_length (start : Z) (l : list A) :
  (length (snd (splice1 start l)) <= length l)%nat.
Proof.
  unfold splice1, snd.
  rewrite length_app, length_firstn, length_skipn. lia.
Qed.

(** The splice of [removeTaskFromInProgress] when [indexOf] found nothing:
    [splice(-1, 1)] takes the last element. *)
Lemma splice1_minus_one (l : list A) (x : A) :
  splice1 (-1) (l ++ [x]) = ([x], l).
Proof.
  unfold splice1. change (-1 <? 0) with true. cbv iota.
  rewrite length_app. simpl length.
  replace (Z.to_nat _) with (length l) by lia.
  now rewrite skipn_prefix, firstn_prefix, skipn_past, app_nil_r.
Qed.

End Arrays.

(** ** Facts about [sendEvent] and the cancellations *)

Lemma sendEvent_spec (t : ChannelTask) (ev : ChannelEvent) (w : World) :
  sendEvent t ev w =
  {| channel := channel w;
     delivered := delivered w ++ event_deliveries t ev;
     resolved := resolved w ++ event_resolutions t ev;
     awaiting := awaiting w; deferred := deferred w; allocated := allocated w |}.
Proof.
  unfold sendEvent, taskEventHandler, event_deliveries, event_resolutions.
  destruct ev as [|u|u ok err res|u|u]; try destruct ok; destruct (observed t);
    unfold deliver, resolve; simpl;
    rewrite <- ?app_assoc; simpl; rewrite ?app_nil_r; reflexivity.
Qed.

(** The loop of [cancelAllChannelTasks]. *)
Lemma cancel_loop_spec (tasks : list ChannelTask) (w : World) :
  fold_left (fun w' t => sendEvent t (TASK_CANCELLED t) w') tasks w =
  {| channel := channel w;
     delivered := delivered w ++
       flat_map (fun t => event_deliveries t (TASK_CANCELLED t)) tasks;
     resolved := resolved w ++ map (fun t => (ident t, cancelation)) tasks;
     awaiting := awaiting w; deferred := deferred w; allocated := allocated w |}.
Proof.
  revert w. induction tasks as [|t tasks IH]; intros w; simpl.
  - rewrite !app_nil_r. now destruct w.
  - rewrite IH, sendEvent_spec. simpl. rewrite <- !app_assoc. reflexivity.
Qed.

Lemma cancelAllChannelTasks_spec (w : World) :
  cancelAllChannelTasks w =
  {| channel := {| concurrency := concurrency (channel w);
                   tasksInProgress := tasksInProgress (channel w);
                   tasksInQueue := [] |};
     delivered := delivered w ++ ToChannel CANCELLED_ALL_TASKS ::
       flat_map (fun t => event_deliveries t (TASK_CANCELLED t))
         (tasksInQueue (channel w));
     resolved := resolved w ++
       map (fun t => (ident t, cancelation)) (tasksInQueue (channel w));
     awaiting := awaiting w; deferred := deferred w; allocated := allocated w |}.
Proof.
  unfold cancelAllChannelTasks. rewrite cancel_loop_spec. simpl.
  rewrite <- app_assoc. reflexivity.
Qed.

Lemma cancelChannelTask_found (f : Fn) (w : World) (pre post : list ChannelTask)
    (t : ChannelTask) :
  tasksInQueue (channel w) = pre ++ t :: post ->
  Forall (fun x => Nat.eqb (ref (task x)) (ref f) = false) pre ->
  Nat.eqb (ref (task t)) (ref f) = true ->
  cancelChannelTask f w =
  sendEvent t (TASK_CANCELLED t) (set_tasksInQueue (pre ++ post) w).
Proof.
  intros Hq Hpre Ht. unfold cancelChannelTask. rewrite Hq.
  rewrite (findIndex_found _ pre post t Hpre Ht).
  assert ((Z.of_nat (length pre) =? -1) = false) as -> by (apply Z.eqb_neq; lia).
  now rewrite splice1_at.
Qed.

Lemma cancelChannelTask_none (f : Fn) (w : World) :
  Forall (fun x => Nat.eqb (ref (task x)) (ref f) = false) (tasksInQueue (channel w)) ->
  cancelChannelTask f w = w.
Proof.
  intros H. unfold cancelChannelTask, findIndex.
  now rewrite (findIndex_from_none _ _ 0 H).
Qed.

(** ** Facts about [proccessChannel] *)

Section Dispatch.
Variable host : Delay.Host.

Lemma sendEvent_channel (t : ChannelTask) (ev : ChannelEvent) (w : World) :
  channel (sendEvent t ev w) = channel w.
Proof. now rewrite sendEvent_spec. Qed.

Lemma settled_queue (t : ChannelTask) (ok : bool) (res : Value) (w : World) :
  tasksInQueue (channel (settled t ok res w)) = tasksInQueue (channel w).
Proof. unfold settled. now rewrite sendEvent_channel. Qed.

Lemma start_queue (t : ChannelTask) (rest : list ChannelTask) (w : World) :
  tasksInQueue (channel (start t rest w)) = rest.
Proof. unfold start. now rewrite sendEvent_channel. Qed.

Lemma complete_settled (next : World -> World) (t : ChannelTask) (ok : bool)
    (res : Value) (w : World) :
  complete host next t ok res w =
  Delay.runNextTick host defer defer next (settled t ok res w).
Proof. reflexivity. Qed.

(** [complete] looks at its continuation only at the settled world. *)
Lemma complete_ext (next next' : World -> World) (t : ChannelTask) (ok : bool)
    (res : Value) (w : World) :
  next (settled t ok res w) = next' (settled t ok res w) ->
  complete host next t ok res w = complete host next' t ok res w.
Proof.
  intros H. rewrite !complete_settled. unfold Delay.runNextTick.
  now destruct (Delay.has_requestAnimationFrame host), (Delay.has_setTimeout host).
Qed.

Lemma proccessChannel_rec_full (n : nat) (w : World) :
  ~ room w -> proccessChannel_rec host n w = w.
Proof.
  intros H. destruct n; simpl; [reflexivity|].
  unfold room in H.
  destruct (Z.geb_spec (Z.of_nat (length (tasksInProgress (channel w))))
              (concurrency (channel w))); [reflexivity | lia].
Qed.

Lemma proccessChannel_rec_empty (n : nat) (w : World) :
  tasksInQueue (channel w) = [] -> proccessChannel_rec host n w = w.
Proof.
  intros H. destruct n; simpl; [reflexivity|]. rewrite H. simpl.
  now destruct (_ >=? _).
Qed.

Lemma proccessChannel_rec_step (n : nat) (w : World) (t : ChannelTask)
    (rest : list ChannelTask) :
  room w -> tasksInQueue (channel w) = t :: rest ->
  proccessChannel_rec host (S n) w =
  match call (task t) with
  | Throws e => complete host (proccessChannel_rec host n) t false e (start t rest w)
  | Returns res =>
    if isPromise res then register t (start t rest w)
    else complete host (proccessChannel_rec host n) t true res (start t rest w)
  end.
Proof.
  intros Hroom Hq. simpl. unfold room in Hroom.
  destruct (Z.geb_spec (Z.of_nat (length (tasksInProgress (channel w))))
              (concurrency (channel w))); [lia|].
  rewrite Hq. reflexivity.
Qed.

(** The fuel of [proccessChannel] is enough: more of it changes nothing. *)
Lemma proccessChannel_rec_fuel (n : nat) (w : World) :
  (length (tasksInQueue (channel w)) < n)%nat ->
  proccessChannel_rec host n w = proccessChannel host w.
Proof.
  unfold proccessChannel. revert w.
  induction n as [|n IH]; intros w Hn; [lia|].
  destruct (Z_lt_dec (Z.of_nat (length (tasksInProgress (channel w))))
              (concurrency (channel w))) as [Hroom | Hfull].
  2: { now rewrite !proccessChannel_rec_full. }
  destruct (tasksInQueue (channel w)) as [|t rest] eqn:Hq.
  { now rewrite !proccessChannel_rec_empty. }
  rewrite !(proccessChannel_rec_step _ w t rest Hroom Hq).
  simpl in Hn.
  assert (Hnext : forall ok res,
    proccessChannel_rec host n (settled t ok res (start t rest w)) =
    proccessChannel_rec host (length (t :: rest)) (settled t ok res (start t rest w))).
  { intros ok res.
    rewrite IH by (rewrite settled_queue, start_queue; lia).
    now rewrite settled_queue, start_queue. }
  destruct (call (task t)) as [res | e].
  - destruct (isPromise res); [reflexivity|]. apply complete_ext, Hnext.
  - apply complete_ext, Hnext.
Qed.

(** One call of [proccessChannel] with a free slot and a task waiting. *)
Lemma proccessChannel_dispatch (w : World) (t : ChannelTask) (rest : list ChannelTask) :
  room w -> tasksInQueue (channel w) = t :: rest ->
  proccessChannel host w =
  match call (task t) with
  | Throws e => complete host (proccessChannel host) t false e (start t rest w)
  | Returns res =>
    if isPromise res then register t (start t rest w)
    else complete host (proccessChannel host) t true res (start t rest w)
  end.
Proof.
  intros Hroom Hq. unfold proccessChannel at 1. rewrite Hq.
  rewrite (proccessChannel_rec_step _ w t rest Hroom Hq).
  assert (Hnext : forall ok res,
    proccessChannel_rec host (length (t :: rest)) (settled t ok res (start t rest w)) =
    proccessChannel host (settled t ok res (start t rest w))).
  { intros ok res. apply proccessChannel_rec_fuel.
    rewrite settled_queue, start_queue. simpl. lia. }
  destruct (call (task t)) as [res | e].
  - destruct (isPromise res); [reflexivity|]. apply complete_ext, Hnext.
  - apply complete_ext, Hnext.
Qed.

Lemma proccessChannel_full (w : World) : ~ room w -> proccessChannel host w = w.
Proof. apply proccessChannel_rec_full. Qed.

Lemma proccessChannel_empty (w : World) :
  tasksInQueue (channel w) = [] -> proccessChannel host w = w.
Proof. apply proccessChannel_rec_empty. Qed.

End Dispatch.

(** ** Properties that the channel keeps *)

Section Stable.
Variable host : Delay.Host.
Variable P : World -> Prop.
Hypothesis HP : stable P.

Lemma stable_runNextTick (next : World -> World) (w : World) :
  (P w -> P (next w)) -> P w -> P (Delay.runNextTick host defer defer next w).
Proof.
  intros Hnext Hw. unfold Delay.runNextTick.
  destruct (Delay.has_requestAnimationFrame host); [now apply (st_defer P HP)|].
  destruct (Delay.has_setTimeout host); [now apply (st_defer P HP)|].
  now apply Hnext.
Qed.

Lemma stable_proccessChannel_rec (n : nat) (w : World) :
  P w -> P (proccessChannel_rec host n w).
Proof.
  revert w. induction n as [|n IH]; intros w Hw; [exact Hw|].
  destruct (Z_lt_dec (Z.of_nat (length (tasksInProgress (channel w))))
              (concurrency (channel w))) as [Hroom | Hfull].
  2: { now rewrite proccessChannel_rec_full. }
  destruct (tasksInQueue (channel w)) as [|t rest] eqn:Hq.
  { now rewrite proccessChannel_rec_empty. }
  rewrite (proccessChannel_rec_step host n w t rest Hroom Hq).
  destruct (call (task t)) as [res | e] eqn:Hcall.
  - destruct (isPromise res) eqn:Hres.
    + now apply (st_async P HP w t rest res).
    + rewrite complete_settled. apply stable_runNextTick; [apply IH|].
      apply (st_sync P HP); auto. rewrite Hcall. now repeat split.
  - rewrite complete_settled. apply stable_runNextTick; [apply IH|].
    apply (st_sync P HP); auto. rewrite Hcall. now split.
Qed.

Lemma stable_proccessChannel (w : World) : P w -> P (proccessChannel host w).
Proof. apply stable_proccessChannel_rec. Qed.

Lemma addTaskToChannel_enqueue (o : Options) (now : Z) (w : World) :
  fst (addTaskToChannel host o now w) = proccessChannel host (enqueue o now w).
Proof. reflexivity. Qed.

Lemma find_ident (tid : nat) (l : list ChannelTask) (t : ChannelTask) :
  find (fun x => Nat.eqb (ident x) tid) l = Some t -> ident t = tid.
Proof.
  intros H. apply find_some in H. destruct H as [_ H].
  now apply Nat.eqb_eq in H.
Qed.

Lemma settle_react (tid : nat) (s : Settlement) (w w' : World) :
  settle host tid s w = Some w' ->
  exists (t : ChannelTask) (ok : bool) (res : Value),
    find (fun x => Nat.eqb (ident x) (ident t)) (awaiting w) = Some t /\
    ident t = tid /\
    s = (if ok then Fulfils res else Rejects res) /\
    w' = Delay.runNextTick host defer defer (proccessChannel host) (react t ok res w).
Proof.
  unfold settle. destruct (find _ (awaiting w)) as [t|] eqn:Hfind; [|discriminate].
  pose proof (find_ident _ _ _ Hfind) as Hid. subst tid.
  destruct s as [v | e]; intros [= <-].
  - now exists t, true, v.
  - now exists t, false, e.
Qed.

Lemma stable_settle (tid : nat) (s : Settlement) (w w' : World) :
  P w -> settle host tid s w = Some w' -> P w'.
Proof.
  intros Hw H. apply settle_react in H.
  destruct H as (t & ok & res & Hfind & _ & _ & ->).
  apply stable_runNextTick; [apply stable_proccessChannel|].
  now apply (st_react P HP).
Qed.

Lemma stable_tick (w w' : World) : P w -> tick host w = Some w' -> P w'.
Proof.
  unfold tick. intros Hw. destruct (deferred w) as [|n] eqn:Hd; [discriminate|].
  intros [= <-]. apply stable_proccessChannel. now apply (st_tick P HP).
Qed.

(** The rule of a whole run, for a property that the submissions keep
    too. *)
Lemma stable_perform (a : Action) (w w' : World) :
  (forall o now w0, P w0 -> P (enqueue o now w0)) ->
  P w -> perform host a w = Some w' -> P w'.
Proof.
  intros Henq Hw.
  destruct a as [o now|o now|o now| |f|tid s| ]; cbn [perform];
    try (intros H; apply Some_eq in H; subst w').
  - rewrite addTaskToChannel_enqueue.
    apply stable_proccessChannel, Henq, Hw.
  - unfold addTaskToChannelExclusively.
    rewrite addTaskToChannel_enqueue. apply stable_proccessChannel, Henq.
    destruct (Nat.eqb _ 0); [exact Hw | now apply (st_cancelAll P HP)].
  - unfold addTaskToChannelIfEmpty.
    destruct (Nat.eqb _ 0); [|exact Hw].
    rewrite addTaskToChannel_enqueue. apply stable_proccessChannel, Henq, Hw.
  - now apply (st_cancelAll P HP).
  - now apply (st_cancelTask P HP).
  - now apply stable_settle.
  - now apply stable_tick.
Qed.

Lemma stable_run (acts : list Action) (w w' : World) :
  (forall o now w0, P w0 -> P (enqueue o now w0)) ->
  P w -> run host acts w = Some w' -> P w'.
Proof.
  intros Henq. revert w. induction acts as [|a acts IH]; intros w Hw; simpl.
  - now intros [= <-].
  - destruct (perform host a w) as [w1|] eqn:Ha; [|discriminate].
    apply IH. now apply (stable_perform a w w1).
Qed.

End Stable.

(** ** The limit of the tasks in progress *)

Lemma removeTaskFromInProgress_length (t : ChannelTask) (w : World) :
  (length (tasksInProgress (channel (removeTaskFromInProgress t w))) <=
   length (tasksInProgress (channel w)))%nat.
Proof. unfold removeTaskFromInProgress. cbn [set_tasksInProgress with_channel channel tasksInProgress]. apply splice1_length. Qed.

Lemma removeTaskFromInProgress_concurrency (t : ChannelTask) (w : World) :
  concurrency (channel (removeTaskFromInProgress t w)) = concurrency (channel w).
Proof. reflexivity. Qed.

Lemma removeTaskFromInProgress_queue (t : ChannelTask) (w : World) :
  tasksInQueue (channel (removeTaskFromInProgress t w)) = tasksInQueue (channel w).
Proof. reflexivity. Qed.

Lemma settled_channel (t : ChannelTask) (ok : bool) (res : Value) (w : World) :
  channel (settled t ok res w) = channel (removeTaskFromInProgress t w).
Proof. unfold settled. now rewrite sendEvent_channel. Qed.

Lemma start_channel (t : ChannelTask) (rest : list ChannelTask) (w : World) :
  channel (start t rest w) =
  {| concurrency := concurrency (channel w);
     tasksInProgress := tasksInProgress (channel w) ++ [t];
     tasksInQueue := rest |}.
Proof. unfold start. now rewrite sendEvent_channel. Qed.

Lemma enqueue_channel (o : Options) (now : Z) (w : World) :
  channel (enqueue o now w) =
  {| concurrency := concurrency (channel w);
     tasksInProgress := tasksInProgress (channel w);
     tasksInQueue :=
       sort sortChannelQueue (tasksInQueue (channel w) ++ [new_task o now w]) |}.
Proof. unfold enqueue. now rewrite sendEvent_channel. Qed.

(** [cancelChannelTask] cancels the first task of the queue with the
    function, or does nothing. *)
Lemma cancelChannelTask_cases (f : Fn) (w : World) :
  cancelChannelTask f w = w \/
  exists pre t post,
    tasksInQueue (channel w) = pre ++ t :: post /\
    Forall (fun x => Nat.eqb (ref (task x)) (ref f) = false) pre /\
    Nat.eqb (ref (task t)) (ref f) = true /\
    cancelChannelTask f w =
    sendEvent t (TASK_CANCELLED t) (set_tasksInQueue (pre ++ post) w).
Proof.
  destruct (first_match (fun x => Nat.eqb (ref (task x)) (ref f))
              (tasksInQueue (channel w)))
    as [Hnone | (pre & t & post & Hq & Hpre & Ht)].
  - left. now apply cancelChannelTask_none.
  - right. exists pre, t, post. repeat split; auto.
    now apply cancelChannelTask_found.
Qed.

Lemma within_limit_stable (c : Z) : stable (within_limit c).
Proof.
  constructor; unfold within_limit, room.
  - intros w t rest res [Hc Hlen] Hroom Hq _ _. unfold register. simpl.
    rewrite start_channel. simpl. rewrite length_app. simpl. lia.
  - intros w t rest ok res [Hc Hlen] Hroom Hq _. rewrite settled_channel.
    pose proof (removeTaskFromInProgress_length t (start t rest w)) as Hrm.
    rewrite start_channel in Hrm. cbn [tasksInProgress] in Hrm.
    rewrite length_app in Hrm. cbn [length] in Hrm.
    rewrite removeTaskFromInProgress_concurrency, start_channel.
    cbn [concurrency]. lia.
  - intros w H. exact H.
  - intros w n H _. exact H.
  - intros w t ok res [Hc Hlen] _. unfold react. rewrite settled_channel.
    match goal with |- context [removeTaskFromInProgress t ?x] =>
      pose proof (removeTaskFromInProgress_length t x) as Hrm;
      rewrite removeTaskFromInProgress_concurrency end.
    cbn [set_awaiting channel] in *. lia.
  - intros w [Hc Hlen]. rewrite cancelAllChannelTasks_spec. simpl. auto.
  - intros w f [Hc Hlen].
    destruct (cancelChannelTask_cases f w) as [-> | (pre & t & post & _ & _ & _ & ->)];
      [auto|].
    rewrite sendEvent_channel. simpl. auto.
Qed.

Lemma within_limit_enqueue (c : Z) (o : Options) (now : Z) (w : World) :
  within_limit c w -> within_limit c (enqueue o now w).
Proof. unfold within_limit. rewrite enqueue_channel. simpl. auto. Qed.

Lemma within_limit_init (args : option ChannelArgs) :
  within_limit (concurrency (createChannel args)) (init args).
Proof. unfold within_limit. simpl. split; [reflexivity | lia]. Qed.

Lemma run_within_limit (host : Delay.Host) (args : option ChannelArgs)
    (acts : list Action) (w : World) :
  run host acts (init args) = Some w ->
  within_limit (concurrency (createChannel args)) w.
Proof.
  apply stable_run.
  - apply within_limit_stable.
  - intros o now w0. apply within_limit_enqueue.
  - apply within_limit_init.
Qed.

(** ** The worlds that the parts of the channel build *)

Lemma start_spec (t : ChannelTask) (rest : list ChannelTask) (w : World) :
  start t rest w =
  {| channel := {| concurrency := concurrency (channel w);
                   tasksInProgress := tasksInProgress (channel w) ++ [t];
                   tasksInQueue := rest |};
     delivered := delivered w ++ event_deliveries t (TASK_STARTED t);
     resolved := resolved w;
     awaiting := awaiting w; deferred := deferred w; allocated := allocated w |}.
Proof. unfold start. rewrite sendEvent_spec. simpl. now rewrite app_nil_r. Qed.

Lemma settled_spec (t : ChannelTask) (ok : bool) (res : Value) (w : World) :
  settled t ok res w =
  {| channel := {| concurrency := concurrency (channel w);
                   tasksInProgress :=
                     snd (splice1 (indexOf t (tasksInProgress (channel w)))
                            (tasksInProgress (channel w)));
                   tasksInQueue := tasksInQueue (channel w) |};
     delivered := delivered w ++ event_deliveries t (TASK_COMPLETED t ok (negb ok) res);
     resolved := resolved w ++ [(ident t, if ok then success res else failure res)];
     awaiting := awaiting w; deferred := deferred w; allocated := allocated w |}.
Proof. unfold settled. rewrite sendEvent_spec. reflexivity. Qed.

Lemma enqueue_spec (o : Options) (now : Z) (w : World) :
  enqueue o now w =
  {| channel := {| concurrency := concurrency (channel w);
                   tasksInProgress := tasksInProgress (channel w);
                   tasksInQueue :=
                     sort sortChannelQueue
                       (tasksInQueue (channel w) ++ [new_task o now w]) |};
     delivered := delivered w ++
       event_deliveries (new_task o now w) (TASK_ADDED (new_task o now w));
     resolved := resolved w;
     awaiting := awaiting w; deferred := deferred w;
     allocated := S (allocated w) |}.
Proof. unfold enqueue. rewrite sendEvent_spec. simpl. now rewrite app_nil_r. Qed.

(** ** What the handlers see of one task *)

Lemma channel_view_app (tid : nat) (l l' : list Delivery) :
  channel_view tid (l ++ l') = channel_view tid l ++ channel_view tid l'.
Proof. apply flat_map_app. Qed.

Lemma task_view_app (tid : nat) (l l' : list Delivery) :
  task_view tid (l ++ l') = task_view tid l ++ task_view tid l'.
Proof. apply flat_map_app. Qed.

Lemma options_view_app (tid : nat) (l l' : list Delivery) :
  options_view tid (l ++ l') = options_view tid l ++ options_view tid l'.
Proof. apply flat_map_app. Qed.

Lemma resolutions_app (tid : nat) (l l' : list (nat * ChannelTaskResult)) :
  resolutions tid (l ++ l') = resolutions tid l ++ resolutions tid l'.
Proof. unfold resolutions. now rewrite filter_app, map_app. Qed.

Lemma channel_view_event (tid : nat) (t : ChannelTask) (ev : ChannelEvent) :
  channel_view tid (event_deliveries t ev) = if about tid ev then kind ev else [].
Proof.
  unfold event_deliveries. destruct (observed t); simpl; now rewrite app_nil_r.
Qed.

Lemma task_view_event (tid : nat) (t : ChannelTask) (ev : ChannelEvent) :
  task_view tid (event_deliveries t ev) =
  if Nat.eqb (ident t) tid then kind ev else [].
Proof.
  unfold event_deliveries. destruct (observed t); simpl; now rewrite app_nil_r.
Qed.

Lemma options_view_event (tid : nat) (t : ChannelTask) (ev : ChannelEvent) :
  options_view tid (event_deliveries t ev) =
  if Nat.eqb (ident t) tid then (if observed t then kind ev else []) else [].
Proof.
  unfold event_deliveries. destruct (observed t); simpl;
    destruct (Nat.eqb (ident t) tid); now rewrite ?app_nil_r.
Qed.

Lemma resolutions_one (tid k : nat) (r : ChannelTaskResult) :
  resolutions tid [(k, r)] = if Nat.eqb k tid then [r] else [].
Proof. unfold resolutions. simpl. now destruct (Nat.eqb k tid). Qed.

(** ** Every task is in one phase *)

Lemma sort_insert_perm {A : Type} (cmp : A -> A -> Z) (x : A) (l : list A) :
  Permutation (sort_insert cmp x l) (x :: l).
Proof.
  induction l as [|y l IH]; simpl; [reflexivity|].
  destruct (cmp x y <=? 0); [reflexivity|].
  rewrite IH. apply perm_swap.
Qed.

Lemma sort_perm {A : Type} (cmp : A -> A -> Z) (l : list A) :
  Permutation (sort cmp l) l.
Proof.
  induction l as [|x l IH]; simpl; [reflexivity|].
  now rewrite sort_insert_perm, IH.
Qed.

Lemma not_in_idents (tid : nat) (l : list ChannelTask) :
  ~ In tid (map ident l) -> Forall (fun y => Nat.eqb (ident y) tid = false) l.
Proof.
  intros H. apply Forall_forall. intros y Hy. apply Nat.eqb_neq.
  intros <-. apply H, in_map, Hy.
Qed.

(** [removeTaskFromInProgress] takes out the task that [proccessChannel]
    has just pushed. *)
(** Pushing a task and taking its first occurrence away leaves as many
    tasks as before. *)
Lemma pushed_removed_length (t : ChannelTask) (l : list ChannelTask) :
  length (snd (splice1 (indexOf t (l ++ [t])) (l ++ [t]))) = length l.
Proof.
  unfold indexOf.
  destruct (first_match (fun x => Nat.eqb (ident x) (ident t)) (l ++ [t]))
    as [Hnone | (pre & x & post & Heq & Hpre & Hx)].
  - apply Forall_app in Hnone. destruct Hnone as [_ Hnone].
    apply Forall_inv in Hnone. cbv beta in Hnone.
    now rewrite Nat.eqb_refl in Hnone.
  - rewrite Heq at 1 2. rewrite (findIndex_found _ pre post x Hpre Hx), splice1_at.
    cbn [snd]. apply (f_equal (@length ChannelTask)) in Heq.
    rewrite !length_app in *. cbn [length] in Heq. lia.
Qed.

Lemma remove_pushed (t : ChannelTask) (l : list ChannelTask) :
  ~ In (ident t) (map ident l) ->
  snd (splice1 (indexOf t (l ++ [t])) (l ++ [t])) = l.
Proof.
  intros H. unfold indexOf.
  rewrite (findIndex_found _ l [] t (not_in_idents _ _ H) (Nat.eqb_refl _)).
  rewrite splice1_at. simpl. apply app_nil_r.
Qed.

(** The first task with the identity [tid], as [find] and [findIndex] see
    it. *)
Lemma find_split (tid : nat) (l : list ChannelTask) (t : ChannelTask) :
  find (fun x => Nat.eqb (ident x) tid) l = Some t ->
  exists pre post, l = pre ++ t :: post /\
    Forall (fun y => Nat.eqb (ident y) tid = false) pre /\ ident t = tid.
Proof.
  induction l as [|a l IH]; simpl; [discriminate|].
  destruct (Nat.eqb (ident a) tid) eqn:Ha.
  - intros [= ->]. exists [], l. apply Nat.eqb_eq in Ha. repeat split; auto.
  - intros H. destruct (IH H) as (pre & post & -> & Hpre & Ht).
    exists (a :: pre), post. repeat split; auto.
Qed.

Ltac projections :=
  cbn [channel delivered resolved awaiting deferred allocated
       tasksInQueue tasksInProgress concurrency
       set_awaiting set_deferred set_allocated set_tasksInQueue
       set_tasksInProgress with_channel defer register].

Ltac projections_in H :=
  cbn [channel delivered resolved awaiting deferred allocated
       tasksInQueue tasksInProgress concurrency
       set_awaiting set_deferred set_allocated set_tasksInQueue
       set_tasksInProgress with_channel defer register] in H.

Ltac views :=
  projections;
  rewrite ?channel_view_app, ?task_view_app, ?options_view_app, ?resolutions_app,
    ?channel_view_event, ?task_view_event, ?options_view_event, ?resolutions_one;
  cbn [about kind].

Ltac same_task := rewrite ?Nat.eqb_refl.

Ltac other_task H :=
  rewrite ?(proj2 (Nat.eqb_neq _ _) H); rewrite ?app_nil_r.

(** A task that is not the one an operation is about stays as it is. *)
Lemma task_state_frame (w w' : World) (tid : nat) (ph : Phase) (obs : bool) :
  task_state w tid ph obs ->
  channel_view tid (delivered w') = channel_view tid (delivered w) ->
  task_view tid (delivered w') = task_view tid (delivered w) ->
  options_view tid (delivered w') = options_view tid (delivered w) ->
  resolutions tid (resolved w') = resolutions tid (resolved w) ->
  (In tid (map ident (tasksInQueue (channel w'))) <->
   In tid (map ident (tasksInQueue (channel w)))) ->
  (In tid (map ident (tasksInProgress (channel w'))) <->
   In tid (map ident (tasksInProgress (channel w)))) ->
  ((allocated w' <= tid)%nat <-> (allocated w <= tid)%nat) ->
  (forall u, In u (tasksInQueue (channel w') ++ tasksInProgress (channel w')) ->
             ident u = tid ->
             In u (tasksInQueue (channel w) ++ tasksInProgress (channel w))) ->
  task_state w' tid ph obs.
Proof.
  intros S Hc Ht Ho Hr Hq Hp Ha Hu. constructor.
  - rewrite Hc. apply S.
  - rewrite Ht. apply S.
  - rewrite Ho. apply S.
  - rewrite Hr. apply S.
  - rewrite Hq. apply S.
  - rewrite Hp. apply S.
  - rewrite Ha. apply S.
  - intros u Hin Hid. apply (ts_observed _ _ _ _ S); auto.
Qed.

Ltac frame_task w H :=
  apply (task_state_frame w); auto; views; other_task H; auto;
  try reflexivity; try tauto.

Lemma consistent_sync (w : World) (t : ChannelTask) (rest : list ChannelTask)
    (ok : bool) (res : Value) :
  consistent w -> tasksInQueue (channel w) = t :: rest ->
  consistent (settled t ok res (start t rest w)).
Proof.
  intros (Hnd & Haw & Hst) Hq.
  rewrite Hq in Hnd. simpl in Hnd. apply NoDup_cons_iff in Hnd as [Hnotin Hnd].
  rewrite map_app, in_app_iff in Hnotin.
  rewrite settled_spec, start_spec. projections.
  rewrite remove_pushed by tauto.
  split; [exact Hnd | split; [exact Haw|]].
  intros tid. destruct (Hst tid) as (ph & obs & S).
  destruct (Nat.eq_dec (ident t) tid) as [<- | Hne].
  - assert (ph = Queued) as ->.
    { apply (ts_queued _ _ _ _ S). rewrite Hq. simpl. auto. }
    assert (observed t = obs) as Hobs.
    { apply (ts_observed _ _ _ _ S); [rewrite Hq; simpl; auto | reflexivity]. }
    exists Done, obs. constructor; views; same_task.
    + now rewrite (ts_channel _ _ _ _ S).
    + now rewrite (ts_task _ _ _ _ S).
    + rewrite (ts_options _ _ _ _ S), Hobs. now destruct obs.
    + rewrite length_app, (ts_resolved _ _ _ _ S). reflexivity.
    + split; [tauto | discriminate].
    + split; [tauto | discriminate].
    + split; [|discriminate]. intros Hal.
      apply (ts_unborn _ _ _ _ S) in Hal. discriminate.
    + intros u Hu Hid. apply (ts_observed _ _ _ _ S); [|exact Hid].
      rewrite Hq. simpl. right. exact Hu.
  - exists ph, obs. frame_task w Hne.
    + rewrite Hq. simpl. tauto.
    + intros u Hu _. rewrite Hq. simpl. right. exact Hu.
Qed.

Lemma consistent_async (w : World) (t : ChannelTask) (rest : list ChannelTask) :
  consistent w -> tasksInQueue (channel w) = t :: rest ->
  consistent (register t (start t rest w)).
Proof.
  intros (Hnd & Haw & Hst) Hq.
  rewrite Hq in Hnd.
  pose proof Hnd as Hnd'. simpl in Hnd'. apply NoDup_cons_iff in Hnd' as [Hnotin _].
  rewrite map_app, in_app_iff in Hnotin.
  unfold register. rewrite start_spec. unfold set_awaiting. projections.
  split; [|split; [now rewrite Haw|]].
  { apply (Permutation_NoDup (l := map ident ((t :: rest) ++ tasksInProgress (channel w))));
      [|exact Hnd].
    apply Permutation_map. simpl. rewrite app_assoc. apply Permutation_cons_append. }
  intros tid. destruct (Hst tid) as (ph & obs & S).
  destruct (Nat.eq_dec (ident t) tid) as [<- | Hne].
  - assert (ph = Queued) as ->.
    { apply (ts_queued _ _ _ _ S). rewrite Hq. simpl. auto. }
    assert (observed t = obs) as Hobs.
    { apply (ts_observed _ _ _ _ S); [rewrite Hq; simpl; auto | reflexivity]. }
    exists Running, obs. constructor; views; same_task.
    + now rewrite (ts_channel _ _ _ _ S).
    + now rewrite (ts_task _ _ _ _ S).
    + rewrite (ts_options _ _ _ _ S), Hobs. now destruct obs.
    + apply (ts_resolved _ _ _ _ S).
    + split; [tauto | discriminate].
    + split; [reflexivity|]. intros _. rewrite map_app, in_app_iff. simpl. auto.
    + split; [|discriminate]. intros Hal.
      apply (ts_unborn _ _ _ _ S) in Hal. discriminate.
    + intros u Hu Hid. apply (ts_observed _ _ _ _ S); [|exact Hid].
      rewrite Hq. rewrite app_assoc, in_app_iff in Hu. simpl in *. tauto.
  - exists ph, obs. frame_task w Hne.
    + rewrite Hq. simpl. tauto.
    + rewrite map_app, in_app_iff. simpl. tauto.
    + intros u Hu Hid. rewrite Hq. rewrite app_assoc, in_app_iff in Hu. simpl in *.
      destruct Hu as [Hu | [<- | []]]; [auto | contradiction].
Qed.

Lemma consistent_set_deferred (n : nat) (w : World) :
  consistent w -> consistent (set_deferred n w).
Proof.
  intros (Hnd & Haw & Hst). split; [exact Hnd | split; [exact Haw|]].
  intros tid. destruct (Hst tid) as (ph & obs & S). exists ph, obs.
  apply (task_state_frame w); auto; reflexivity.
Qed.

Lemma consistent_react (w : World) (t : ChannelTask) (ok : bool) (res : Value) :
  consistent w ->
  find (fun x => Nat.eqb (ident x) (ident t)) (awaiting w) = Some t ->
  consistent (react t ok res w).
Proof.
  intros (Hnd & Haw & Hst) Hfind.
  destruct (find_split _ _ _ Hfind) as (pre & post & Hsplit & Hpre & _).
  unfold react. rewrite settled_spec. unfold set_awaiting. projections.
  unfold indexOf. rewrite <- Haw, Hsplit.
  rewrite (findIndex_found _ pre post t Hpre (Nat.eqb_refl _)), splice1_at.
  cbn [snd].
  rewrite <- Haw, Hsplit in Hnd.
  rewrite app_assoc, map_app in Hnd. simpl in Hnd.
  pose proof (NoDup_remove_1 _ _ _ Hnd) as Hnd1.
  pose proof (NoDup_remove_2 _ _ _ Hnd) as Hnotin.
  rewrite <- map_app, <- app_assoc in Hnd1, Hnotin.
  split; [exact Hnd1 | split; [reflexivity|]].
  intros tid. destruct (Hst tid) as (ph & obs & S).
  destruct (Nat.eq_dec (ident t) tid) as [<- | Hne].
  - assert (ph = Running) as ->.
    { apply (ts_running _ _ _ _ S). rewrite <- Haw, Hsplit, map_app, in_app_iff.
      simpl. auto. }
    assert (observed t = obs) as Hobs.
    { apply (ts_observed _ _ _ _ S); [|reflexivity].
      rewrite <- Haw, Hsplit, !in_app_iff. simpl. auto. }
    rewrite map_app, in_app_iff in Hnotin.
    exists Done, obs. constructor; views; same_task.
    + now rewrite (ts_channel _ _ _ _ S).
    + now rewrite (ts_task _ _ _ _ S).
    + rewrite (ts_options _ _ _ _ S), Hobs. now destruct obs.
    + rewrite length_app, (ts_resolved _ _ _ _ S). reflexivity.
    + split; [tauto | discriminate].
    + split; [tauto | discriminate].
    + split; [|discriminate]. intros Hal.
      apply (ts_unborn _ _ _ _ S) in Hal. discriminate.
    + intros u Hu Hid. apply (ts_observed _ _ _ _ S); [|exact Hid].
      rewrite <- Haw, Hsplit. rewrite !in_app_iff in *. simpl. tauto.
  - exists ph, obs. frame_task w Hne.
    + rewrite <- Haw, Hsplit, !map_app, !in_app_iff. simpl. tauto.
    + intros u Hu Hid. rewrite <- Haw, Hsplit. rewrite !in_app_iff in *. simpl. tauto.
Qed.

Lemma consistent_cancelTask (w : World) (f : Fn) :
  consistent w -> consistent (cancelChannelTask f w).
Proof.
  intros Hw.
  destruct (cancelChannelTask_cases f w) as [-> | (pre & t & post & Hq & _ & _ & ->)];
    [exact Hw|].
  destruct Hw as (Hnd & Haw & Hst).
  rewrite sendEvent_spec. unfold set_tasksInQueue, with_channel. projections.
  rewrite Hq in Hnd. rewrite <- app_assoc, map_app in Hnd. simpl in Hnd.
  pose proof (NoDup_remove_1 _ _ _ Hnd) as Hnd1.
  pose proof (NoDup_remove_2 _ _ _ Hnd) as Hnotin.
  rewrite <- map_app, app_assoc in Hnd1, Hnotin.
  split; [exact Hnd1 | split; [exact Haw|]].
  intros tid. destruct (Hst tid) as (ph & obs & S).
  destruct (Nat.eq_dec (ident t) tid) as [<- | Hne].
  - assert (ph = Queued) as ->.
    { apply (ts_queued _ _ _ _ S). rewrite Hq, map_app, in_app_iff. simpl. auto. }
    assert (observed t = obs) as Hobs.
    { apply (ts_observed _ _ _ _ S); [|reflexivity].
      rewrite Hq, !in_app_iff. simpl. auto. }
    rewrite map_app, in_app_iff in Hnotin.
    exists Dropped, obs. constructor; views; same_task.
    + now rewrite (ts_channel _ _ _ _ S).
    + now rewrite (ts_task _ _ _ _ S).
    + rewrite (ts_options _ _ _ _ S), Hobs. now destruct obs.
    + cbn [event_resolutions]. views. same_task.
      rewrite length_app, (ts_resolved _ _ _ _ S). reflexivity.
    + split; [tauto | discriminate].
    + split; [tauto | discriminate].
    + split; [|discriminate]. intros Hal.
      apply (ts_unborn _ _ _ _ S) in Hal. discriminate.
    + intros u Hu Hid. apply (ts_observed _ _ _ _ S); [|exact Hid].
      rewrite Hq. rewrite !in_app_iff in *. simpl. tauto.
  - exists ph, obs. frame_task w Hne.
    + cbn [event_resolutions]. views. other_task Hne. reflexivity.
    + rewrite Hq, !map_app, !in_app_iff. simpl. tauto.
    + intros u Hu Hid. rewrite Hq. rewrite !in_app_iff in *. simpl. tauto.
Qed.

Lemma in_sort {A : Type} (cmp : A -> A -> Z) (x : A) (l : list A) :
  In x (sort cmp l) <-> In x l.
Proof.
  split; apply Permutation_in; [|symmetry]; apply sort_perm.
Qed.

Lemma in_idents_sort (cmp : ChannelTask -> ChannelTask -> Z) (tid : nat)
    (l : list ChannelTask) :
  In tid (map ident (sort cmp l)) <-> In tid (map ident l).
Proof.
  rewrite !in_map_iff. split; intros (u & Hu & Hin); exists u;
    (split; [exact Hu|]); now apply (in_sort cmp).
Qed.

(** What the loop of [cancelAllChannelTasks] shows of a task that is not in
    the queue, and of one that is. *)
Lemma cancel_views_absent (tid : nat) (q : list ChannelTask) :
  ~ In tid (map ident q) ->
  channel_view tid (flat_map (fun t => event_deliveries t (TASK_CANCELLED t)) q) = [] /\
  task_view tid (flat_map (fun t => event_deliveries t (TASK_CANCELLED t)) q) = [] /\
  options_view tid (flat_map (fun t => event_deliveries t (TASK_CANCELLED t)) q) = [] /\
  resolutions tid (map (fun t => (ident t, cancelation)) q) = [].
Proof.
  induction q as [|t q IH]; intros Hnotin; [repeat split|].
  simpl in Hnotin.
  destruct IH as (Hc & Ht & Ho & Hr); [tauto|].
  assert (Hne : ident t <> tid) by tauto.
  change (map (fun t0 => (ident t0, cancelation)) (t :: q))
    with ([(ident t, cancelation)] ++ map (fun t0 => (ident t0, cancelation)) q).
  cbn [flat_map]. views. other_task Hne. rewrite Hc, Ht, Ho, Hr. repeat split.
Qed.

Lemma cancel_views_present (tid : nat) (obs : bool) (q : list ChannelTask) :
  NoDup (map ident q) -> In tid (map ident q) ->
  (forall u, In u q -> ident u = tid -> observed u = obs) ->
  channel_view tid (flat_map (fun t => event_deliveries t (TASK_CANCELLED t)) q)
    = [Cancelled] /\
  task_view tid (flat_map (fun t => event_deliveries t (TASK_CANCELLED t)) q)
    = [Cancelled] /\
  options_view tid (flat_map (fun t => event_deliveries t (TASK_CANCELLED t)) q)
    = (if obs then [Cancelled] else []) /\
  resolutions tid (map (fun t => (ident t, cancelation)) q) = [cancelation].
Proof.
  induction q as [|t q IH]; intros Hnd Hin Hobs; [destruct Hin|].
  simpl in Hnd, Hin. apply NoDup_cons_iff in Hnd as [Hnotin Hnd].
  change (map (fun t0 => (ident t0, cancelation)) (t :: q))
    with ([(ident t, cancelation)] ++ map (fun t0 => (ident t0, cancelation)) q).
  cbn [flat_map]. views.
  destruct (Nat.eq_dec (ident t) tid) as [Heq | Hne].
  - subst tid. same_task.
    destruct (cancel_views_absent (ident t) q Hnotin) as (Hc & Ht & Ho & Hr).
    rewrite Hc, Ht, Ho, Hr, (Hobs t (or_introl eq_refl) eq_refl).
    repeat split. now destruct obs.
  - other_task Hne. apply IH; [exact Hnd | tauto |].
    intros u Hu. apply Hobs. now right.
Qed.

Lemma consistent_cancelAll (w : World) :
  consistent w -> consistent (cancelAllChannelTasks w).
Proof.
  intros (Hnd & Haw & Hst). rewrite cancelAllChannelTasks_spec.
  split; [|split; [exact Haw|]]; projections.
  { rewrite map_app in Hnd. apply NoDup_app_remove_l in Hnd. exact Hnd. }
  intros tid. destruct (Hst tid) as (ph & obs & S).
  assert (Hq : NoDup (map ident (tasksInQueue (channel w)))).
  { rewrite map_app in Hnd. now apply NoDup_app_remove_r in Hnd. }
  change (ToChannel CANCELLED_ALL_TASKS ::
          flat_map (fun t => event_deliveries t (TASK_CANCELLED t))
            (tasksInQueue (channel w)))
    with ([ToChannel CANCELLED_ALL_TASKS] ++
          flat_map (fun t => event_deliveries t (TASK_CANCELLED t))
            (tasksInQueue (channel w))).
  destruct (in_dec Nat.eq_dec tid (map ident (tasksInQueue (channel w))))
    as [Hin | Hnotin].
  - assert (ph = Queued) as -> by now apply (ts_queued _ _ _ _ S).
    destruct (cancel_views_present tid obs _ Hq Hin) as (Hc & Ht & Ho & Hr).
    { intros u Hu. apply (ts_observed _ _ _ _ S). apply in_app_iff. now left. }
    exists Dropped, obs. constructor; views; rewrite ?Hc, ?Ht, ?Ho, ?Hr.
    + now rewrite (ts_channel _ _ _ _ S).
    + now rewrite (ts_task _ _ _ _ S).
    + rewrite (ts_options _ _ _ _ S). now destruct obs.
    + rewrite length_app, (ts_resolved _ _ _ _ S). reflexivity.
    + simpl. split; [tauto | discriminate].
    + split; [|discriminate]. intros Hrun.
      apply (ts_running _ _ _ _ S) in Hrun. discriminate.
    + split; [|discriminate]. intros Hal.
      apply (ts_unborn _ _ _ _ S) in Hal. discriminate.
    + intros u Hu Hid. apply (ts_observed _ _ _ _ S); [|exact Hid].
      apply in_app_iff. now right.
  - destruct (cancel_views_absent tid _ Hnotin) as (Hc & Ht & Ho & Hr).
    exists ph, obs. apply (task_state_frame w); auto; views;
      rewrite ?Hc, ?Ht, ?Ho, ?Hr, ?app_nil_r; auto; try reflexivity.
    + simpl. tauto.
    + intros u Hu _. apply in_app_iff. now right.
Qed.

Lemma consistent_enqueue (o : Options) (now : Z) (w : World) :
  consistent w -> consistent (enqueue o now w).
Proof.
  intros (Hnd & Haw & Hst). rewrite enqueue_spec.
  set (t := new_task o now w).
  assert (Hfresh : ~ In (ident t) (map ident (tasksInQueue (channel w) ++
                                              tasksInProgress (channel w)))).
  { destruct (Hst (ident t)) as (ph & obs & S).
    assert (ph = Unborn) as -> by (apply (ts_unborn _ _ _ _ S); apply Nat.le_refl).
    rewrite map_app, in_app_iff. intros [H | H].
    - apply (ts_queued _ _ _ _ S) in H. discriminate.
    - apply (ts_running _ _ _ _ S) in H. discriminate. }
  split; [|split; [exact Haw|]]; projections.
  { apply (Permutation_NoDup
             (l := map ident (t :: tasksInQueue (channel w) ++ tasksInProgress (channel w)))).
    - apply Permutation_map. symmetry.
      rewrite sort_perm, <- app_assoc. symmetry.
      apply (Permutation_middle (tasksInQueue (channel w)) _ t).
    - simpl. now constructor. }
  intros tid. destruct (Hst tid) as (ph & obs & S).
  rewrite map_app, in_app_iff in Hfresh.
  destruct (Nat.eq_dec (ident t) tid) as [<- | Hne].
  - assert (ph = Unborn) as -> by (apply (ts_unborn _ _ _ _ S); apply Nat.le_refl).
    exists Queued, (observed t). constructor; views; same_task.
    + now rewrite (ts_channel _ _ _ _ S).
    + now rewrite (ts_task _ _ _ _ S).
    + rewrite (ts_options _ _ _ _ S). now destruct obs, (observed t).
    + apply (ts_resolved _ _ _ _ S).
    + split; [reflexivity|]. intros _.
      apply in_idents_sort. rewrite map_app, in_app_iff. simpl. auto.
    + split; [tauto | discriminate].
    + split; [|discriminate]. unfold t. simpl. lia.
    + intros u Hu Hid. rewrite in_app_iff, in_sort, in_app_iff in Hu. simpl in Hu.
      destruct Hu as [[Hu | [<- | []]] | Hu]; [|reflexivity|].
      * exfalso. apply Hfresh. left. rewrite <- Hid. now apply in_map.
      * exfalso. apply Hfresh. right. rewrite <- Hid. now apply in_map.
  - exists ph, obs. frame_task w Hne.
    + rewrite in_idents_sort, map_app, in_app_iff. simpl. tauto.
    + unfold t in Hne. simpl in Hne. lia.
    + intros u Hu Hid. rewrite in_app_iff, in_sort, in_app_iff in Hu.
      rewrite in_app_iff. simpl in Hu.
      destruct Hu as [[Hu | [<- | []]] | Hu]; [auto | contradiction | auto].
Qed.

Lemma consistent_init (args : option ChannelArgs) : consistent (init args).
Proof.
  split; [constructor | split; [reflexivity|]].
  intros tid. exists Unborn, false. constructor; simpl; try reflexivity.
  - split; [tauto | discriminate].
  - split; [tauto | discriminate].
  - split; [reflexivity | lia].
  - tauto.
Qed.

Lemma consistent_stable : stable consistent.
Proof.
  constructor.
  - intros w t rest res Hw _ Hq _ _. now apply consistent_async.
  - intros w t rest ok res Hw _ Hq _. now apply consistent_sync.
  - intros w Hw. now apply consistent_set_deferred.
  - intros w n Hw _. now apply consistent_set_deferred.
  - intros w t ok res. apply consistent_react.
  - apply consistent_cancelAll.
  - intros w f. apply consistent_cancelTask.
Qed.

Lemma run_consistent (host : Delay.Host) (args : option ChannelArgs)
    (acts : list Action) (w : World) :
  run host acts (init args) = Some w -> consistent w.
Proof.
  apply stable_run.
  - apply consistent_stable.
  - intros o now w0. apply consistent_enqueue.
  - apply consistent_init.
Qed.

(** ** The channel only adds to what the handlers have seen *)

Lemma extends_refl (w : World) : extends (delivered w) w.
Proof. exists []. now rewrite app_nil_r. Qed.

Lemma extends_app (base l : list Delivery) (w w' : World) :
  extends base w -> delivered w' = delivered w ++ l -> extends base w'.
Proof.
  intros [more Hw] Hw'. exists (more ++ l). now rewrite Hw', Hw, app_assoc.
Qed.

Lemma extends_stable (base : list Delivery) : stable (extends base).
Proof.
  constructor.
  - intros w t rest res Hw _ _ _ _. unfold register.
    eapply extends_app; [exact Hw|]. rewrite start_spec. reflexivity.
  - intros w t rest ok res Hw _ _ _.
    assert (Hs : extends base (start t rest w)).
    { eapply extends_app; [exact Hw|]. rewrite start_spec. reflexivity. }
    eapply extends_app; [exact Hs|]. rewrite settled_spec. reflexivity.
  - intros w Hw. exact Hw.
  - intros w n Hw _. exact Hw.
  - intros w t ok res Hw _. unfold react.
    eapply extends_app; [exact Hw|]. rewrite settled_spec. reflexivity.
  - intros w Hw. eapply extends_app; [exact Hw|].
    rewrite cancelAllChannelTasks_spec. reflexivity.
  - intros w f Hw.
    destruct (cancelChannelTask_cases f w) as [-> | (pre & t & post & _ & _ & _ & ->)];
      [exact Hw|].
    eapply extends_app; [exact Hw|]. rewrite sendEvent_spec. reflexivity.
Qed.

Lemma proccessChannel_extends (host : Delay.Host) (w : World) :
  extends (delivered w) (proccessChannel host w).
Proof. apply stable_proccessChannel; [apply extends_stable | apply extends_refl]. Qed.

(** With a free slot [proccessChannel] starts the head of the queue before
    anything else. *)
Lemma proccessChannel_starts_head (host : Delay.Host) (w : World)
    (t : ChannelTask) (rest : list ChannelTask) :
  room w -> tasksInQueue (channel w) = t :: rest ->
  exists more,
    delivered (proccessChannel host w) =
    delivered w ++ ToChannel (TASK_STARTED t) :: more.
Proof.
  intros Hroom Hq.
  assert (Hstart : extends (delivered w ++ [ToChannel (TASK_STARTED t)]) (start t rest w)).
  { rewrite start_spec. unfold extends, event_deliveries. projections.
    eexists. rewrite <- app_assoc. reflexivity. }
  assert (H : extends (delivered w ++ [ToChannel (TASK_STARTED t)])
                (proccessChannel host w)).
  { rewrite (proccessChannel_dispatch host w t rest Hroom Hq).
    pose proof (extends_stable (delivered w ++ [ToChannel (TASK_STARTED t)])) as Hst.
    destruct (call (task t)) as [res | e].
    - destruct (isPromise res).
      + unfold register. exact Hstart.
      + rewrite complete_settled.
        apply stable_runNextTick; [exact Hst | now apply stable_proccessChannel |].
        eapply extends_app; [exact Hstart|]. rewrite settled_spec. reflexivity.
    - rewrite complete_settled.
      apply stable_runNextTick; [exact Hst | now apply stable_proccessChannel |].
      eapply extends_app; [exact Hstart|]. rewrite settled_spec. reflexivity. }
  destruct H as [more H]. exists more. rewrite H, <- app_assoc. reflexivity.
Qed.

(** ** The order of the queue *)

Section Sorting.
Context {A : Type}.
Variable cmp : A -> A -> Z.
Hypothesis cmp_trans : forall a b c, cmp a b <= 0 -> cmp b c <= 0 -> cmp a c <= 0.

Lemma sort_insert_head (a : A) (l : list A) :
  Forall (fun y => cmp a y <= 0) l -> sort_insert cmp a l = a :: l.
Proof.
  intros H. destruct H as [|y l Hy _]; simpl; [reflexivity|].
  cbv beta in Hy.
  destruct (Z.leb_spec (cmp a y) 0); [reflexivity | lia].
Qed.

(** Pushing [t] on a sorted array and sorting it puts [t] behind the
    elements that do not come after it, and before the others. *)
Lemma sort_push (q : list A) (t : A) :
  StronglySorted (fun a b => cmp a b <= 0) q ->
  exists q1 q2,
    q = q1 ++ q2 /\
    sort cmp (q ++ [t]) = q1 ++ t :: q2 /\
    Forall (fun u => cmp u t <= 0) q1 /\
    Forall (fun u => 0 < cmp u t) q2.
Proof.
  induction q as [|a q IH]; intros Hs.
  - exists [], []. repeat split; constructor.
  - apply StronglySorted_inv in Hs as [Hs Ha].
    destruct (IH Hs) as (q1 & q2 & Hq & Hsort & H1 & H2).
    unfold sort in *. simpl. rewrite Hsort.
    destruct q1 as [|y q1].
    + simpl in *. subst q2.
      destruct (Z.leb_spec (cmp a t) 0) as [Hle | Hgt].
      * exists [a], q. repeat split; auto.
      * exists [], (a :: q). rewrite (sort_insert_head a q Ha). repeat split; auto.
    + subst q. simpl in *.
      pose proof (Forall_inv Ha) as Hay. pose proof (Forall_inv H1) as Hyt.
      cbv beta in Hay, Hyt.
      destruct (Z.leb_spec (cmp a y) 0); [|lia].
      exists (a :: y :: q1), q2. repeat split; auto.
      constructor; [now apply (cmp_trans a y t) | exact H1].
Qed.

End Sorting.

Section Sorted.
Context {A : Type}.
Variable R : A -> A -> Prop.

Lemma StronglySorted_remove (pre post : list A) (x : A) :
  StronglySorted R (pre ++ x :: post) -> StronglySorted R (pre ++ post).
Proof.
  induction pre as [|a pre IH]; simpl; intros H.
  - now apply StronglySorted_inv in H.
  - apply StronglySorted_inv in H as [Hs Ha]. constructor; [auto|].
    rewrite Forall_app in *. destruct Ha as [Hpre Hpost].
    split; [exact Hpre | now apply Forall_inv_tail in Hpost].
Qed.

Lemma StronglySorted_insert (pre post : list A) (x : A) :
  StronglySorted R (pre ++ post) ->
  Forall (fun u => R u x) pre -> Forall (R x) post ->
  StronglySorted R (pre ++ x :: post).
Proof.
  induction pre as [|a pre IH]; simpl; intros Hs Hpre Hpost.
  - now constructor.
  - apply StronglySorted_inv in Hs as [Hs Ha].
    constructor; [apply IH; auto; now apply Forall_inv_tail in Hpre|].
    rewrite Forall_app in *. destruct Ha as [Ha1 Ha2].
    split; [exact Ha1|]. constructor; [now apply Forall_inv in Hpre | exact Ha2].
Qed.

End Sorted.

Lemma precedes_trans (a b c : ChannelTask) :
  precedes a b -> precedes b c -> precedes a c.
Proof.
  unfold precedes, sortChannelQueue.
  destruct (Z.eqb_spec (priority a) (priority b)),
           (Z.eqb_spec (priority b) (priority c)),
           (Z.eqb_spec (priority a) (priority c)); lia.
Qed.

Lemma precedes_total (a b : ChannelTask) :
  0 < sortChannelQueue a b -> precedes b a.
Proof.
  unfold precedes, sortChannelQueue.
  destruct (Z.eqb_spec (priority a) (priority b)),
           (Z.eqb_spec (priority b) (priority a)); lia.
Qed.

Lemma later_request (a b : ChannelTask) :
  0 < sortChannelQueue a b -> priority a = priority b ->
  requestedAt b < requestedAt a.
Proof.
  unfold sortChannelQueue.
  destruct (Z.eqb_spec (priority a) (priority b)); lia.
Qed.

(** [precedes], spelled out: a lower priority, or the same priority and a
    request that is not later. *)
Lemma precedes_spec (a b : ChannelTask) :
  precedes a b <->
  priority a < priority b \/
  (priority a = priority b /\ requestedAt a <= requestedAt b).
Proof.
  unfold precedes, sortChannelQueue.
  destruct (Z.eqb_spec (priority a) (priority b)); lia.
Qed.

Lemma started_tasks_app (l l' : list Delivery) :
  started_tasks (l ++ l') = started_tasks l ++ started_tasks l'.
Proof. apply flat_map_app. Qed.

Lemma started_tasks_event (t : ChannelTask) (ev : ChannelEvent) :
  started_tasks (event_deliveries t ev) =
  match ev with TASK_STARTED u => [u] | _ => [] end.
Proof.
  unfold event_deliveries. destruct (observed t), ev; reflexivity.
Qed.

Lemma started_tasks_cancel (q : list ChannelTask) :
  started_tasks (flat_map (fun t => event_deliveries t (TASK_CANCELLED t)) q) = [].
Proof.
  induction q as [|t q IH]; [reflexivity|].
  cbn [flat_map]. now rewrite started_tasks_app, started_tasks_event, IH.
Qed.

Lemma ordered_weaken (lo lo' : Z) (w : World) :
  lo <= lo' -> ordered lo w -> ordered lo' w.
Proof.
  intros Hle (Hs & Ha & Hq & Hst). repeat split; auto.
  eapply Forall_impl; [|exact Hq]. cbv beta. intros u [H1 H2]. split; [lia | exact H2].
Qed.

(** A task leaves the queue, and maybe tasks are started that may start. *)
Lemma ordered_leave (lo : Z) (w w' : World) (pre post extra : list ChannelTask)
    (x : ChannelTask) :
  tasksInQueue (channel w) = pre ++ x :: post ->
  tasksInQueue (channel w') = pre ++ post ->
  allocated w' = allocated w ->
  started_tasks (delivered w') = started_tasks (delivered w) ++ extra ->
  Forall (fun b => (ident b < allocated w)%nat /\ Forall (arrival b) (pre ++ post)) extra ->
  ordered lo w -> ordered lo w'.
Proof.
  unfold ordered, queue_sorted.
  intros Hq Hq' Hal Hst Hextra (Hs & Ha & Hf & Hb).
  rewrite Hq' , Hal, Hst. rewrite Hq in Hs, Ha, Hf, Hb.
  repeat split.
  - now apply StronglySorted_remove in Hs.
  - now apply StronglySorted_remove in Ha.
  - rewrite Forall_app in *. destruct Hf as [H1 H2].
    split; [exact H1 | now apply Forall_inv_tail in H2].
  - apply Forall_app. split; [|exact Hextra].
    eapply Forall_impl; [|exact Hb]. cbv beta. intros b [H1 H2]. split; [exact H1|].
    rewrite Forall_app in *. destruct H2 as [H2 H3].
    split; [exact H2 | now apply Forall_inv_tail in H3].
Qed.

Lemma ordered_same (lo : Z) (w w' : World) :
  tasksInQueue (channel w') = tasksInQueue (channel w) ->
  allocated w' = allocated w ->
  started_tasks (delivered w') = started_tasks (delivered w) ->
  ordered lo w -> ordered lo w'.
Proof.
  unfold ordered, queue_sorted. intros -> -> ->. auto.
Qed.

(** The head of the queue may start. *)
Lemma ordered_head (lo : Z) (w : World) (t : ChannelTask) (rest : list ChannelTask) :
  tasksInQueue (channel w) = t :: rest -> ordered lo w ->
  Forall (fun b => (ident b < allocated w)%nat /\ Forall (arrival b) ([] ++ rest)) [t].
Proof.
  intros Hq (_ & Ha & Hf & _). rewrite Hq in Ha, Hf.
  apply StronglySorted_inv in Ha as [_ Ha]. apply Forall_inv in Hf as [_ Hf].
  constructor; [split; assumption | constructor].
Qed.

Lemma ordered_stable (lo : Z) : stable (ordered lo).
Proof.
  constructor.
  - intros w t rest res Hw _ Hq _ _.
    apply (ordered_leave lo w _ [] rest [t] t Hq);
      [ | | | now apply (ordered_head lo) | exact Hw];
      unfold register; rewrite start_spec; projections; try reflexivity.
    now rewrite started_tasks_app, started_tasks_event.
  - intros w t rest ok res Hw _ Hq _.
    apply (ordered_leave lo w _ [] rest [t] t Hq);
      [ | | | now apply (ordered_head lo) | exact Hw];
      rewrite settled_spec, start_spec; projections; try reflexivity.
    rewrite !started_tasks_app, !started_tasks_event. now rewrite app_nil_r.
  - intros w. now apply ordered_same.
  - intros w n Hw _. revert Hw. now apply ordered_same.
  - intros w t ok res Hw _. revert Hw. unfold react.
    apply ordered_same; rewrite settled_spec; projections; try reflexivity.
    rewrite started_tasks_app, started_tasks_event. apply app_nil_r.
  - intros w (Hs & Ha & Hf & Hb). rewrite cancelAllChannelTasks_spec.
    unfold ordered, queue_sorted. projections.
    change (ToChannel CANCELLED_ALL_TASKS ::
            flat_map (fun t => event_deliveries t (TASK_CANCELLED t))
              (tasksInQueue (channel w)))
      with ([ToChannel CANCELLED_ALL_TASKS] ++
            flat_map (fun t => event_deliveries t (TASK_CANCELLED t))
              (tasksInQueue (channel w))).
    rewrite !started_tasks_app, started_tasks_cancel. simpl. rewrite app_nil_r.
    repeat split; try constructor.
    eapply Forall_impl; [|exact Hb]. cbv beta. intros b [H1 _]. split; [exact H1 | constructor].
  - intros w f Hw.
    destruct (cancelChannelTask_cases f w) as [-> | (pre & t & post & Hq & _ & _ & ->)];
      [exact Hw|].
    apply (ordered_leave lo w _ pre post [] t Hq);
      [ | | | constructor | exact Hw];
      rewrite sendEvent_spec; projections; try reflexivity.
    now rewrite started_tasks_app, started_tasks_event, app_nil_r.
Qed.

(** The submission of a task at a clock reading that is not before the
    last one. *)
Lemma ordered_enqueue (lo : Z) (o : Options) (now : Z) (w : World) :
  lo <= now -> ordered lo w -> ordered now (enqueue o now w).
Proof.
  intros Hle (Hs & Ha & Hf & Hb). rewrite enqueue_spec.
  unfold queue_sorted in Hs.
  set (t := new_task o now w).
  destruct (sort_push sortChannelQueue precedes_trans (tasksInQueue (channel w)) t Hs)
    as (q1 & q2 & Hq & Hsort & H1 & H2).
  unfold ordered, queue_sorted. projections.
  rewrite started_tasks_app, started_tasks_event, app_nil_r.
  rewrite Hsort. rewrite Hq in Hs, Ha, Hf, Hb.
  pose proof Hf as Hf'. rewrite Forall_app in Hf'. destruct Hf' as [Hf1 Hf2].
  repeat split.
  - apply StronglySorted_insert; [exact Hs | exact H1 |].
    eapply Forall_impl; [|exact H2]. intros u. apply precedes_total.
  - apply StronglySorted_insert; [exact Ha | |].
    + eapply Forall_impl; [|exact Hf1]. cbv beta. intros u [_ Hu] _. exact Hu.
    + rewrite Forall_forall in *. intros u Hu Hp.
      pose proof (later_request u t (H2 u Hu) (eq_sym Hp)) as Hlater.
      destruct (Hf2 u Hu) as [Hreq _]. unfold t in Hlater. simpl in Hlater. lia.
  - rewrite Forall_app. split; [|constructor].
    + eapply Forall_impl; [|exact Hf1]. cbv beta. intros u [Hu1 Hu2]. split; lia.
    + unfold t. simpl. split; lia.
    + eapply Forall_impl; [|exact Hf2]. cbv beta. intros u [Hu1 Hu2]. split; lia.
  - eapply Forall_impl; [|exact Hb]. cbv beta. intros b [Hb1 Hb2]. split; [lia|].
    rewrite Forall_app in *. destruct Hb2 as [Hb2 Hb3].
    split; [exact Hb2|]. constructor; [|exact Hb3].
    intros _. unfold t. simpl. exact Hb1.
Qed.

Lemma ordered_init (lo : Z) (args : option ChannelArgs) : ordered lo (init args).
Proof. repeat split; constructor. Qed.

Lemma Sorted_le_cons (lo now : Z) (l : list Z) :
  Sorted Z.le (lo :: now :: l) -> lo <= now /\ Sorted Z.le (now :: l).
Proof.
  intros H. apply Sorted_inv in H as [Hs Hhd]. apply HdRel_inv in Hhd. auto.
Qed.

Lemma perform_ordered (host : Delay.Host) (a : Action) (lo : Z) (w w' : World) :
  ordered lo w -> Sorted Z.le (lo :: reading a) ->
  perform host a w = Some w' -> ordered (last (reading a) lo) w'.
Proof.
  intros Hw Hclock.
  destruct a as [o now|o now|o now| |f|tid s| ]; cbn [perform reading last] in *;
    try (intros H; apply Some_eq in H; subst w');
    try apply Sorted_le_cons in Hclock as [Hle _].
  - rewrite addTaskToChannel_enqueue.
    apply stable_proccessChannel; [apply ordered_stable|]. now apply (ordered_enqueue lo).
  - unfold addTaskToChannelExclusively. rewrite addTaskToChannel_enqueue.
    apply stable_proccessChannel; [apply ordered_stable|]. apply (ordered_enqueue lo); auto.
    destruct (Nat.eqb _ 0); [exact Hw | now apply (st_cancelAll _ (ordered_stable lo))].
  - unfold addTaskToChannelIfEmpty.
    destruct (Nat.eqb _ 0); [|now apply (ordered_weaken lo)].
    rewrite addTaskToChannel_enqueue.
    apply stable_proccessChannel; [apply ordered_stable|]. now apply (ordered_enqueue lo).
  - now apply (st_cancelAll _ (ordered_stable lo)).
  - now apply (st_cancelTask _ (ordered_stable lo)).
  - now apply (stable_settle host _ (ordered_stable lo) tid s w).
  - now apply (stable_tick host _ (ordered_stable lo) w).
Qed.

Lemma run_ordered_from (host : Delay.Host) (acts : list Action) (lo : Z) (w w' : World) :
  ordered lo w -> Sorted Z.le (lo :: readings acts) ->
  run host acts w = Some w' -> exists lo', ordered lo' w'.
Proof.
  revert lo w. induction acts as [|a acts IH]; intros lo w Hw Hclock; simpl.
  - intros [= <-]. now exists lo.
  - destruct (perform host a w) as [w1|] eqn:Ha; [|discriminate].
    unfold readings in Hclock. simpl in Hclock. fold (readings acts) in Hclock.
    apply (IH (last (reading a) lo) w1).
    + apply (perform_ordered host a lo w w1 Hw); [|exact Ha].
      destruct a; simpl in *; try (constructor; constructor);
        apply Sorted_inv in Hclock as [Hs Hhd]; apply HdRel_inv in Hhd;
        repeat constructor; exact Hhd.
    + destruct a; simpl in *; try exact Hclock;
        now apply Sorted_inv in Hclock as [Hs _].
Qed.

Lemma run_ordered (host : Delay.Host) (args : option ChannelArgs)
    (acts : list Action) (w : World) :
  monotone_clock acts -> run host acts (init args) = Some w ->
  exists lo, ordered lo w.
Proof.
  intros Hclock. apply (run_ordered_from host acts (hd 0 (readings acts))).
  - apply ordered_init.
  - unfold monotone_clock in Hclock. destruct (readings acts) as [|now l]; simpl.
    + repeat constructor.
    + constructor; [exact Hclock | constructor; lia].
Qed.

(** The queue is sorted whatever the clock does. *)
Lemma queue_sorted_stable : stable queue_sorted.
Proof.
  unfold queue_sorted. constructor.
  - intros w t rest res Hw _ Hq _ _. unfold register. rewrite start_spec. projections.
    rewrite Hq in Hw. now apply StronglySorted_inv in Hw.
  - intros w t rest ok res Hw _ Hq _. rewrite settled_spec, start_spec. projections.
    rewrite Hq in Hw. now apply StronglySorted_inv in Hw.
  - auto.
  - auto.
  - intros w t ok res Hw _. unfold react. now rewrite settled_spec.
  - intros w _. rewrite cancelAllChannelTasks_spec. constructor.
  - intros w f Hw.
    destruct (cancelChannelTask_cases f w) as [-> | (pre & t & post & Hq & _ & _ & ->)];
      [exact Hw|].
    rewrite sendEvent_spec. projections. unfold set_tasksInQueue. projections.
    rewrite Hq in Hw. now apply StronglySorted_remove in Hw.
Qed.

Lemma queue_sorted_enqueue (o : Options) (now : Z) (w : World) :
  queue_sorted w -> queue_sorted (enqueue o now w).
Proof.
  unfold queue_sorted. intros Hs. rewrite enqueue_spec. projections.
  destruct (sort_push sortChannelQueue precedes_trans (tasksInQueue (channel w))
              (new_task o now w) Hs) as (q1 & q2 & Hq & -> & H1 & H2).
  rewrite Hq in Hs. apply StronglySorted_insert; [exact Hs | exact H1 |].
  eapply Forall_impl; [|exact H2]. intros u. apply precedes_total.
Qed.

Lemma run_queue_sorted (host : Delay.Host) (args : option ChannelArgs)
    (acts : list Action) (w : World) :
  run host acts (init args) = Some w -> queue_sorted w.
Proof.
  apply stable_run.
  - apply queue_sorted_stable.
  - intros o now w0. apply queue_sorted_enqueue.
  - constructor.
Qed.

(** ** The results of the tasks *)

Lemma keeps_refl (w : World) : keeps (resolved w) w.
Proof. exists []. now rewrite app_nil_r. Qed.

Lemma keeps_app (base l : list (nat * ChannelTaskResult)) (w w' : World) :
  keeps base w -> resolved w' = resolved w ++ l -> keeps base w'.
Proof.
  intros [more Hw] Hw'. exists (more ++ l). now rewrite Hw', Hw, app_assoc.
Qed.

Lemma keeps_same (base : list (nat * ChannelTaskResult)) (w w' : World) :
  keeps base w -> resolved w' = resolved w -> keeps base w'.
Proof. intros Hw H. apply (keeps_app base [] w); [exact Hw | now rewrite app_nil_r]. Qed.

Lemma keeps_stable (base : list (nat * ChannelTaskResult)) : stable (keeps base).
Proof.
  constructor.
  - intros w t rest res Hw _ _ _ _. unfold register.
    eapply keeps_same; [exact Hw|]. rewrite start_spec. reflexivity.
  - intros w t rest ok res Hw _ _ _.
    eapply keeps_app; [exact Hw|]. rewrite settled_spec, start_spec. reflexivity.
  - intros w Hw. exact Hw.
  - intros w n Hw _. exact Hw.
  - intros w t ok res Hw _. unfold react.
    eapply keeps_app; [exact Hw|]. rewrite settled_spec. reflexivity.
  - intros w Hw. eapply keeps_app; [exact Hw|].
    rewrite cancelAllChannelTasks_spec. reflexivity.
  - intros w f Hw.
    destruct (cancelChannelTask_cases f w) as [-> | (pre & t & post & _ & _ & _ & ->)];
      [exact Hw|].
    eapply keeps_app; [exact Hw|]. rewrite sendEvent_spec. reflexivity.
Qed.

Lemma keeps_enqueue (base : list (nat * ChannelTaskResult)) (o : Options) (now : Z)
    (w : World) :
  keeps base w -> keeps base (enqueue o now w).
Proof. intros Hw. eapply keeps_same; [exact Hw|]. now rewrite enqueue_spec. Qed.

(** A [resultPromise] that is settled stays as it is. *)
Lemma handle_keeps (tid : nat) (r : ChannelTaskResult) (w w' : World) :
  handle tid w = Fulfilled r -> keeps (resolved w) w' -> handle tid w' = Fulfilled r.
Proof.
  unfold handle. intros H [more ->]. rewrite resolutions_app.
  destruct (resolutions tid (resolved w)); [discriminate | exact H].
Qed.

Lemma handle_first (tid : nat) (r : ChannelTaskResult) (w : World)
    (rs more : list (nat * ChannelTaskResult)) :
  resolutions tid rs = [] -> resolved w = rs ++ (tid, r) :: more ->
  handle tid w = Fulfilled r.
Proof.
  unfold handle. intros Hrs ->. rewrite resolutions_app, Hrs.
  unfold resolutions. simpl. now rewrite Nat.eqb_refl.
Qed.

Lemma run_keeps (host : Delay.Host) (acts : list Action) (w w' : World) :
  run host acts w = Some w' -> keeps (resolved w) w'.
Proof.
  intros H. apply (stable_run host _ (keeps_stable (resolved w)) acts w w'); auto.
  - intros o now w0. apply keeps_enqueue.
  - apply keeps_refl.
Qed.

Lemma run_app (host : Delay.Host) (acts1 acts2 : list Action) (w w' : World) :
  run host (acts1 ++ acts2) w = Some w' ->
  exists w1, run host acts1 w = Some w1 /\ run host acts2 w1 = Some w'.
Proof.
  revert w. induction acts1 as [|a acts1 IH]; intros w; simpl.
  - intros H. now exists w.
  - destruct (perform host a w) as [w1|]; [apply IH | discriminate].
Qed.

Lemma in_event_deliveries (ev ev' : ChannelEvent) (t : ChannelTask) :
  In (ToChannel ev') (event_deliveries t ev) -> ev' = ev.
Proof.
  unfold event_deliveries. intros H. apply in_app_iff in H. destruct H as [H | H].
  - simpl in H. destruct H as [H | [H | []]]; [now injection H | discriminate].
  - destruct (observed t); simpl in H; [|destruct H].
    destruct H as [H | []]. discriminate.
Qed.

Lemma in_cancel_deliveries (ev : ChannelEvent) (q : list ChannelTask) :
  In (ToChannel ev) (flat_map (fun t => event_deliveries t (TASK_CANCELLED t)) q) ->
  exists t, ev = TASK_CANCELLED t.
Proof.
  rewrite in_flat_map. intros (t & _ & H). exists t. now apply in_event_deliveries in H.
Qed.

(** The promise of a task whose reactions wait, or that waits in the queue,
    is pending. *)
Lemma consistent_pending (w : World) (t : ChannelTask) :
  consistent w ->
  In t (tasksInQueue (channel w) ++ tasksInProgress (channel w)) ->
  resolutions (ident t) (resolved w) = [].
Proof.
  intros (_ & _ & Hst) Hin. destruct (Hst (ident t)) as (ph & obs & S).
  apply length_zero_iff_nil. rewrite (ts_resolved _ _ _ _ S).
  apply in_app_iff in Hin. destruct Hin as [Hin | Hin].
  - assert (ph = Queued) as ->; [|reflexivity].
    apply (ts_queued _ _ _ _ S). now apply in_map.
  - assert (ph = Running) as ->; [|reflexivity].
    apply (ts_running _ _ _ _ S). now apply in_map.
Qed.


Lemma not_started_event (u : ChannelTask) (ev : ChannelEvent) :
  (forall t, ev <> TASK_STARTED t) ->
  forall t, ~ In (ToChannel (TASK_STARTED t)) (event_deliveries u ev).
Proof. intros Hev t Hin. apply in_event_deliveries in Hin. now apply (Hev t). Qed.




(** ** A free slot and a waiting task have a call of [proccessChannel] due *)

(** A task that ended at once leaves the tasks in progress as they were. *)
Lemma sync_tasksInProgress (w : World) (t : ChannelTask) (rest : list ChannelTask)
    (ok : bool) (res : Value) :
  consistent w -> tasksInQueue (channel w) = t :: rest ->
  tasksInProgress (channel (settled t ok res (start t rest w))) =
  tasksInProgress (channel w).
Proof.
  intros (Hnd & _ & _) Hq. rewrite Hq in Hnd. simpl in Hnd.
  apply NoDup_cons_iff in Hnd as [Hnotin _]. rewrite map_app, in_app_iff in Hnotin.
  rewrite settled_spec, start_spec. projections. apply remove_pushed. tauto.
Qed.

(** The reaction of a task takes this task from the tasks in progress. *)
Lemma react_tasksInProgress (w : World) (t : ChannelTask) (ok : bool) (res : Value) :
  consistent w ->
  find (fun x => Nat.eqb (ident x) (ident t)) (awaiting w) = Some t ->
  exists pre post,
    tasksInProgress (channel w) = pre ++ t :: post /\
    tasksInProgress (channel (react t ok res w)) = pre ++ post.
Proof.
  intros (_ & Haw & _) Hfind.
  destruct (find_split _ _ _ Hfind) as (pre & post & Hsplit & Hpre & _).
  exists pre, post. rewrite <- Haw. split; [exact Hsplit|].
  unfold react. rewrite settled_spec. projections. unfold indexOf.
  rewrite <- Haw, Hsplit.
  now rewrite (findIndex_found _ pre post t Hpre (Nat.eqb_refl _)), splice1_at.
Qed.

Section NoStall.
Variable host : Delay.Host.

Lemma no_stall_proccessChannel_rec (n : nat) (w : World) :
  (length (tasksInQueue (channel w)) < n)%nat ->
  consistent w -> no_stall 1 w -> no_stall 0 (proccessChannel_rec host n w).
Proof.
  revert w. induction n as [|n IH]; intros w Hn Hc Hw; [lia|].
  destruct (Z_lt_dec (Z.of_nat (length (tasksInProgress (channel w))))
              (concurrency (channel w))) as [Hroom | Hfull].
  2: { rewrite proccessChannel_rec_full by exact Hfull.
       unfold no_stall, free in *. lia. }
  destruct (tasksInQueue (channel w)) as [|t rest] eqn:Hq.
  { rewrite proccessChannel_rec_empty by exact Hq.
    unfold no_stall in *. rewrite Hq. simpl. lia. }
  rewrite (proccessChannel_rec_step host n w t rest Hroom Hq).
  assert (Hsync : forall ok res,
    no_stall 0 (complete host (proccessChannel_rec host n) t ok res (start t rest w))).
  { intros ok res. rewrite complete_settled.
    pose proof (sync_tasksInProgress w t rest ok res Hc Hq) as Hip.
    assert (Hs : no_stall 1 (settled t ok res (start t rest w))).
    { unfold no_stall, free in *. rewrite Hip. rewrite Hq in Hw.
      rewrite settled_spec, start_spec. projections. simpl length in Hw. lia. }
    unfold Delay.runNextTick.
    destruct (Delay.has_requestAnimationFrame host);
      [|destruct (Delay.has_setTimeout host)].
    - unfold no_stall, free, defer in *. projections. lia.
    - unfold no_stall, free, defer in *. projections. lia.
    - apply IH; [|now apply consistent_sync | exact Hs].
      rewrite settled_queue, start_queue. simpl in Hn. lia. }
  destruct (call (task t)) as [res | e]; [|apply Hsync].
  destruct (isPromise res); [|apply Hsync].
  unfold no_stall, free in *. unfold register. rewrite start_spec. projections.
  rewrite Hq in Hw. rewrite length_app. simpl length in *. lia.
Qed.

Lemma no_stall_proccessChannel (w : World) :
  consistent w -> no_stall 1 w -> no_stall 0 (proccessChannel host w).
Proof. apply no_stall_proccessChannel_rec. lia. Qed.

Lemma no_stall_enqueue (o : Options) (now : Z) (w : World) :
  no_stall 0 w -> no_stall 1 (enqueue o now w).
Proof.
  unfold no_stall, free. rewrite enqueue_spec. projections.
  rewrite (Permutation_length (sort_perm sortChannelQueue _)), length_app.
  simpl length. lia.
Qed.

Lemma no_stall_cancelAll (w : World) :
  no_stall 0 w -> no_stall 0 (cancelAllChannelTasks w).
Proof.
  unfold no_stall, free. rewrite cancelAllChannelTasks_spec. projections.
  simpl length. lia.
Qed.

Lemma no_stall_cancelTask (f : Fn) (w : World) :
  no_stall 0 w -> no_stall 0 (cancelChannelTask f w).
Proof.
  intros Hw.
  destruct (cancelChannelTask_cases f w) as [-> | (pre & t & post & Hq & _ & _ & ->)];
    [exact Hw|].
  unfold no_stall, free in *. rewrite sendEvent_spec. projections.
  rewrite Hq in Hw. rewrite length_app in *. simpl length in Hw. lia.
Qed.

Lemma no_stall_submit (o : Options) (now : Z) (w : World) :
  consistent w -> no_stall 0 w -> no_stall 0 (fst (addTaskToChannel host o now w)).
Proof.
  intros Hc Hw. rewrite addTaskToChannel_enqueue.
  apply no_stall_proccessChannel; [now apply consistent_enqueue | now apply no_stall_enqueue].
Qed.

Lemma no_stall_perform (a : Action) (w w' : World) :
  consistent w -> no_stall 0 w -> perform host a w = Some w' -> no_stall 0 w'.
Proof.
  intros Hc Hw.
  destruct a as [o now|o now|o now| |f|tid s| ]; cbn [perform];
    try (intros H; apply Some_eq in H; subst w').
  - now apply no_stall_submit.
  - unfold addTaskToChannelExclusively.
    destruct (Nat.eqb _ 0); [now apply no_stall_submit|].
    apply no_stall_submit; [now apply consistent_cancelAll | now apply no_stall_cancelAll].
  - unfold addTaskToChannelIfEmpty.
    destruct (Nat.eqb _ 0); [now apply no_stall_submit | exact Hw].
  - now apply no_stall_cancelAll.
  - now apply no_stall_cancelTask.
  - intros H. apply settle_react in H.
    destruct H as (t & ok & res & Hfind & _ & _ & ->).
    destruct (react_tasksInProgress w t ok res Hc Hfind) as (pre & post & Hip & Hip').
    assert (Hs : no_stall 1 (react t ok res w)).
    { unfold no_stall, free in *. rewrite Hip'. rewrite Hip in Hw.
      unfold react. rewrite settled_spec. projections.
      rewrite length_app in *. simpl length in Hw. lia. }
    unfold Delay.runNextTick.
    destruct (Delay.has_requestAnimationFrame host);
      [|destruct (Delay.has_setTimeout host)].
    + unfold no_stall, free, defer in *. projections. lia.
    + unfold no_stall, free, defer in *. projections. lia.
    + apply no_stall_proccessChannel; [now apply consistent_react | exact Hs].
  - unfold tick. destruct (deferred w) as [|n] eqn:Hd; [discriminate|].
    intros H. apply Some_eq in H. subst w'.
    apply no_stall_proccessChannel; [now apply consistent_set_deferred|].
    unfold no_stall, free in *. projections. rewrite Hd in Hw. lia.
Qed.

Lemma no_stall_run (acts : list Action) (w w' : World) :
  consistent w -> no_stall 0 w -> run host acts w = Some w' -> no_stall 0 w'.
Proof.
  revert w. induction acts as [|a acts IH]; intros w Hc Hw; simpl.
  - now intros [= <-].
  - destruct (perform host a w) as [w1|] eqn:Ha; [|discriminate].
    apply IH.
    + apply (stable_perform host _ consistent_stable a w w1); auto.
      intros o now w0. apply consistent_enqueue.
    + now apply (no_stall_perform a w w1).
Qed.

Lemma run_no_stall (args : option ChannelArgs) (acts : list Action) (w : World) :
  run host acts (init args) = Some w -> no_stall 0 w.
Proof.
  apply no_stall_run; [apply consistent_init|].
  unfold no_stall, free. simpl. lia.
Qed.

End NoStall.

(** ** The sort of the queue *)

Section SortingTotal.
Context {A : Type}.
Variable cmp : A -> A -> Z.
Hypothesis cmp_trans : forall a b c, cmp a b <= 0 -> cmp b c <= 0 -> cmp a c <= 0.
Hypothesis cmp_total : forall a b, 0 < cmp a b -> cmp b a <= 0.

Lemma sort_insert_sorted (x : A) (l : list A) :
  StronglySorted (fun a b => cmp a b <= 0) l ->
  StronglySorted (fun a b => cmp a b <= 0) (sort_insert cmp x l).
Proof.
  induction l as [|y l IH]; intros Hs; simpl.
  - repeat constructor.
  - apply StronglySorted_inv in Hs as [Hs Hy].
    destruct (Z.leb_spec (cmp x y) 0) as [Hle | Hgt].
    + constructor; [now constructor|].
      constructor; [exact Hle|].
      eapply Forall_impl; [|exact Hy]. cbv beta. intros z Hz. now apply (cmp_trans x y z).
    + constructor; [now apply IH|].
      eapply Permutation_Forall; [symmetry; apply sort_insert_perm|].
      constructor; [now apply cmp_total | exact Hy].
Qed.

Lemma sort_sorted (l : list A) :
  StronglySorted (fun a b => cmp a b <= 0) (sort cmp l).
Proof.
  induction l as [|x l IH]; simpl; [constructor|].
  now apply sort_insert_sorted.
Qed.

End SortingTotal.

(** The sort of the queue gives a sorted array with the same tasks, and
    tasks with the same priority and the same time of request keep their
    order: it is the stable sort by [sortChannelQueue]. *)
Lemma sort_queue_sorted (l : list ChannelTask) :
  StronglySorted precedes (sort sortChannelQueue l).
Proof.
  apply sort_sorted; [apply precedes_trans | apply precedes_total].
Qed.

Lemma same_key_order (x a y : ChannelTask) :
  same_key x a = true -> same_key x y = true -> sortChannelQueue a y <= 0.
Proof.
  unfold same_key, sortChannelQueue. rewrite !andb_true_iff, !Z.eqb_eq.
  intros [Hp Hr] [Hp' Hr'].
  destruct (Z.eqb_spec (priority a) (priority y)); lia.
Qed.

Lemma sort_insert_stable (x a : ChannelTask) (l : list ChannelTask) :
  filter (same_key x) (sort_insert sortChannelQueue a l) =
  filter (same_key x) (a :: l).
Proof.
  induction l as [|y l IH]; [reflexivity|].
  cbn [sort_insert].
  destruct (Z.leb_spec (sortChannelQueue a y) 0) as [Hle | Hgt]; [reflexivity|].
  cbn [filter] in *. rewrite IH.
  destruct (same_key x a) eqn:Ea, (same_key x y) eqn:Ey; try reflexivity.
  pose proof (same_key_order x a y Ea Ey). lia.
Qed.

Lemma sort_queue_stable (x : ChannelTask) (l : list ChannelTask) :
  filter (same_key x) (sort sortChannelQueue l) = filter (same_key x) l.
Proof.
  induction l as [|a l IH]; [reflexivity|].
  unfold sort in *. cbn [fold_right]. rewrite sort_insert_stable.
  cbn [filter]. now rewrite IH.
Qed.

(** ** The tests of the repository *)

(** "addTaskToChannelExclusively() cancels any existing tasks in the
    queue": the results are a success with 1, a cancellation and a success
    with 3. *)
Example test_exclusive_results :
  option_map (fun w => (handle 0 w, handle 1 w, handle 2 w))
    (run node exclusive_run (init (limit 1))) =
  Some (Fulfilled (success (VNum 1)), Fulfilled cancelation,
        Fulfilled (success (VNum 3))).
Proof. vm_compute. reflexivity. Qed.

(** "calls event handlers correctly". *)
Example test_event_handlers :
  option_map (fun w => (channel_events (delivered w), options_events 1 (delivered w)))
    (run node exclusive_run (init (limit 1))) =
  Some (["TASK_ADDED"; "TASK_STARTED"; "TASK_ADDED"; "CANCELLED_ALL_TASKS";
         "TASK_CANCELLED"; "TASK_ADDED"; "TASK_COMPLETED"; "TASK_STARTED";
         "TASK_COMPLETED"]%string,
        ["TASK_ADDED"; "TASK_CANCELLED"]%string).
Proof. vm_compute. reflexivity. Qed.

(** "catches errors in task and returns them in result". *)
Example test_catches_errors :
  option_map (handle 0) (run node rejected_run (init (limit 1))) =
  Some (Fulfilled (failure (VStr "Error 1"))).
Proof. vm_compute. reflexivity. Qed.

(** "executes syncronous tasks in order". *)
Example test_synchronous_order :
  option_map (fun w => map ident (started_tasks (delivered w)))
    (run node pushes_run (init (limit 1))) =
  Some [0; 1; 2]%nat.
Proof. vm_compute. reflexivity. Qed.

(** The same on a host without [requestAnimationFrame] and [setTimeout],
    where [runNextTick] calls [proccessChannel] at once. *)
Example test_synchronous_order_bare :
  option_map (fun w => (map ident (started_tasks (delivered w)), deferred w))
    (run bare pushes_run (init (limit 1))) =
  Some ([0; 1; 2]%nat, 0%nat).
Proof. vm_compute. reflexivity. Qed.

(** ** The worlds of the examples and the steps of a run *)

Lemma busy_world_run : run node busy_run (init (limit 1)) = Some busy_world.
Proof. vm_compute. reflexivity. Qed.

Lemma failing_world_run : run node failing_run (init (limit 1)) = Some failing_world.
Proof. vm_compute. reflexivity. Qed.

Lemma extends_in (base : list Delivery) (w : World) (d : Delivery) :
  extends base w -> In d base -> In d (delivered w).
Proof. intros [more ->] H. apply in_app_iff. now left. Qed.

Lemma extends_enqueue (base : list Delivery) (o : Options) (now : Z) (w : World) :
  extends base w -> extends base (enqueue o now w).
Proof. intros Hw. eapply extends_app; [exact Hw|]. now rewrite enqueue_spec. Qed.

Lemma run_extends (host : Delay.Host) (acts : list Action) (w w' : World) :
  run host acts w = Some w' -> extends (delivered w) w'.
Proof.
  intros H. apply (stable_run host _ (extends_stable (delivered w)) acts w w'); auto.
  - intros o now w0. apply extends_enqueue.
  - apply extends_refl.
Qed.

(** The reaction to a rejected promise resolves the [resultPromise] of the
    task with the reason as the error. *)
Lemma settle_rejects (host : Delay.Host) (tid : nat) (e : Value) (w w' : World) :
  consistent w -> settle host tid (Rejects e) w = Some w' ->
  handle tid w' = Fulfilled (failure e) /\
  exists t, ident t = tid /\
    In (ToChannel (TASK_COMPLETED t false true e)) (delivered w').
Proof.
  intros Hc H. apply settle_react in H.
  destruct H as (t & ok & res & Hfind & Hid & Hs & ->).
  destruct ok; [discriminate|]. injection Hs as <-. subst tid.
  assert (Hin : In t (tasksInQueue (channel w) ++ tasksInProgress (channel w))).
  { apply in_app_iff. right. destruct Hc as (_ & <- & _).
    now apply find_some in Hfind. }
  assert (Hh : handle (ident t) (react t false e w) = Fulfilled (failure e)).
  { apply (handle_first _ _ _ (resolved w) []).
    - now apply consistent_pending.
    - unfold react. rewrite settled_spec. reflexivity. }
  split.
  - apply (handle_keeps _ _ (react t false e w)); [exact Hh|].
    apply stable_runNextTick.
    + apply keeps_stable.
    + apply stable_proccessChannel, keeps_stable.
    + apply keeps_refl.
  - exists t. split; [reflexivity|].
    apply (extends_in (delivered (react t false e w))).
    + apply stable_runNextTick.
      * apply extends_stable.
      * apply stable_proccessChannel, extends_stable.
      * apply extends_refl.
    + unfold react. rewrite settled_spec. projections.
      apply in_app_iff. right. unfold event_deliveries. now left.
Qed.

Lemma thenable_world_run : run node thenable_run (init None) = Some thenable_world.
Proof. vm_compute. reflexivity. Qed.

Lemma isPromise_methods (v : Value) :
  isPromise v = true ->
  typeof v = TyObject /\ v <> VNull /\
  has_method "then" v = true /\ has_method "catch" v = true.
Proof.
  unfold isPromise, has_method. rewrite !andb_true_iff.
  intros (((((Hty & Hnull) & Hthen) & Hcatch) & Hfthen) & Hfcatch).
  repeat split; auto.
  - now destruct (typeof v).
  - intros ->. discriminate.
Qed.

(** ** The promises are resolved with the results of the events *)

Lemma agree_app (ds ds' : list Delivery) (rs rs' : list (nat * ChannelTaskResult)) :
  agree ds rs -> agree ds' rs' -> agree (ds ++ ds') (rs ++ rs').
Proof.
  intros H H' tid. unfold outcome_view. rewrite resolutions_app, flat_map_app.
  now rewrite (H tid), (H' tid).
Qed.

Lemma agree_event (t : ChannelTask) (ev : ChannelEvent) :
  (forall tid, about tid ev = Nat.eqb (ident t) tid) ->
  agree (event_deliveries t ev) (event_resolutions t ev).
Proof.
  intros Habout tid. unfold event_deliveries, outcome_view.
  rewrite flat_map_app. cbn [flat_map]. rewrite Habout.
  assert (Hrest : flat_map (fun d => match d with
                     | ToChannel ev0 => if about tid ev0 then event_result ev0 else []
                     | _ => []
                     end) (if observed t then [ToOptions (ident t) ev] else []) = []).
  { now destruct (observed t). }
  rewrite Hrest, !app_nil_r.
  destruct ev as [|u|u ok err res|u|u]; cbn [event_resolutions event_result];
    rewrite ?resolutions_one; now destruct (Nat.eqb (ident t) tid).
Qed.

Lemma agree_cancel (q : list ChannelTask) :
  agree (flat_map (fun t => event_deliveries t (TASK_CANCELLED t)) q)
        (map (fun t => (ident t, cancelation)) q).
Proof.
  induction q as [|t q IH]; [intros tid; reflexivity|].
  cbn [flat_map map].
  change ((ident t, cancelation) :: map (fun t0 => (ident t0, cancelation)) q)
    with (event_resolutions t (TASK_CANCELLED t) ++
          map (fun t0 => (ident t0, cancelation)) q).
  apply agree_app; [|exact IH]. now apply agree_event.
Qed.

Lemma agree_silent (ds ds' : list Delivery) (rs : list (nat * ChannelTaskResult)) :
  agree ds rs -> agree ds' [] -> agree (ds ++ ds') rs.
Proof. intros H H'. rewrite <- (app_nil_r rs). now apply agree_app. Qed.

Lemma agrees_stable : stable agrees.
Proof.
  unfold agrees. constructor.
  - intros w t rest res Hw _ _ _ _. unfold register. rewrite start_spec. projections.
    apply agree_silent; [exact Hw | now apply (agree_event t (TASK_STARTED t))].
  - intros w t rest ok res Hw _ _ _. rewrite settled_spec, start_spec. projections.
    apply agree_app; [|now apply (agree_event t (TASK_COMPLETED t ok (negb ok) res))].
    apply agree_silent; [exact Hw | now apply (agree_event t (TASK_STARTED t))].
  - intros w Hw. exact Hw.
  - intros w n Hw _. exact Hw.
  - intros w t ok res Hw _. unfold react. rewrite settled_spec. projections.
    apply agree_app; [exact Hw|].
    now apply (agree_event t (TASK_COMPLETED t ok (negb ok) res)).
  - intros w Hw. rewrite cancelAllChannelTasks_spec. projections.
    apply agree_app; [exact Hw|].
    change (ToChannel CANCELLED_ALL_TASKS ::
            flat_map (fun t => event_deliveries t (TASK_CANCELLED t))
              (tasksInQueue (channel w)))
      with ([ToChannel CANCELLED_ALL_TASKS] ++
            flat_map (fun t => event_deliveries t (TASK_CANCELLED t))
              (tasksInQueue (channel w))).
    change (map (fun t => (ident t, cancelation)) (tasksInQueue (channel w)))
      with ([] ++ map (fun t => (ident t, cancelation)) (tasksInQueue (channel w))).
    apply agree_app; [intros tid; reflexivity | apply agree_cancel].
  - intros w f Hw.
    destruct (cancelChannelTask_cases f w) as [-> | (pre & t & post & _ & _ & _ & ->)];
      [exact Hw|].
    rewrite sendEvent_spec. projections.
    apply agree_app; [exact Hw | now apply agree_event].
Qed.

Lemma agrees_enqueue (o : Options) (now : Z) (w : World) :
  agrees w -> agrees (enqueue o now w).
Proof.
  unfold agrees. intros Hw. rewrite enqueue_spec. projections.
  apply agree_silent; [exact Hw|].
  now apply (agree_event (new_task o now w) (TASK_ADDED (new_task o now w))).
Qed.

Lemma run_agrees (host : Delay.Host) (args : option ChannelArgs)
    (acts : list Action) (w : World) :
  run host acts (init args) = Some w -> agrees w.
Proof.
  apply stable_run.
  - apply agrees_stable.
  - intros o now w0. apply agrees_enqueue.
  - intros tid. reflexivity.
Qed.

(** ** The splice of [removeTaskFromInProgress] *)

(** Were the task not among the tasks in progress, [indexOf] would give -1
    and the splice would take the last task in progress. *)
Lemma removeTaskFromInProgress_absent (t x : ChannelTask) (l : list ChannelTask)
    (w : World) :
  tasksInProgress (channel w) = l ++ [x] ->
  ~ In (ident t) (map ident (l ++ [x])) ->
  tasksInProgress (channel (removeTaskFromInProgress t w)) = l.
Proof.
  intros Hip Hnotin. unfold removeTaskFromInProgress. projections.
  rewrite Hip. unfold indexOf, findIndex.
  rewrite (findIndex_from_none _ _ 0 (not_in_idents _ _ Hnotin)).
  now rewrite splice1_minus_one.
Qed.

(** In a run this does not happen: the task whose reaction runs is among the
    tasks in progress, and [indexOf] finds it. *)
Lemma indexOf_awaiting (host : Delay.Host) (args : option ChannelArgs)
    (acts : list Action) (w : World) (t : ChannelTask) :
  run host acts (init args) = Some w -> In t (awaiting w) ->
  0 <= indexOf t (tasksInProgress (channel w)) <
  Z.of_nat (length (tasksInProgress (channel w))).
Proof.
  intros Hrun Hin. destruct (run_consistent host args acts w Hrun) as (_ & Haw & _).
  rewrite <- Haw.
  destruct (first_match (fun x => Nat.eqb (ident x) (ident t)) (awaiting w))
    as [Hnone | (pre & x & post & Hsplit & Hpre & Hx)].
  - rewrite Forall_forall in Hnone. specialize (Hnone t Hin).
    now rewrite Nat.eqb_refl in Hnone.
  - unfold indexOf. rewrite Hsplit, (findIndex_found _ pre post x Hpre Hx).
    rewrite length_app. simpl length. lia.
Qed.

(** ** The results of the tasks that succeed *)

Lemma outcome_functional (c : Completion) (ok ok' : bool) (res res' : Value) :
  outcome c ok res -> outcome c ok' res' -> ok = ok' /\ res = res'.
Proof.
  destruct c as [v | e]; simpl.
  - intros (-> & -> & _) (-> & -> & _). now split.
  - intros (-> & ->) (-> & ->). now split.
Qed.

Lemma finished_grow (w w' : World) (l : list Delivery)
    (rs : list (nat * ChannelTaskResult)) :
  finished w -> delivered w' = delivered w ++ l -> resolved w' = resolved w ++ rs ->
  (forall t, ~ In (ToChannel (TASK_STARTED t)) l) -> finished w'.
Proof.
  intros Hw Hd Hr Hl t ok res Hin Hout. rewrite Hd in *.
  apply in_app_iff in Hin. destruct Hin as [Hin | Hin]; [|now apply Hl in Hin].
  destruct (Hw t ok res Hin Hout) as [Hh Hc]. split.
  - apply (handle_keeps _ _ w); [exact Hh | now exists rs].
  - apply in_app_iff. now left.
Qed.

Lemma consistent_finished_stable : stable (fun w => consistent w /\ finished w).
Proof.
  constructor.
  - intros w t rest res [Hc Hw] Hroom Hq Hcall Hres.
    split; [now apply consistent_async|].
    intros t' ok' res' Hin Hout. unfold register in *. rewrite start_spec in *.
    unfold handle in *. projections. projections_in Hin.
    apply in_app_iff in Hin. destruct Hin as [Hin | Hin].
    + destruct (Hw t' ok' res' Hin Hout) as [Hh Hcompl].
      split; [exact Hh | apply in_app_iff; now left].
    + apply in_event_deliveries in Hin. injection Hin as ->.
      rewrite Hcall in Hout. destruct Hout as (_ & -> & Hno). congruence.
  - intros w t rest ok res [Hc Hw] Hroom Hq Hout.
    split; [now apply consistent_sync|].
    intros t' ok' res' Hin Hout'. rewrite settled_spec, start_spec in *.
    projections. projections_in Hin.
    rewrite !in_app_iff in Hin. destruct Hin as [[Hin | Hin] | Hin].
    + destruct (Hw t' ok' res' Hin Hout') as [Hh Hcompl]. split.
      * apply (handle_keeps _ _ w); [exact Hh|]. eexists. reflexivity.
      * rewrite !in_app_iff. auto.
    + apply in_event_deliveries in Hin. injection Hin as ->.
      destruct (outcome_functional _ _ _ _ _ Hout Hout') as [<- <-]. split.
      * apply (handle_first _ _ _ (resolved w) []); [|reflexivity].
        apply consistent_pending; [exact Hc|]. rewrite Hq. now left.
      * apply in_app_iff. right. unfold event_deliveries. now left.
    + apply in_event_deliveries in Hin. discriminate.
  - intros w [Hc Hw]. split; [now apply consistent_set_deferred | exact Hw].
  - intros w n [Hc Hw] _. split; [now apply consistent_set_deferred | exact Hw].
  - intros w t ok res [Hc Hw] Hfind. split; [now apply consistent_react|].
    unfold react. eapply (finished_grow _ _ _ _ Hw).
    + rewrite settled_spec. reflexivity.
    + rewrite settled_spec. reflexivity.
    + now apply not_started_event.
  - intros w [Hc Hw]. split; [now apply consistent_cancelAll|].
    eapply (finished_grow w); [exact Hw | | |].
    + rewrite cancelAllChannelTasks_spec. reflexivity.
    + rewrite cancelAllChannelTasks_spec. reflexivity.
    + intros t [Hin | Hin]; [discriminate|].
      apply in_cancel_deliveries in Hin. destruct Hin as [u Hin]. discriminate.
  - intros w f [Hc Hw]. split; [now apply consistent_cancelTask|].
    destruct (cancelChannelTask_cases f w) as [-> | (pre & t & post & _ & _ & _ & ->)];
      [exact Hw|].
    eapply (finished_grow w); [exact Hw | | |].
    + rewrite sendEvent_spec. reflexivity.
    + rewrite sendEvent_spec. reflexivity.
    + now apply not_started_event.
Qed.

Lemma run_finished (host : Delay.Host) (args : option ChannelArgs)
    (acts : list Action) (w : World) :
  run host acts (init args) = Some w -> finished w.
Proof.
  intros H.
  apply (stable_run host _ consistent_finished_stable acts (init args) w); auto.
  - intros o now w0 [Hc Hw]. split; [now apply consistent_enqueue|].
    eapply (finished_grow w0); [exact Hw | | |].
    + rewrite enqueue_spec. reflexivity.
    + rewrite enqueue_spec. projections. now rewrite app_nil_r.
    + now apply not_started_event.
  - split; [apply consistent_init | intros t ok res []].
Qed.

(** The reaction to a fulfilled promise resolves the [resultPromise] of the
    task with the value as the result. *)
Lemma settle_fulfils (host : Delay.Host) (tid : nat) (v : Value) (w w' : World) :
  consistent w -> settle host tid (Fulfils v) w = Some w' ->
  handle tid w' = Fulfilled (success v) /\
  exists t, ident t = tid /\
    In (ToChannel (TASK_COMPLETED t true false v)) (delivered w').
Proof.
  intros Hc H. apply settle_react in H.
  destruct H as (t & ok & res & Hfind & Hid & Hs & ->).
  destruct ok; [|discriminate]. injection Hs as <-. subst tid.
  assert (Hin : In t (tasksInQueue (channel w) ++ tasksInProgress (channel w))).
  { apply in_app_iff. right. destruct Hc as (_ & <- & _).
    now apply find_some in Hfind. }
  assert (Hh : handle (ident t) (react t true v w) = Fulfilled (success v)).
  { apply (handle_first _ _ _ (resolved w) []).
    - now apply consistent_pending.
    - unfold react. rewrite settled_spec. reflexivity. }
  split.
  - apply (handle_keeps _ _ (react t true v w)); [exact Hh|].
    apply stable_runNextTick.
    + apply keeps_stable.
    + apply stable_proccessChannel, keeps_stable.
    + apply keeps_refl.
  - exists t. split; [reflexivity|].
    apply (extends_in (delivered (react t true v w))).
    + apply stable_runNextTick.
      * apply extends_stable.
      * apply stable_proccessChannel, extends_stable.
      * apply extends_refl.
    + unfold react. rewrite settled_spec. projections.
      apply in_app_iff. right. unfold event_deliveries. now left.
Qed.

(** ** The end of a task *)

Lemma completed_in_view (t : ChannelTask) (ok err : bool) (res : Value)
    (ds : list Delivery) :
  In (ToChannel (TASK_COMPLETED t ok err res)) ds ->
  In Completed (channel_view (ident t) ds).
Proof.
  intros H. unfold channel_view. apply in_flat_map.
  exists (ToChannel (TASK_COMPLETED t ok err res)). split; [exact H|].
  simpl. rewrite Nat.eqb_refl. now left.
Qed.

Lemma cancelled_in_view (t : ChannelTask) (ds : list Delivery) :
  In (ToChannel (TASK_CANCELLED t)) ds ->
  In Cancelled (channel_view (ident t) ds).
Proof.
  intros H. unfold channel_view. apply in_flat_map.
  exists (ToChannel (TASK_CANCELLED t)). split; [exact H|].
  simpl. rewrite Nat.eqb_refl. now left.
Qed.

(** Without TASK_COMPLETED the results of the events about a task are one
    cancelation for every TASK_CANCELLED. *)
Lemma outcome_view_cancelled (tid : nat) (ds : list Delivery) :
  ~ In Completed (channel_view tid ds) ->
  outcome_view tid ds =
  flat_map (fun k => match k with Cancelled => [cancelation] | _ => [] end)
    (channel_view tid ds).
Proof.
  induction ds as [|d ds IH]; [reflexivity|].
  unfold channel_view, outcome_view in *. cbn [flat_map].
  intros Hno. rewrite in_app_iff in Hno. rewrite flat_map_app, IH by tauto.
  f_equal. destruct d as [ev | k ev | k ev]; try reflexivity.
  destruct (about tid ev); [|reflexivity].
  destruct ev; try reflexivity. exfalso. apply Hno. left. simpl. now left.
Qed.

(** A task with TASK_COMPLETED has had its three events, and its promise
    has been resolved once. *)
Lemma completed_task (w : World) (tid : nat) (r : ChannelTaskResult) :
  consistent w -> In Completed (channel_view tid (delivered w)) ->
  handle tid w = Fulfilled r ->
  channel_view tid (delivered w) = [Added; Started; Completed] /\
  task_view tid (delivered w) = [Added; Started; Completed] /\
  resolutions tid (resolved w) = [r].
Proof.
  intros (_ & _ & Hst) Hin Hh. destruct (Hst tid) as (ph & obs & S).
  pose proof (ts_resolved _ _ _ _ S) as Hlen.
  rewrite (ts_channel _ _ _ _ S) in *. rewrite (ts_task _ _ _ _ S).
  destruct ph; simpl in Hin; try (exfalso; intuition discriminate).
  split; [reflexivity|]. split; [reflexivity|].
  unfold handle in Hh.
  destruct (resolutions tid (resolved w)) as [|r' [|r'' l]]; try discriminate.
  now injection Hh as ->.
Qed.

(** A task with TASK_CANCELLED has had TASK_ADDED before and no other event,
    and its promise has been resolved once, as cancelled. *)
Lemma cancelled_task (w : World) (tid : nat) :
  consistent w -> agrees w -> In Cancelled (channel_view tid (delivered w)) ->
  channel_view tid (delivered w) = [Added; Cancelled] /\
  task_view tid (delivered w) = [Added; Cancelled] /\
  resolutions tid (resolved w) = [cancelation].
Proof.
  intros (_ & _ & Hst) Ha Hin. destruct (Hst tid) as (ph & obs & S).
  rewrite (Ha tid), outcome_view_cancelled.
  - rewrite (ts_channel _ _ _ _ S) in *. rewrite (ts_task _ _ _ _ S).
    destruct ph; simpl in Hin; try (exfalso; intuition discriminate).
    repeat split.
  - rewrite (ts_channel _ _ _ _ S) in *.
    destruct ph; simpl in *; intuition discriminate.
Qed.

(** The reaction of a settled promise completes its task. *)
Lemma settle_completes (host : Delay.Host) (tid : nat) (s : Settlement)
    (w w' : World) :
  consistent w -> settle host tid s w = Some w' ->
  handle tid w' =
    Fulfilled (match s with Fulfils v => success v | Rejects e => failure e end) /\
  In Completed (channel_view tid (delivered w')).
Proof.
  intros Hc H. destruct s as [v | e].
  - destruct (settle_fulfils host tid v w w' Hc H) as (Hh & t & <- & Hin).
    split; [exact Hh | now apply completed_in_view in Hin].
  - destruct (settle_rejects host tid e w w' Hc H) as (Hh & t & <- & Hin).
    split; [exact Hh | now apply completed_in_view in Hin].
Qed.

(** What was sent about a task stays in its view. *)
Lemma view_extends (tid : nat) (k : Kind) (w w' : World) :
  extends (delivered w) w' ->
  In k (channel_view tid (delivered w)) -> In k (channel_view tid (delivered w')).
Proof.
  intros [more ->] H. unfold channel_view. rewrite flat_map_app.
  apply in_app_iff. now left.
Qed.

(** Every task of the queue gets TASK_CANCELLED from
    [cancelAllChannelTasks]. *)
Lemma cancelAllChannelTasks_view (tid : nat) (w : World) :
  In tid (map ident (tasksInQueue (channel w))) ->
  In Cancelled (channel_view tid (delivered (cancelAllChannelTasks w))).
Proof.
  intros Hin. apply in_map_iff in Hin. destruct Hin as (t & <- & Hin).
  apply cancelled_in_view. rewrite cancelAllChannelTasks_spec. projections.
  apply in_app_iff. right. right. apply in_flat_map.
  exists t. split; [exact Hin|]. unfold event_deliveries. now left.
Qed.

(** ** The end of a run *)

Lemma run_chain (host : Delay.Host) (acts1 acts2 : list Action) (w w1 w2 : World) :
  run host acts1 w = Some w1 -> run host acts2 w1 = Some w2 ->
  run host (acts1 ++ acts2) w = Some w2.
Proof.
  revert w. induction acts1 as [|a acts1 IH]; intros w; simpl.
  - now intros [= ->].
  - destruct (perform host a w) as [w'|]; [apply IH | discriminate].
Qed.

(** A task that has left the queue and the tasks in progress has had one
    terminal event and one resolution. *)
Lemma consistent_gone (w : World) (tid : nat) :
  consistent w -> (tid < allocated w)%nat ->
  ~ In tid (map ident (tasksInQueue (channel w))) ->
  ~ In tid (map ident (tasksInProgress (channel w))) ->
  (channel_view tid (delivered w) = [Added; Started; Completed] \/
   channel_view tid (delivered w) = [Added; Cancelled]) /\
  length (resolutions tid (resolved w)) = 1%nat.
Proof.
  intros (_ & _ & Hst) Hlt Hq Hp. destruct (Hst tid) as (ph & obs & S).
  rewrite (ts_channel _ _ _ _ S), (ts_resolved _ _ _ _ S).
  destruct ph; simpl; auto; exfalso.
  - assert (Hu : (allocated w <= tid)%nat) by now apply (ts_unborn _ _ _ _ S). lia.
  - now apply Hq, (ts_queued _ _ _ _ S).
  - now apply Hp, (ts_running _ _ _ _ S).
Qed.

(** The jobs of the host change neither the concurrency nor the number of
    the tasks that were built. *)
Lemma shape_stable (c : Z) (a : nat) :
  stable (fun w => concurrency (channel w) = c /\ allocated w = a).
Proof.
  constructor.
  - intros w t rest res H _ _ _ _. unfold register. now rewrite start_spec.
  - intros w t rest ok res H _ _ _. now rewrite settled_spec, start_spec.
  - intros w H. exact H.
  - intros w n H _. exact H.
  - intros w t ok res H _. unfold react. now rewrite settled_spec.
  - intros w H. now rewrite cancelAllChannelTasks_spec.
  - intros w f H.
    destruct (cancelChannelTask_cases f w) as [-> | (pre & t & post & _ & _ & _ & ->)];
      [exact H | now rewrite sendEvent_spec].
Qed.

(** [proccessChannel] adds nothing to the work that is left. *)
Lemma pending_work_proccessChannel_rec (host : Delay.Host) (n : nat) (w : World) :
  (pending_work (proccessChannel_rec host n w) <= pending_work w)%nat.
Proof.
  revert w. induction n as [|n IH]; intros w; [apply Nat.le_refl|].
  destruct (Z_lt_dec (Z.of_nat (length (tasksInProgress (channel w))))
              (concurrency (channel w))) as [Hroom | Hfull].
  2: { rewrite proccessChannel_rec_full by exact Hfull. apply Nat.le_refl. }
  destruct (tasksInQueue (channel w)) as [|t rest] eqn:Hq.
  { rewrite proccessChannel_rec_empty by exact Hq. apply Nat.le_refl. }
  rewrite (proccessChannel_rec_step host n w t rest Hroom Hq).
  assert (Hs : forall ok res,
    (pending_work (settled t ok res (start t rest w)) + 3 = pending_work w)%nat).
  { intros ok res. unfold pending_work. rewrite settled_spec, start_spec. projections.
    rewrite pushed_removed_length, Hq. cbn [length]. lia. }
  assert (Hsync : forall ok res,
    (pending_work (complete host (proccessChannel_rec host n) t ok res (start t rest w))
     <= pending_work w)%nat).
  { intros ok res. rewrite complete_settled. specialize (Hs ok res).
    specialize (IH (settled t ok res (start t rest w))).
    assert (Hdefer : (pending_work (defer (settled t ok res (start t rest w))) =
                      S (pending_work (settled t ok res (start t rest w))))%nat).
    { unfold pending_work, defer. projections. lia. }
    unfold Delay.runNextTick.
    destruct (Delay.has_requestAnimationFrame host); [lia|].
    destruct (Delay.has_setTimeout host); lia. }
  destruct (call (task t)) as [v | e]; [destruct (isPromise v)|]; try apply Hsync.
  unfold register, pending_work. rewrite start_spec. projections.
  rewrite Hq, length_app. cbn [length]. lia.
Qed.

Lemma pending_work_runNextTick (host : Delay.Host) (w : World) :
  (pending_work (Delay.runNextTick host defer defer (proccessChannel host) w)
   <= S (pending_work w))%nat.
Proof.
  assert (Hdefer : pending_work (defer w) = S (pending_work w)).
  { unfold pending_work, defer. projections. lia. }
  pose proof (pending_work_proccessChannel_rec host
                (S (length (tasksInQueue (channel w)))) w) as Hrec.
  unfold Delay.runNextTick, proccessChannel.
  destruct (Delay.has_requestAnimationFrame host); [lia|].
  destruct (Delay.has_setTimeout host); lia.
Qed.

(** When the promises that are awaited settle and the callbacks that are
    due run, the channel comes to rest with nothing left in it. *)
Lemma run_can_end (host : Delay.Host) (args : option ChannelArgs) (n : nat) :
  forall (acts : list Action) (w : World),
    run host acts (init args) = Some w ->
    (pending_work w <= n)%nat -> 0 < concurrency (channel w) ->
    exists more w',
      run host more w = Some w' /\
      Forall (fun a => host_job a = true) more /\
      tasksInQueue (channel w') = [] /\
      tasksInProgress (channel w') = [] /\
      allocated w' = allocated w.
Proof.
  induction n as [|n IH]; intros acts w Hrun Hn Hpos.
  - exists [], w. unfold pending_work in Hn.
    destruct (tasksInQueue (channel w)), (tasksInProgress (channel w));
      cbn [length] in Hn; try lia.
    repeat split; constructor.
  - pose proof (run_consistent host args acts w Hrun) as Hc.
    pose proof (run_no_stall host args acts w Hrun) as Hns.
    assert (Hnext : forall a w2,
      host_job a = true -> perform host a w = Some w2 ->
      (pending_work w2 <= n)%nat ->
      concurrency (channel w2) = concurrency (channel w) /\ allocated w2 = allocated w ->
      exists more w',
        run host more w = Some w' /\
        Forall (fun a => host_job a = true) more /\
        tasksInQueue (channel w') = [] /\
        tasksInProgress (channel w') = [] /\
        allocated w' = allocated w).
    { intros a w2 Hjob Hp Hm [Hconc Hall].
      assert (Hrun2 : run host (acts ++ [a]) (init args) = Some w2).
      { apply (run_chain host acts [a] _ w); [exact Hrun|].
        cbn [run]. now rewrite Hp. }
      destruct (IH (acts ++ [a]) w2 Hrun2 Hm) as (more & w' & Hmore & Hjobs & Hq & Hip & Ha).
      { now rewrite Hconc. }
      exists (a :: more), w'. cbn [run]. rewrite Hp.
      split; [exact Hmore|]. split; [now constructor|].
      split; [exact Hq|]. split; [exact Hip|]. now rewrite Ha. }
    destruct Hc as (Hnd & Haw & Hst).
    assert (Hc : consistent w) by (repeat split; assumption).
    destruct (awaiting w) as [|t l] eqn:Hawait.
    + destruct (deferred w) as [|d] eqn:Hd.
      * exists [], w. unfold no_stall, free in Hns. rewrite <- Haw, Hd in Hns.
        cbn [length] in Hns.
        destruct (tasksInQueue (channel w)) as [|u q]; [|cbn [length] in Hns; lia].
        repeat split; auto.
      * apply (Hnext Tick (proccessChannel host (set_deferred d w))).
        -- reflexivity.
        -- cbn [perform]. unfold tick. now rewrite Hd.
        -- pose proof (pending_work_proccessChannel_rec host
                        (S (length (tasksInQueue (channel (set_deferred d w)))))
                        (set_deferred d w)) as Hrec.
           unfold proccessChannel.
           assert (Hless : S (pending_work (set_deferred d w)) = pending_work w).
           { unfold pending_work. projections. rewrite Hd. lia. }
           lia.
        -- apply (stable_proccessChannel host _ (shape_stable _ _)). now split.
    + destruct (settle host (ident t) (Fulfils VUndefined) w) as [w2|] eqn:Hsettle.
      2: { unfold settle in Hsettle. rewrite Hawait in Hsettle. cbn [find] in Hsettle.
           rewrite Nat.eqb_refl in Hsettle. discriminate. }
      apply (Hnext (Settle (ident t) (Fulfils VUndefined)) w2).
      * reflexivity.
      * exact Hsettle.
      * pose proof Hsettle as Hreact. apply settle_react in Hreact.
        destruct Hreact as (t' & ok & res & Hfind & _ & _ & ->).
        destruct (react_tasksInProgress w t' ok res Hc Hfind)
          as (pre & post & Hip & Hip').
        assert (Hq' : tasksInQueue (channel (react t' ok res w)) =
                      tasksInQueue (channel w)).
        { unfold react. now rewrite settled_spec. }
        assert (Hd' : deferred (react t' ok res w) = deferred w).
        { unfold react. now rewrite settled_spec. }
        pose proof (pending_work_runNextTick host (react t' ok res w)) as Hrun'.
        assert (Hless : (pending_work (react t' ok res w) + 2 = pending_work w)%nat).
        { unfold pending_work. rewrite Hq', Hd', Hip', Hip, !length_app.
          cbn [length]. lia. }
        lia.
      * apply (stable_settle host _ (shape_stable _ _) (ident t) (Fulfils VUndefined) w);
          [now split | exact Hsettle].
Qed.

(** ** The properties of the channel *)

(** C1 as the specification states it does not hold: on a channel that has
    just been created, whose queue is empty, [cancelAllChannelTasks] calls
    the handler of the channel with CANCELLED_ALL_TASKS. *)
Lemma cancelAll_empty_queue_emits :
  tasksInQueue (channel (init None)) = [] /\
  delivered (cancelAllChannelTasks (init None)) = [ToChannel CANCELLED_ALL_TASKS] /\
  delivered (cancelAllChannelTasks (init None)) <> delivered (init None).
Proof. repeat split. discriminate. Qed.

(** C1, amended: [cancelAllChannelTasks] on an empty queue sends one
    CANCELLED_ALL_TASKS to the handler of the channel and nothing else: no
    TASK_CANCELLED, no call of a [resolve], and the channel and what waits
    on the host stay as they were. *)
Theorem cancelAll_empty_queue (w : World) :
  tasksInQueue (channel w) = [] ->
  delivered (cancelAllChannelTasks w) = delivered w ++ [ToChannel CANCELLED_ALL_TASKS] /\
  channel (cancelAllChannelTasks w) = channel w /\
  resolved (cancelAllChannelTasks w) = resolved w /\
  awaiting (cancelAllChannelTasks w) = awaiting w /\
  deferred (cancelAllChannelTasks w) = deferred w /\
  allocated (cancelAllChannelTasks w) = allocated w.
Proof.
  intros Hq. rewrite cancelAllChannelTasks_spec, Hq. projections. simpl.
  rewrite app_nil_r. repeat split.
  destruct w as [[c ip q] ds rs aw df al]. simpl in *. now subst q.
Qed.

Lemma cancelAll_empty_queue_witness :
  tasksInQueue (channel (init (limit 2))) = [] /\
  delivered (cancelAllChannelTasks (init (limit 2))) =
    delivered (init (limit 2)) ++ [ToChannel CANCELLED_ALL_TASKS] /\
  channel (cancelAllChannelTasks (init (limit 2))) = channel (init (limit 2)).
Proof.
  split; [reflexivity|].
  destruct (cancelAll_empty_queue (init (limit 2)) eq_refl) as (Hd & Hc & _).
  split; [exact Hd | exact Hc].
Defined.

(** C2: on a channel created with a concurrency [c] above 0, after any
    calls of the interface and any jobs of the host the concurrency is [c]
    and at most [c] tasks are in progress; this also holds inside
    [proccessChannel], when the task to start has been pushed. *)
Theorem tasksInProgress_within_concurrency (host : Delay.Host)
    (args : option ChannelArgs) (acts : list Action) (w : World) (c : Z) :
  optional_concurrency args = Some c -> 0 < c ->
  run host acts (init args) = Some w ->
  concurrency (channel w) = c /\
  Z.of_nat (length (tasksInProgress (channel w))) <= c /\
  (forall t rest, room w -> tasksInQueue (channel w) = t :: rest ->
     Z.of_nat (length (tasksInProgress (channel (start t rest w)))) <= c).
Proof.
  intros Hc Hpos Hrun.
  destruct (run_within_limit host args acts w Hrun) as [Hconc Hlen].
  assert (Hcc : concurrency (createChannel args) = c).
  { unfold createChannel, or_default. rewrite Hc. cbn [concurrency].
    destruct (Z.eqb_spec c 0); [lia | reflexivity]. }
  rewrite Hcc in *. repeat split; [exact Hconc | lia |].
  intros t rest Hroom _. unfold room in Hroom.
  rewrite start_channel. cbn [tasksInProgress]. rewrite length_app. simpl length. lia.
Qed.

Lemma tasksInProgress_within_concurrency_witness :
  optional_concurrency (limit 1) = Some 1 /\ 0 < 1 /\
  run node failing_run (init (limit 1)) = Some failing_world /\
  Z.of_nat (length (tasksInProgress (channel failing_world))) <= 1.
Proof.
  split; [reflexivity|]. split; [lia|]. split; [exact failing_world_run|].
  apply (tasksInProgress_within_concurrency node (limit 1) failing_run failing_world 1);
    [reflexivity | lia | exact failing_world_run].
Defined.

(** C3: after any run, and again when [addTaskToChannel] has sorted a new
    task into the queue, the head of the queue has the lowest priority of the
    queue and, among the tasks of this priority, the earliest request;
    [proccessChannel], whatever the concurrency, starts the head of the queue
    when a slot is free.  When the clock of the host does not run backwards,
    the tasks of one priority wait in the order of their submission, and no
    task that has been started was submitted after a task of its priority
    that still waits. *)
Theorem dispatch_order (host : Delay.Host) (args : option ChannelArgs)
    (acts : list Action) (w : World) :
  run host acts (init args) = Some w ->
  (forall t rest,
     tasksInQueue (channel w) = t :: rest ->
     Forall (fun u => priority t < priority u \/
                      (priority t = priority u /\ requestedAt t <= requestedAt u)) rest /\
     (room w ->
      exists more,
        delivered (proccessChannel host w) =
        delivered w ++ ToChannel (TASK_STARTED t) :: more)) /\
  (forall o now t rest,
     tasksInQueue (channel (enqueue o now w)) = t :: rest ->
     Forall (fun u => priority t < priority u \/
                      (priority t = priority u /\ requestedAt t <= requestedAt u)) rest /\
     (room w ->
      exists more,
        delivered (fst (addTaskToChannel host o now w)) =
        delivered (enqueue o now w) ++ ToChannel (TASK_STARTED t) :: more)) /\
  (monotone_clock acts ->
   StronglySorted (fun a b => priority a = priority b -> (ident a < ident b)%nat)
     (tasksInQueue (channel w)) /\
   Forall (fun b => Forall (fun a => priority b = priority a -> (ident b < ident a)%nat)
                      (tasksInQueue (channel w)))
     (started_tasks (delivered w))).
Proof.
  intros Hrun.
  pose proof (run_queue_sorted host args acts w Hrun) as Hs.
  assert (Hhead : forall w0 t rest,
    queue_sorted w0 -> tasksInQueue (channel w0) = t :: rest ->
    Forall (fun u => priority t < priority u \/
                     (priority t = priority u /\ requestedAt t <= requestedAt u)) rest).
  { intros w0 t rest Hs0 Hq. unfold queue_sorted in Hs0. rewrite Hq in Hs0.
    apply StronglySorted_inv in Hs0 as [_ Hs0].
    eapply Forall_impl; [|exact Hs0]. intros u. apply precedes_spec. }
  split; [|split].
  - intros t rest Hq. split; [now apply (Hhead w)|].
    intros Hroom. now apply (proccessChannel_starts_head host w t rest).
  - intros o now t rest Hq. split.
    + apply (Hhead (enqueue o now w)); [now apply queue_sorted_enqueue | exact Hq].
    + intros Hroom. rewrite addTaskToChannel_enqueue.
      apply (proccessChannel_starts_head host (enqueue o now w) t rest); [|exact Hq].
      unfold room in *. now rewrite enqueue_channel.
  - intros Hclock.
    destruct (run_ordered host args acts w Hclock Hrun) as (lo & _ & Ha & _ & Hb).
    split; [exact Ha|].
    eapply Forall_impl; [|exact Hb]. cbv beta. intros b [_ H]. exact H.
Qed.

Lemma dispatch_order_witness :
  run node busy_run (init (limit 1)) = Some busy_world /\
  tasksInQueue (channel busy_world) =
    new_task (returns 2 (-1)) 12 (set_allocated 2 busy_world) ::
    [new_task (waits 1) 11 (set_allocated 1 busy_world);
     new_task (waits 1) 13 (set_allocated 3 busy_world)] /\
  monotone_clock busy_run /\
  Forall (fun u => -1 < priority u \/ (-1 = priority u /\ 12 <= requestedAt u))
    [new_task (waits 1) 11 (set_allocated 1 busy_world);
     new_task (waits 1) 13 (set_allocated 3 busy_world)] /\
  StronglySorted (fun a b => priority a = priority b -> (ident a < ident b)%nat)
    (tasksInQueue (channel busy_world)).
Proof.
  split; [exact busy_world_run|]. split; [reflexivity|].
  assert (Hclock : monotone_clock busy_run).
  { unfold monotone_clock. simpl. repeat constructor; lia. }
  split; [exact Hclock|].
  destruct (dispatch_order node (limit 1) busy_run busy_world busy_world_run)
    as (Hhead & _ & Harrival).
  split.
  - apply (Hhead (new_task (returns 2 (-1)) 12 (set_allocated 2 busy_world))
             [new_task (waits 1) 11 (set_allocated 1 busy_world);
              new_task (waits 1) 13 (set_allocated 3 busy_world)] eq_refl).
  - apply Harrival, Hclock.
Defined.



(** C5: after any run, the events about a task that the handler of the
    channel got, and the ones that the [eventHandler] of the task got, are
    TASK_ADDED alone, TASK_ADDED and TASK_STARTED, these two and
    TASK_COMPLETED, or TASK_ADDED and TASK_CANCELLED; the handler given in the
    options got the same events, or none when none was given.  The
    [resultPromise] of the task has been resolved once when TASK_COMPLETED or
    TASK_CANCELLED is among them and not at all before, and it was resolved
    with the result of this event.  A task with TASK_ADDED alone waits in the
    queue, one with TASK_STARTED as the last event is in progress.

    The terminal event does occur.  A task that was started and whose
    function ended at once, and a task whose promise was settled in the run,
    has had TASK_ADDED, TASK_STARTED and TASK_COMPLETED, and its promise has
    been resolved once, with the result of the function or of the promise.
    A task that was in the queue when [cancelAllChannelTasks] was called, or
    that [cancelChannelTask] found, has had TASK_ADDED and TASK_CANCELLED, and
    its promise has been resolved once, as cancelled.  A task that is neither
    in the queue nor in progress any more has had exactly one of the two
    terminal events and one resolution; and when a slot is free and no
    callback of [runNextTick] is due, every task that was submitted is in
    progress or has ended in this way.  On a channel with a concurrency
    above 0 every run can go on, with settlements of the promises that are
    awaited and callbacks of [runNextTick] only, to a world in which every
    task that was submitted has ended in this way. *)
Theorem task_lifecycle (host : Delay.Host) (args : option ChannelArgs)
    (acts : list Action) (w : World) (tid : nat) :
  run host acts (init args) = Some w ->
  (exists ph : Phase,
    channel_view tid (delivered w) = phase_trace ph /\
    task_view tid (delivered w) = phase_trace ph /\
    (options_view tid (delivered w) = phase_trace ph \/
     options_view tid (delivered w) = []) /\
    length (resolutions tid (resolved w)) = phase_resolutions ph /\
    resolutions tid (resolved w) = outcome_view tid (delivered w) /\
    (In tid (map ident (tasksInQueue (channel w))) <-> ph = Queued) /\
    (In tid (map ident (tasksInProgress (channel w))) <-> ph = Running) /\
    ((tid < allocated w)%nat <-> ph <> Unborn) /\
    ((tid < allocated w)%nat ->
     channel_view tid (delivered w) = [Added] \/
     channel_view tid (delivered w) = [Added; Started] \/
     channel_view tid (delivered w) = [Added; Started; Completed] \/
     channel_view tid (delivered w) = [Added; Cancelled])) /\
  (forall t ok res,
     In (ToChannel (TASK_STARTED t)) (delivered w) -> ident t = tid ->
     outcome (call (task t)) ok res ->
     channel_view tid (delivered w) = [Added; Started; Completed] /\
     task_view tid (delivered w) = [Added; Started; Completed] /\
     resolutions tid (resolved w) = [if ok then success res else failure res]) /\
  (forall before after s,
     acts = before ++ Settle tid s :: after ->
     channel_view tid (delivered w) = [Added; Started; Completed] /\
     task_view tid (delivered w) = [Added; Started; Completed] /\
     resolutions tid (resolved w) =
       [match s with Fulfils v => success v | Rejects e => failure e end]) /\
  (forall before after w1,
     acts = before ++ CancelAll :: after ->
     run host before (init args) = Some w1 ->
     In tid (map ident (tasksInQueue (channel w1))) ->
     channel_view tid (delivered w) = [Added; Cancelled] /\
     task_view tid (delivered w) = [Added; Cancelled] /\
     resolutions tid (resolved w) = [cancelation]) /\
  (forall before after f w1 pre t post,
     acts = before ++ CancelTask f :: after ->
     run host before (init args) = Some w1 ->
     tasksInQueue (channel w1) = pre ++ t :: post ->
     Forall (fun x => ref (task x) <> ref f) pre ->
     ref (task t) = ref f -> ident t = tid ->
     channel_view tid (delivered w) = [Added; Cancelled] /\
     task_view tid (delivered w) = [Added; Cancelled] /\
     resolutions tid (resolved w) = [cancelation]) /\
  ((tid < allocated w)%nat ->
   ~ In tid (map ident (tasksInQueue (channel w))) ->
   ~ In tid (map ident (tasksInProgress (channel w))) ->
   (channel_view tid (delivered w) = [Added; Started; Completed] \/
    channel_view tid (delivered w) = [Added; Cancelled]) /\
   length (resolutions tid (resolved w)) = 1%nat) /\
  (room w -> deferred w = 0%nat -> (tid < allocated w)%nat ->
   In tid (map ident (tasksInProgress (channel w))) \/
   (channel_view tid (delivered w) = [Added; Started; Completed] \/
    channel_view tid (delivered w) = [Added; Cancelled]) /\
   length (resolutions tid (resolved w)) = 1%nat) /\
  (0 < concurrency (channel w) ->
   exists more w',
     run host more w = Some w' /\
     Forall (fun a => host_job a = true) more /\
     forall k, (k < allocated w)%nat ->
       (channel_view k (delivered w') = [Added; Started; Completed] \/
        channel_view k (delivered w') = [Added; Cancelled]) /\
       length (resolutions k (resolved w')) = 1%nat).
Proof.
  intros Hrun.
  pose proof (run_consistent host args acts w Hrun) as Hc.
  pose proof (run_agrees host args acts w Hrun) as Ha.
  assert (Hlater : forall before a after w1 w2,
    acts = before ++ a :: after -> run host before (init args) = Some w1 ->
    perform host a w1 = Some w2 -> extends (delivered w2) w /\ keeps (resolved w2) w).
  { intros before a after w1 w2 -> Hrun1 Ha2.
    apply run_app in Hrun. destruct Hrun as (w1' & Hrun1' & Hrun2).
    rewrite Hrun1 in Hrun1'. apply Some_eq in Hrun1'. subst w1'.
    cbn [run] in Hrun2. rewrite Ha2 in Hrun2.
    split; [now apply (run_extends host after) | now apply (run_keeps host after)]. }
  destruct Hc as (Hnd & Haw & Hst). destruct (Hst tid) as (ph & obs & S).
  assert (Hc : consistent w) by (repeat split; assumption).
  assert (Hborn : (tid < allocated w)%nat <-> ph <> Unborn).
  { pose proof (ts_unborn _ _ _ _ S) as Hu. split.
    - intros Hlt Hph. apply Hu in Hph. lia.
    - intros Hph. destruct (Nat.lt_ge_cases tid (allocated w)) as [Hlt | Hge];
        [exact Hlt | now apply Hu in Hge]. }
  assert (Hgone : (tid < allocated w)%nat ->
    ~ In tid (map ident (tasksInQueue (channel w))) ->
    ~ In tid (map ident (tasksInProgress (channel w))) ->
    (channel_view tid (delivered w) = [Added; Started; Completed] \/
     channel_view tid (delivered w) = [Added; Cancelled]) /\
    length (resolutions tid (resolved w)) = 1%nat).
  { intros Hlt Hq Hp. apply Hborn in Hlt.
    rewrite (ts_channel _ _ _ _ S), (ts_resolved _ _ _ _ S).
    destruct ph; simpl; auto.
    - contradiction.
    - exfalso. now apply Hq, (ts_queued _ _ _ _ S).
    - exfalso. now apply Hp, (ts_running _ _ _ _ S). }
  split; [|split; [|split; [|split; [|split; [|split; [|split]]]]]].
  - exists ph.
    split; [apply S|]. split; [apply S|].
    split; [rewrite (ts_options _ _ _ _ S); destruct obs; auto|].
    split; [apply S|].
    split; [apply Ha|].
    split; [apply S|]. split; [apply S|]. split; [exact Hborn|].
    intros Hlt. apply Hborn in Hlt. rewrite (ts_channel _ _ _ _ S).
    destruct ph; simpl; auto. contradiction.
  - intros t ok res Hin <- Hout.
    destruct (run_finished host args acts w Hrun t ok res Hin Hout) as [Hh Hdone].
    apply (completed_task w (ident t) _ Hc); [|exact Hh].
    now apply completed_in_view in Hdone.
  - intros before after s Hacts.
    pose proof Hrun as Hrun'. rewrite Hacts in Hrun'.
    apply run_app in Hrun'. destruct Hrun' as (w1 & Hrun1 & Hrun2).
    cbn [run perform] in Hrun2.
    destruct (settle host tid s w1) as [w2|] eqn:Hsettle; [|discriminate].
    destruct (settle_completes host tid s w1 w2
                (run_consistent host args before w1 Hrun1) Hsettle) as [Hh Hin].
    destruct (Hlater before (Settle tid s) after w1 w2 Hacts Hrun1 Hsettle)
      as [Hext Hkeep].
    apply (completed_task w tid _ Hc).
    + now apply (view_extends tid Completed w2 w).
    + now apply (handle_keeps _ _ w2).
  - intros before after w1 Hacts Hrun1 Hin.
    destruct (Hlater before CancelAll after w1 (cancelAllChannelTasks w1) Hacts Hrun1
                eq_refl) as [Hext _].
    apply (cancelled_task w tid Hc Ha).
    apply (view_extends tid Cancelled (cancelAllChannelTasks w1) w Hext).
    now apply cancelAllChannelTasks_view.
  - intros before after f w1 pre t post Hacts Hrun1 Hq Hpre Hf <-.
    destruct (Hlater before (CancelTask f) after w1 (cancelChannelTask f w1) Hacts Hrun1
                eq_refl) as [Hext _].
    apply (cancelled_task w (ident t) Hc Ha).
    apply (view_extends (ident t) Cancelled (cancelChannelTask f w1) w Hext).
    apply cancelled_in_view.
    rewrite (cancelChannelTask_found f w1 pre post t Hq).
    + rewrite sendEvent_spec. projections. apply in_app_iff. right.
      unfold event_deliveries. now left.
    + eapply Forall_impl; [|exact Hpre]. intros x Hx. now apply Nat.eqb_neq.
    + now apply Nat.eqb_eq.
  - exact Hgone.
  - intros Hroom Hd Hlt.
    destruct (in_dec Nat.eq_dec tid (map ident (tasksInProgress (channel w))))
      as [Hp | Hp]; [now left | right].
    apply Hgone; [exact Hlt| |exact Hp].
    pose proof (run_no_stall host args acts w Hrun) as Hns.
    unfold no_stall, free, room in *.
    destruct (tasksInQueue (channel w)) as [|u q]; [now simpl|].
    simpl length in Hns. lia.
  - intros Hpos.
    destruct (run_can_end host args (pending_work w) acts w Hrun (Nat.le_refl _) Hpos)
      as (more & w' & Hmore & Hjobs & Hq & Hip & Hall).
    exists more, w'. split; [exact Hmore|]. split; [exact Hjobs|].
    intros k Hk.
    apply (consistent_gone w' k).
    + apply (run_consistent host args (acts ++ more)).
      now apply (run_chain host acts more _ w).
    + now rewrite Hall.
    + now rewrite Hq.
    + now rewrite Hip.
Qed.

Lemma task_lifecycle_witness :
  run node failing_run (init (limit 1)) = Some failing_world /\
  channel_view 1 (delivered failing_world) = [Added; Started; Completed] /\
  task_view 1 (delivered failing_world) = [Added; Started; Completed] /\
  resolutions 1 (resolved failing_world) = [failure (VStr "Error 2")].
Proof.
  split; [exact failing_world_run|].
  destruct (task_lifecycle node (limit 1) failing_run failing_world 1 failing_world_run)
    as (_ & _ & Hsettled & _).
  apply (Hsettled [Submit (throws 0) 10; Submit (waits 1) 11; Submit (waits 2) 12;
                   Submit (throws 3) 13] [] (Rejects (VStr "Error 2"))).
  reflexivity.
Defined.

(** C6: [addTaskToChannelExclusively] on an empty queue is
    [addTaskToChannel]; on a queue that is not empty it is [addTaskToChannel]
    after a cancellation that sends CANCELLED_ALL_TASKS and then TASK_CANCELLED
    for every task of the queue, in the order of the queue, resolves their
    promises as cancelled, empties the queue and leaves the tasks in progress
    and their reactions as they were. *)
Theorem addTaskToChannelExclusively_cancels_queue (host : Delay.Host) (o : Options)
    (now : Z) (w : World) :
  (tasksInQueue (channel w) = [] ->
   addTaskToChannelExclusively host o now w = addTaskToChannel host o now w) /\
  (tasksInQueue (channel w) <> [] ->
   exists wc,
     addTaskToChannelExclusively host o now w = addTaskToChannel host o now wc /\
     delivered wc = delivered w ++ ToChannel CANCELLED_ALL_TASKS ::
       flat_map (fun t => event_deliveries t (TASK_CANCELLED t)) (tasksInQueue (channel w)) /\
     resolved wc = resolved w ++
       map (fun t => (ident t, cancelation)) (tasksInQueue (channel w)) /\
     tasksInQueue (channel wc) = [] /\
     tasksInProgress (channel wc) = tasksInProgress (channel w) /\
     concurrency (channel wc) = concurrency (channel w) /\
     awaiting wc = awaiting w /\
     deferred wc = deferred w /\
     allocated wc = allocated w).
Proof.
  unfold addTaskToChannelExclusively. split; intros Hq.
  - now rewrite Hq.
  - destruct (tasksInQueue (channel w)) as [|t q] eqn:E; [contradiction|].
    exists (cancelAllChannelTasks w). cbn [length Nat.eqb].
    rewrite cancelAllChannelTasks_spec, E. repeat split.
Qed.

Lemma addTaskToChannelExclusively_cancels_queue_witness :
  tasksInQueue (channel busy_world) <> [] /\
  exists wc,
    addTaskToChannelExclusively node (waits 4) 14 busy_world =
      addTaskToChannel node (waits 4) 14 wc /\
    tasksInQueue (channel wc) = [] /\
    tasksInProgress (channel wc) = tasksInProgress (channel busy_world).
Proof.
  assert (Hq : tasksInQueue (channel busy_world) <> []) by discriminate.
  split; [exact Hq|].
  destruct (addTaskToChannelExclusively_cancels_queue node (waits 4) 14 busy_world)
    as [_ H].
  destruct (H Hq) as (wc & Hadd & _ & _ & Hqueue & Hip & _).
  exists wc. split; [exact Hadd | split; [exact Hqueue | exact Hip]].
Defined.

(** C7: [addTaskToChannelIfEmpty] on a queue that is not empty returns a
    promise that is resolved as cancelled and leaves the world as it is: no
    task is built, nothing is sent, nothing runs; on an empty queue, whatever
    is in progress, it is [addTaskToChannel]. *)
Theorem addTaskToChannelIfEmpty_cancels_at_once (host : Delay.Host) (o : Options)
    (now : Z) (w : World) :
  (tasksInQueue (channel w) <> [] ->
   addTaskToChannelIfEmpty host o now w = (w, PromiseResolve cancelation) /\
   handle_state (snd (addTaskToChannelIfEmpty host o now w)) w = Fulfilled cancelation /\
   isCancelation cancelation = true) /\
  (tasksInQueue (channel w) = [] ->
   addTaskToChannelIfEmpty host o now w = addTaskToChannel host o now w).
Proof.
  unfold addTaskToChannelIfEmpty. split; intros Hq.
  - destruct (tasksInQueue (channel w)) as [|t q]; [contradiction|].
    cbn [length Nat.eqb]. repeat split.
  - now rewrite Hq.
Qed.

Lemma addTaskToChannelIfEmpty_cancels_at_once_witness :
  tasksInQueue (channel busy_world) <> [] /\
  addTaskToChannelIfEmpty node (waits 4) 14 busy_world =
    (busy_world, PromiseResolve cancelation).
Proof.
  assert (Hq : tasksInQueue (channel busy_world) <> []) by discriminate.
  split; [exact Hq|].
  destruct (addTaskToChannelIfEmpty_cancels_at_once node (waits 4) 14 busy_world)
    as [H _].
  destruct (H Hq) as [Heq _]. exact Heq.
Defined.

(** C8: without an argument, without a concurrency and with the
    concurrency 0 [createChannel] gives the concurrency 1, and it never gives
    the concurrency 0. *)
Theorem createChannel_concurrency (args : option ChannelArgs) :
  (args = None \/ optional_concurrency args = None \/ optional_concurrency args = Some 0 ->
   concurrency (createChannel args) = 1) /\
  concurrency (createChannel args) <> 0.
Proof.
  unfold createChannel, or_default. cbn [concurrency]. split.
  - intros [-> | [-> | ->]]; reflexivity.
  - destruct (optional_concurrency args) as [n|]; [|discriminate].
    destruct (Z.eqb_spec n 0); [discriminate | assumption].
Qed.

Lemma createChannel_concurrency_witness :
  optional_concurrency (limit 0) = Some 0 /\ concurrency (createChannel (limit 0)) = 1.
Proof.
  split; [reflexivity|].
  destruct (createChannel_concurrency (limit 0)) as [H _].
  apply H. right. right. reflexivity.
Defined.

(** C9: a value is awaited only when it is an object with the two methods
    [then] and [catch].  After any run, when a slot is free and the function
    of the head of the queue returns a value [v] that lacks one of them,
    [proccessChannel] sends TASK_STARTED and at once TASK_COMPLETED with
    [isSuccess] and [v] itself as the result, resolves the promise of the task
    with [v], registers no reaction, leaves the tasks in progress as they were
    and goes on to [runNextTick]. *)
Theorem thenable_without_both_methods (host : Delay.Host) (args : option ChannelArgs)
    (acts : list Action) (w : World) (t : ChannelTask) (rest : list ChannelTask)
    (v : Value) :
  (isPromise v = true ->
   typeof v = TyObject /\ v <> VNull /\
   has_method "then" v = true /\ has_method "catch" v = true) /\
  (run host acts (init args) = Some w ->
   room w -> tasksInQueue (channel w) = t :: rest -> call (task t) = Returns v ->
   has_method "then" v = false \/ has_method "catch" v = false ->
   isPromise v = false /\
   exists w1,
     proccessChannel host w =
       Delay.runNextTick host defer defer (proccessChannel host) w1 /\
     delivered w1 = delivered w ++ event_deliveries t (TASK_STARTED t) ++
                    event_deliveries t (TASK_COMPLETED t true false v) /\
     resolved w1 = resolved w ++ [(ident t, success v)] /\
     handle (ident t) w1 = Fulfilled (success v) /\
     awaiting w1 = awaiting w /\
     tasksInProgress (channel w1) = tasksInProgress (channel w) /\
     tasksInQueue (channel w1) = rest).
Proof.
  split; [apply isPromise_methods|].
  intros Hrun Hroom Hq Hcall Hmiss.
  assert (Hno : isPromise v = false).
  { destruct (isPromise v) eqn:E; [|reflexivity].
    apply isPromise_methods in E. destruct E as (_ & _ & Hthen & Hcatch).
    destruct Hmiss; congruence. }
  split; [exact Hno|].
  pose proof (run_consistent host args acts w Hrun) as Hc.
  exists (settled t true v (start t rest w)).
  split; [|split; [|split; [|split; [|split; [|split]]]]].
  - rewrite (proccessChannel_dispatch host w t rest Hroom Hq), Hcall, Hno.
    apply complete_settled.
  - rewrite settled_spec, start_spec. projections. now rewrite <- app_assoc.
  - rewrite settled_spec, start_spec. reflexivity.
  - apply (handle_first _ _ _ (resolved w) []).
    + apply consistent_pending; [exact Hc|]. rewrite Hq. now left.
    + rewrite settled_spec, start_spec. reflexivity.
  - rewrite settled_spec, start_spec. reflexivity.
  - now apply sync_tasksInProgress.
  - rewrite settled_spec, start_spec. reflexivity.
Qed.

Lemma thenable_without_both_methods_witness :
  run node thenable_run (init None) = Some thenable_world /\
  room thenable_world /\
  tasksInQueue (channel thenable_world) =
    new_task (thenable 1) 11 (set_allocated 1 thenable_world) :: [] /\
  has_method "catch" (VObject [("then"%string, VFun 7)]) = false /\
  isPromise (VObject [("then"%string, VFun 7)]) = false.
Proof.
  split; [exact thenable_world_run|].
  assert (Hroom : room thenable_world) by (unfold room; simpl; lia).
  split; [exact Hroom|]. split; [reflexivity|]. split; [reflexivity|].
  apply (thenable_without_both_methods node None thenable_run thenable_world
           (new_task (thenable 1) 11 (set_allocated 1 thenable_world)) []
           (VObject [("then"%string, VFun 7)]));
    [exact thenable_world_run | exact Hroom | reflexivity | reflexivity
    | right; reflexivity].
Defined.

(** C10: [cancelChannelTask] takes the first task of the queue that has
    the function out of the queue, sends TASK_CANCELLED for it and resolves
    its promise as cancelled; the tasks before and behind it, among them the
    later ones with the same function, stay in their order, and the tasks in
    progress stay as they are. *)
Theorem cancelChannelTask_first_match (f : Fn) (w : World)
    (pre post : list ChannelTask) (t : ChannelTask) :
  tasksInQueue (channel w) = pre ++ t :: post ->
  Forall (fun x => ref (task x) <> ref f) pre ->
  ref (task t) = ref f ->
  tasksInQueue (channel (cancelChannelTask f w)) = pre ++ post /\
  tasksInProgress (channel (cancelChannelTask f w)) = tasksInProgress (channel w) /\
  awaiting (cancelChannelTask f w) = awaiting w /\
  delivered (cancelChannelTask f w) =
    delivered w ++ event_deliveries t (TASK_CANCELLED t) /\
  resolved (cancelChannelTask f w) = resolved w ++ [(ident t, cancelation)].
Proof.
  intros Hq Hpre Ht.
  rewrite (cancelChannelTask_found f w pre post t Hq).
  - rewrite sendEvent_spec. repeat split.
  - eapply Forall_impl; [|exact Hpre]. intros x Hx. now apply Nat.eqb_neq.
  - now apply Nat.eqb_eq.
Qed.

Lemma cancelChannelTask_first_match_witness :
  tasksInQueue (channel busy_world) =
    [new_task (returns 2 (-1)) 12 (set_allocated 2 busy_world)] ++
    new_task (waits 1) 11 (set_allocated 1 busy_world) ::
    [new_task (waits 1) 13 (set_allocated 3 busy_world)] /\
  tasksInQueue (channel (cancelChannelTask (opt_task (waits 1)) busy_world)) =
    [new_task (returns 2 (-1)) 12 (set_allocated 2 busy_world)] ++
    [new_task (waits 1) 13 (set_allocated 3 busy_world)].
Proof.
  split; [reflexivity|].
  apply (cancelChannelTask_first_match (opt_task (waits 1)) busy_world
           [new_task (returns 2 (-1)) 12 (set_allocated 2 busy_world)]
           [new_task (waits 1) 13 (set_allocated 3 busy_world)]
           (new_task (waits 1) 11 (set_allocated 1 busy_world))).
  - reflexivity.
  - constructor; [simpl; lia | constructor].
  - reflexivity.
Defined.

(** ** Further properties of the channel *)

(** X1: [sortChannelQueue] is a comparator as [Array.prototype.sort] wants
    it: swapping the arguments negates the result, the result is 0 exactly
    for tasks with the same priority and the same time of request, it is
    negative exactly when the first task has the lower priority or, with the
    same priority, the earlier request, and the order is transitive. *)
Theorem sortChannelQueue_consistent (a b c : ChannelTask) :
  sortChannelQueue b a = - sortChannelQueue a b /\
  (sortChannelQueue a b = 0 <->
   priority a = priority b /\ requestedAt a = requestedAt b) /\
  (sortChannelQueue a b < 0 <->
   priority a < priority b \/
   (priority a = priority b /\ requestedAt a < requestedAt b)) /\
  (sortChannelQueue a b <= 0 -> sortChannelQueue b c <= 0 ->
   sortChannelQueue a c <= 0).
Proof.
  unfold sortChannelQueue.
  destruct (Z.eqb_spec (priority a) (priority b)),
           (Z.eqb_spec (priority b) (priority a)),
           (Z.eqb_spec (priority b) (priority c)),
           (Z.eqb_spec (priority a) (priority c)); lia.
Qed.

Lemma sortChannelQueue_consistent_witness :
  sortChannelQueue (new_task (returns 2 (-1)) 12 (init None))
                   (new_task (waits 1) 11 (init None)) <= 0 /\
  sortChannelQueue (new_task (waits 1) 11 (init None))
                   (new_task (waits 1) 13 (init None)) <= 0 /\
  sortChannelQueue (new_task (returns 2 (-1)) 12 (init None))
                   (new_task (waits 1) 13 (init None)) <= 0.
Proof.
  assert (H1 : sortChannelQueue (new_task (returns 2 (-1)) 12 (init None))
                                (new_task (waits 1) 11 (init None)) <= 0)
    by (unfold sortChannelQueue; simpl; lia).
  assert (H2 : sortChannelQueue (new_task (waits 1) 11 (init None))
                                (new_task (waits 1) 13 (init None)) <= 0)
    by (unfold sortChannelQueue; simpl; lia).
  split; [exact H1|]. split; [exact H2|].
  exact (proj2 (proj2 (proj2 (sortChannelQueue_consistent _ _ _))) H1 H2).
Defined.

(** X2: [cancelChannelTask] with a function that no task of the queue has
    changes nothing: nothing is sent and no promise is resolved, also when a
    task in progress has this function. *)
Theorem cancelChannelTask_not_queued (f : Fn) (w : World) :
  Forall (fun x => ref (task x) <> ref f) (tasksInQueue (channel w)) ->
  cancelChannelTask f w = w.
Proof.
  intros H. apply cancelChannelTask_none.
  eapply Forall_impl; [|exact H]. intros x Hx. now apply Nat.eqb_neq.
Qed.

Lemma cancelChannelTask_not_queued_witness :
  Forall (fun x => ref (task x) <> ref (opt_task (waits 0)))
    (tasksInQueue (channel busy_world)) /\
  map (fun x => ref (task x)) (tasksInProgress (channel busy_world)) =
    [ref (opt_task (waits 0))] /\
  cancelChannelTask (opt_task (waits 0)) busy_world = busy_world.
Proof.
  assert (H : Forall (fun x => ref (task x) <> ref (opt_task (waits 0)))
                (tasksInQueue (channel busy_world))).
  { repeat constructor; simpl; lia. }
  split; [exact H|]. split; [reflexivity|].
  apply (cancelChannelTask_not_queued (opt_task (waits 0)) busy_world H).
Defined.

(** X3: on a host with [requestAnimationFrame] or [setTimeout] one call of
    [proccessChannel] starts at most one task.  Without a free slot or with
    an empty queue it changes nothing.  Otherwise it starts the head of the
    queue and no other task, takes it from the queue, and hands one callback
    to the host when the task ended at once, none when its promise is
    awaited.  A task whose promise is awaited is pushed to the tasks in
    progress, and only TASK_STARTED is sent.  A task that ended at once is
    pushed and taken away again, so that as many tasks are in progress as
    before, the same ones when the task was not among them; TASK_STARTED and
    TASK_COMPLETED are sent and the promise of the task is resolved. *)
Theorem proccessChannel_one_task (host : Delay.Host) (w : World) :
  Delay.has_requestAnimationFrame host = true \/ Delay.has_setTimeout host = true ->
  (~ room w \/ tasksInQueue (channel w) = [] -> proccessChannel host w = w) /\
  (forall t rest,
     room w -> tasksInQueue (channel w) = t :: rest ->
     started_tasks (delivered (proccessChannel host w)) =
       started_tasks (delivered w) ++ [t] /\
     tasksInQueue (channel (proccessChannel host w)) = rest /\
     deferred (proccessChannel host w) =
       match call (task t) with
       | Returns v => if isPromise v then deferred w else S (deferred w)
       | Throws _ => S (deferred w)
       end /\
     awaiting (proccessChannel host w) =
       match call (task t) with
       | Returns v => if isPromise v then awaiting w ++ [t] else awaiting w
       | Throws _ => awaiting w
       end /\
     concurrency (channel (proccessChannel host w)) = concurrency (channel w) /\
     allocated (proccessChannel host w) = allocated w /\
     (forall v, call (task t) = Returns v -> isPromise v = true ->
        tasksInProgress (channel (proccessChannel host w)) =
          tasksInProgress (channel w) ++ [t] /\
        delivered (proccessChannel host w) =
          delivered w ++ event_deliveries t (TASK_STARTED t) /\
        resolved (proccessChannel host w) = resolved w) /\
     (forall ok res, outcome (call (task t)) ok res ->
        length (tasksInProgress (channel (proccessChannel host w))) =
          length (tasksInProgress (channel w)) /\
        (~ In (ident t) (map ident (tasksInProgress (channel w))) ->
         tasksInProgress (channel (proccessChannel host w)) =
           tasksInProgress (channel w)) /\
        delivered (proccessChannel host w) =
          delivered w ++ event_deliveries t (TASK_STARTED t) ++
          event_deliveries t (TASK_COMPLETED t ok (negb ok) res) /\
        resolved (proccessChannel host w) =
          resolved w ++ [(ident t, if ok then success res else failure res)])).
Proof.
  intros Hhost. split.
  - intros [Hfull | Hempty];
      [now apply proccessChannel_full | now apply proccessChannel_empty].
  - intros t rest Hroom Hq.
    rewrite (proccessChannel_dispatch host w t rest Hroom Hq).
    assert (Hdefer : forall next ok res,
      complete host next t ok res (start t rest w) =
      defer (settled t ok res (start t rest w))).
    { intros next ok res. rewrite complete_settled. unfold Delay.runNextTick.
      destruct Hhost as [-> | Hst]; [reflexivity|].
      rewrite Hst. now destruct (Delay.has_requestAnimationFrame host). }
    assert (Hsync : forall ok res,
      started_tasks (delivered (defer (settled t ok res (start t rest w)))) =
        started_tasks (delivered w) ++ [t] /\
      tasksInQueue (channel (defer (settled t ok res (start t rest w)))) = rest /\
      deferred (defer (settled t ok res (start t rest w))) = S (deferred w) /\
      awaiting (defer (settled t ok res (start t rest w))) = awaiting w /\
      concurrency (channel (defer (settled t ok res (start t rest w)))) =
        concurrency (channel w) /\
      allocated (defer (settled t ok res (start t rest w))) = allocated w /\
      length (tasksInProgress (channel (defer (settled t ok res (start t rest w))))) =
        length (tasksInProgress (channel w)) /\
      (~ In (ident t) (map ident (tasksInProgress (channel w))) ->
       tasksInProgress (channel (defer (settled t ok res (start t rest w)))) =
         tasksInProgress (channel w)) /\
      delivered (defer (settled t ok res (start t rest w))) =
        delivered w ++ event_deliveries t (TASK_STARTED t) ++
        event_deliveries t (TASK_COMPLETED t ok (negb ok) res) /\
      resolved (defer (settled t ok res (start t rest w))) =
        resolved w ++ [(ident t, if ok then success res else failure res)]).
    { intros ok res. rewrite settled_spec, start_spec. projections.
      rewrite !started_tasks_app, !started_tasks_event, app_nil_r, <- app_assoc.
      repeat split.
      - apply pushed_removed_length.
      - apply remove_pushed. }
    destruct (call (task t)) as [v | e] eqn:Hcall; [destruct (isPromise v) eqn:Hv|].
    + unfold register. rewrite start_spec. projections.
      rewrite started_tasks_app, started_tasks_event.
      do 6 (split; [reflexivity|]). split.
      * intros v' [= <-] _. repeat split.
      * intros ok res (_ & _ & Hno). rewrite Hv in Hno. discriminate.
    + rewrite Hdefer.
      destruct (Hsync true v) as (H1 & H2 & H3 & H4 & H5 & H6 & H7 & H8 & H9 & H10).
      do 6 (split; [assumption|]). split.
      * intros v' [= <-] Hv'. rewrite Hv in Hv'. discriminate.
      * intros ok res (-> & -> & _). auto.
    + rewrite Hdefer.
      destruct (Hsync false e) as (H1 & H2 & H3 & H4 & H5 & H6 & H7 & H8 & H9 & H10).
      do 6 (split; [assumption|]). split.
      * intros v' Hv'. discriminate.
      * intros ok res (-> & ->). auto.
Qed.

Lemma proccessChannel_one_task_witness :
  (Delay.has_requestAnimationFrame node = true \/ Delay.has_setTimeout node = true) /\
  ~ room busy_world /\
  proccessChannel node busy_world = busy_world /\
  room failing_world /\
  map ident (tasksInProgress (channel failing_world)) = [] /\
  map ident (tasksInQueue (channel failing_world)) = [2; 3]%nat /\
  map ident (tasksInProgress (channel (proccessChannel node failing_world))) = [2]%nat /\
  map ident (tasksInQueue (channel (proccessChannel node failing_world))) = [3]%nat.
Proof.
  assert (Hhost : Delay.has_requestAnimationFrame node = true \/
                  Delay.has_setTimeout node = true) by (right; reflexivity).
  assert (Hfull : ~ room busy_world) by (unfold room; simpl; lia).
  assert (Hroom : room failing_world) by (unfold room; simpl; lia).
  split; [exact Hhost|]. split; [exact Hfull|].
  split.
  { destruct (proccessChannel_one_task node busy_world Hhost) as [H _].
    apply H. left. exact Hfull. }
  split; [exact Hroom|]. split; [reflexivity|]. split; [reflexivity|].
  destruct (proccessChannel_one_task node failing_world Hhost) as [_ H].
  destruct (H (new_task (waits 2) 12 (set_allocated 2 failing_world))
              [new_task (throws 3) 13 (set_allocated 3 failing_world)]
              Hroom eq_refl) as (_ & Hq & _ & _ & _ & _ & Hp & _).
  destruct (Hp (VPromise 2) eq_refl eq_refl) as (Hip & _).
  rewrite Hq, Hip. split; reflexivity.
Defined.

Section Bare.
Variable host : Delay.Host.
Hypothesis no_frame : Delay.has_requestAnimationFrame host = false.
Hypothesis no_timeout : Delay.has_setTimeout host = false.

Lemma bare_runNextTick (next : World -> World) (w : World) :
  Delay.runNextTick host defer defer next w = next w.
Proof. unfold Delay.runNextTick. now rewrite no_frame, no_timeout. Qed.

Lemma bare_proccessChannel_rec_deferred (n : nat) (w : World) :
  deferred (proccessChannel_rec host n w) = deferred w.
Proof.
  revert w. induction n as [|n IH]; intros w; [reflexivity|].
  destruct (Z_lt_dec (Z.of_nat (length (tasksInProgress (channel w))))
              (concurrency (channel w))) as [Hroom | Hfull].
  2: { now rewrite proccessChannel_rec_full. }
  destruct (tasksInQueue (channel w)) as [|t rest] eqn:Hq.
  { now rewrite proccessChannel_rec_empty. }
  rewrite (proccessChannel_rec_step host n w t rest Hroom Hq).
  assert (Hsync : forall ok res,
    deferred (complete host (proccessChannel_rec host n) t ok res (start t rest w)) =
    deferred w).
  { intros ok res. rewrite complete_settled, bare_runNextTick, IH.
    now rewrite settled_spec, start_spec. }
  destruct (call (task t)) as [v | e]; [destruct (isPromise v)|]; try apply Hsync.
  unfold register. now rewrite start_spec.
Qed.

Lemma bare_perform_deferred (a : Action) (w w' : World) :
  deferred w = 0%nat -> perform host a w = Some w' -> deferred w' = 0%nat.
Proof.
  intros Hd.
  destruct a as [o now|o now|o now| |f|tid s| ]; cbn [perform];
    try (intros H; apply Some_eq in H; subst w').
  - rewrite addTaskToChannel_enqueue. unfold proccessChannel.
    rewrite bare_proccessChannel_rec_deferred. now rewrite enqueue_spec.
  - unfold addTaskToChannelExclusively. rewrite addTaskToChannel_enqueue.
    unfold proccessChannel. rewrite bare_proccessChannel_rec_deferred.
    rewrite enqueue_spec. projections.
    destruct (Nat.eqb _ 0); [exact Hd | now rewrite cancelAllChannelTasks_spec].
  - unfold addTaskToChannelIfEmpty. destruct (Nat.eqb _ 0); [|exact Hd].
    rewrite addTaskToChannel_enqueue. unfold proccessChannel.
    rewrite bare_proccessChannel_rec_deferred. now rewrite enqueue_spec.
  - now rewrite cancelAllChannelTasks_spec.
  - destruct (cancelChannelTask_cases f w) as [-> | (pre & t & post & _ & _ & _ & ->)];
      [exact Hd | now rewrite sendEvent_spec].
  - intros H. apply settle_react in H.
    destruct H as (t & ok & res & _ & _ & _ & ->).
    rewrite bare_runNextTick. unfold proccessChannel.
    rewrite bare_proccessChannel_rec_deferred. unfold react.
    now rewrite settled_spec.
  - unfold tick. now rewrite Hd.
Qed.

Lemma bare_run_deferred (acts : list Action) (w w' : World) :
  deferred w = 0%nat -> run host acts w = Some w' -> deferred w' = 0%nat.
Proof.
  revert w. induction acts as [|a acts IH]; intros w Hd; simpl.
  - now intros [= <-].
  - destruct (perform host a w) as [w1|] eqn:Ha; [|discriminate].
    apply IH. now apply (bare_perform_deferred a w w1).
Qed.

End Bare.

(** X4: on a host without [requestAnimationFrame] and [setTimeout], where
    [runNextTick] calls its callback at once, no callback ever waits on the
    host, so no tick can run, and after every call of the interface and every
    reaction the queue is empty whenever a slot is free: the tasks that could
    start have been started within the call. *)
Theorem bare_host_runs_inline (host : Delay.Host) (args : option ChannelArgs)
    (acts : list Action) (w : World) :
  Delay.has_requestAnimationFrame host = false ->
  Delay.has_setTimeout host = false ->
  run host acts (init args) = Some w ->
  deferred w = 0%nat /\
  perform host Tick w = None /\
  (room w -> tasksInQueue (channel w) = []).
Proof.
  intros Hf Ht Hrun.
  assert (Hd : deferred w = 0%nat).
  { now apply (bare_run_deferred host Hf Ht acts (init args) w). }
  split; [exact Hd|]. split.
  - cbn [perform]. unfold tick. now rewrite Hd.
  - intros Hroom. pose proof (run_no_stall host args acts w Hrun) as Hns.
    unfold no_stall, free, room in *. rewrite Hd in Hns.
    destruct (tasksInQueue (channel w)); [reflexivity|]. simpl length in Hns. lia.
Qed.

Lemma drain_world_bare_run : run bare drain_run (init (limit 1)) = Some drain_world_bare.
Proof. vm_compute. reflexivity. Qed.

Lemma bare_host_runs_inline_witness :
  Delay.has_requestAnimationFrame bare = false /\
  Delay.has_setTimeout bare = false /\
  run bare drain_run (init (limit 1)) = Some drain_world_bare /\
  deferred drain_world_bare = 0%nat /\
  map ident (started_tasks (delivered drain_world_bare)) = [0; 1; 2; 3]%nat.
Proof.
  split; [reflexivity|]. split; [reflexivity|]. split; [exact drain_world_bare_run|].
  split; [|reflexivity].
  apply (bare_host_runs_inline bare (limit 1) drain_run drain_world_bare
           eq_refl eq_refl drain_world_bare_run).
Defined.

(** A task with TASK_STARTED among its events is among the started tasks. *)
Lemma started_in_view (tid : nat) (ds : list Delivery) :
  In Started (channel_view tid ds) -> started_tasks ds <> [].
Proof.
  induction ds as [|d ds IH]; [intros []|].
  change (d :: ds) with ([d] ++ ds).
  rewrite started_tasks_app, channel_view_app, in_app_iff.
  intros [Hin | Hin] Hnil; apply app_eq_nil in Hnil as [Hd Hds].
  - destruct d as [ev|k ev|k ev]; [|destruct Hin|destruct Hin].
    destruct ev as [|u|u ok err res|u|u]; try discriminate Hd;
      simpl in Hin;
      repeat match type of Hin with
             | context [Nat.eqb ?a tid] => destruct (Nat.eqb a tid)
             end;
      simpl in Hin; intuition discriminate.
  - now apply IH.
Qed.

Lemma never_started_stable (c : Z) : c < 0 -> stable (never_started c).
Proof.
  intros Hc. constructor; unfold never_started, room.
  - intros w t rest res (Hcc & _ & _) Hroom. lia.
  - intros w t rest ok res (Hcc & _ & _) Hroom. lia.
  - auto.
  - auto.
  - intros w t ok res (Hcc & Hip & Hs) _. unfold react. rewrite settled_spec.
    projections. rewrite Hip, started_tasks_app, started_tasks_event, Hs.
    repeat split; assumption.
  - intros w (Hcc & Hip & Hs). rewrite cancelAllChannelTasks_spec. projections.
    change (ToChannel CANCELLED_ALL_TASKS ::
            flat_map (fun t => event_deliveries t (TASK_CANCELLED t))
              (tasksInQueue (channel w)))
      with ([ToChannel CANCELLED_ALL_TASKS] ++
            flat_map (fun t => event_deliveries t (TASK_CANCELLED t))
              (tasksInQueue (channel w))).
    rewrite !started_tasks_app, started_tasks_cancel, Hs. repeat split; assumption.
  - intros w f (Hcc & Hip & Hs).
    destruct (cancelChannelTask_cases f w) as [-> | (pre & t & post & _ & _ & _ & ->)];
      [auto|].
    rewrite sendEvent_spec. projections.
    rewrite started_tasks_app, started_tasks_event, Hs. repeat split; assumption.
Qed.

(** X5: [createChannel] keeps a negative concurrency, and a channel with a
    negative concurrency never starts a task: after any run no task is in
    progress, none has been started, and every task that was submitted still
    waits in the queue or was cancelled. *)
Theorem negative_concurrency_never_starts (host : Delay.Host)
    (args : option ChannelArgs) (acts : list Action) (w : World) (c : Z) :
  optional_concurrency args = Some c -> c < 0 ->
  run host acts (init args) = Some w ->
  concurrency (channel w) = c /\
  tasksInProgress (channel w) = [] /\
  started_tasks (delivered w) = [] /\
  (forall tid, (tid < allocated w)%nat ->
     In tid (map ident (tasksInQueue (channel w))) \/
     channel_view tid (delivered w) = [Added; Cancelled]).
Proof.
  intros Hargs Hc Hrun.
  assert (Hns : never_started c w).
  { apply (stable_run host _ (never_started_stable c Hc) acts (init args) w); auto.
    - intros o now w0 (Hcc & Hip & Hs). unfold never_started.
      rewrite enqueue_spec. projections.
      rewrite started_tasks_app, started_tasks_event, Hs. repeat split; assumption.
    - unfold never_started, init, createChannel, or_default. rewrite Hargs.
      projections. destruct (Z.eqb_spec c 0); [lia | repeat split]. }
  destruct Hns as (Hcc & Hip & Hs). repeat split; auto.
  intros tid Hlt.
  destruct (run_consistent host args acts w Hrun) as (_ & _ & Hst).
  destruct (Hst tid) as (ph & obs & S).
  destruct ph.
  - assert (allocated w <= tid)%nat by now apply (ts_unborn _ _ _ _ S). lia.
  - left. now apply (ts_queued _ _ _ _ S).
  - assert (Hin : In tid (map ident (tasksInProgress (channel w))))
      by now apply (ts_running _ _ _ _ S).
    rewrite Hip in Hin. destruct Hin.
  - exfalso. pose proof (ts_channel _ _ _ _ S) as Hv. simpl in Hv.
    apply (started_in_view tid (delivered w)); [|exact Hs].
    rewrite Hv. simpl. auto.
  - right. apply (ts_channel _ _ _ _ S).
Qed.

Lemma stuck_world_run : run node stuck_run (init (limit (-1))) = Some stuck_world.
Proof. vm_compute. reflexivity. Qed.

Lemma negative_concurrency_never_starts_witness :
  optional_concurrency (limit (-1)) = Some (-1) /\ -1 < 0 /\
  run node stuck_run (init (limit (-1))) = Some stuck_world /\
  started_tasks (delivered stuck_world) = [] /\
  map ident (tasksInQueue (channel stuck_world)) = [0; 2]%nat.
Proof.
  split; [reflexivity|]. split; [lia|]. split; [exact stuck_world_run|].
  split; [|reflexivity].
  apply (negative_concurrency_never_starts node (limit (-1)) stuck_run stuck_world (-1)
           eq_refl eq_refl stuck_world_run).
Defined.

Lemma short_queue_stable :
  stable (fun w => (length (tasksInQueue (channel w)) <= 1)%nat).
Proof.
  constructor.
  - intros w t rest res Hw _ Hq _ _. unfold register. rewrite start_spec. projections.
    rewrite Hq in Hw. simpl in Hw. lia.
  - intros w t rest ok res Hw _ Hq _. rewrite settled_spec, start_spec. projections.
    rewrite Hq in Hw. simpl in Hw. lia.
  - auto.
  - auto.
  - intros w t ok res Hw _. unfold react. now rewrite settled_spec.
  - intros w _. rewrite cancelAllChannelTasks_spec. simpl. lia.
  - intros w f Hw.
    destruct (cancelChannelTask_cases f w) as [-> | (pre & t & post & Hq & _ & _ & ->)];
      [exact Hw|].
    rewrite sendEvent_spec. projections. rewrite Hq in Hw.
    rewrite length_app in *. simpl in Hw. lia.
Qed.

Lemma short_queue_enqueue (o : Options) (now : Z) (w : World) :
  tasksInQueue (channel w) = [] ->
  (length (tasksInQueue (channel (enqueue o now w))) <= 1)%nat.
Proof. intros Hq. rewrite enqueue_spec. projections. rewrite Hq. simpl. lia. Qed.

(** X6: when every submission of a run is made with
    [addTaskToChannelExclusively] or [addTaskToChannelIfEmpty], at most one
    task waits in the queue after every step, whatever is cancelled, settled
    or started in between. *)
Theorem exclusive_submissions_queue_one (host : Delay.Host)
    (args : option ChannelArgs) (acts : list Action) (w : World) :
  no_plain_submit acts ->
  run host acts (init args) = Some w ->
  (length (tasksInQueue (channel w)) <= 1)%nat.
Proof.
  intros Hacts.
  assert (Hgen : forall w0,
    (length (tasksInQueue (channel w0)) <= 1)%nat ->
    run host acts w0 = Some w -> (length (tasksInQueue (channel w)) <= 1)%nat).
  { induction Hacts as [|a acts Ha _ IH]; intros w0 Hw0; simpl.
    - now intros [= <-].
    - destruct (perform host a w0) as [w1|] eqn:Hstep; [|discriminate].
      apply IH.
      destruct a as [o now|o now|o now| |f|tid s| ]; [destruct Ha| | | | | |];
        cbn [perform] in Hstep; try (apply Some_eq in Hstep; subst w1).
      + unfold addTaskToChannelExclusively. rewrite addTaskToChannel_enqueue.
        apply (stable_proccessChannel host _ short_queue_stable).
        apply short_queue_enqueue.
        destruct (tasksInQueue (channel w0)) as [|t q] eqn:Hq; cbn [length Nat.eqb].
        * exact Hq.
        * now rewrite cancelAllChannelTasks_spec.
      + unfold addTaskToChannelIfEmpty.
        destruct (tasksInQueue (channel w0)) as [|t q] eqn:Hq; cbn [length Nat.eqb].
        * rewrite addTaskToChannel_enqueue.
          apply (stable_proccessChannel host _ short_queue_stable).
          now apply short_queue_enqueue.
        * cbn [fst]. now rewrite Hq.
      + now apply (st_cancelAll _ short_queue_stable).
      + now apply (st_cancelTask _ short_queue_stable).
      + now apply (stable_settle host _ short_queue_stable tid s w0).
      + now apply (stable_tick host _ short_queue_stable w0). }
  apply Hgen. simpl. lia.
Qed.

Lemma exclusive_only_world_run :
  run node exclusive_only_run (init (limit 1)) = Some exclusive_only_world.
Proof. vm_compute. reflexivity. Qed.

Lemma exclusive_submissions_queue_one_witness :
  no_plain_submit exclusive_only_run /\
  run node exclusive_only_run (init (limit 1)) = Some exclusive_only_world /\
  (length (tasksInQueue (channel exclusive_only_world)) <= 1)%nat.
Proof.
  assert (H : no_plain_submit exclusive_only_run) by (repeat constructor).
  split; [exact H|]. split; [exact exclusive_only_world_run|].
  apply (exclusive_submissions_queue_one node (limit 1) exclusive_only_run
           exclusive_only_world H exclusive_only_world_run).
Defined.

(** ** The order of the handler calls *)

Lemma Batched_cancel (ds : list Delivery) (q : list ChannelTask) :
  Batched ds ->
  Batched (ds ++ flat_map (fun t => event_deliveries t (TASK_CANCELLED t)) q).
Proof.
  revert ds. induction q as [|t q IH]; intros ds Hds; cbn [flat_map].
  - now rewrite app_nil_r.
  - rewrite app_assoc. apply IH. constructor; [exact Hds|].
    constructor. simpl. apply Nat.eqb_refl.
Qed.

Lemma Batched_event (ds : list Delivery) (t : ChannelTask) (ev : ChannelEvent) :
  Batched ds -> about (ident t) ev = true -> Batched (ds ++ event_deliveries t ev).
Proof. intros Hds Hev. constructor; [exact Hds | now constructor]. Qed.

Lemma Batched_stable : stable (fun w => Batched (delivered w)).
Proof.
  constructor.
  - intros w t rest res Hw _ _ _ _. unfold register. rewrite start_spec. projections.
    apply Batched_event; [exact Hw | apply Nat.eqb_refl].
  - intros w t rest ok res Hw _ _ _. rewrite settled_spec, start_spec. projections.
    apply Batched_event; [|apply Nat.eqb_refl].
    apply Batched_event; [exact Hw | apply Nat.eqb_refl].
  - auto.
  - auto.
  - intros w t ok res Hw _. unfold react. rewrite settled_spec. projections.
    apply Batched_event; [exact Hw | apply Nat.eqb_refl].
  - intros w Hw. rewrite cancelAllChannelTasks_spec. projections.
    change (ToChannel CANCELLED_ALL_TASKS ::
            flat_map (fun t => event_deliveries t (TASK_CANCELLED t))
              (tasksInQueue (channel w)))
      with ([ToChannel CANCELLED_ALL_TASKS] ++
            flat_map (fun t => event_deliveries t (TASK_CANCELLED t))
              (tasksInQueue (channel w))).
    rewrite app_assoc. apply Batched_cancel. constructor; [exact Hw | constructor].
  - intros w f Hw.
    destruct (cancelChannelTask_cases f w) as [-> | (pre & t & post & _ & _ & _ & ->)];
      [exact Hw|].
    rewrite sendEvent_spec. projections.
    apply Batched_event; [exact Hw | apply Nat.eqb_refl].
Qed.

Lemma run_Batched (host : Delay.Host) (args : option ChannelArgs)
    (acts : list Action) (w : World) :
  run host acts (init args) = Some w -> Batched (delivered w).
Proof.
  apply (stable_run host _ Batched_stable).
  - intros o now w0 Hw. rewrite enqueue_spec. projections.
    apply Batched_event; [exact Hw | apply Nat.eqb_refl].
  - constructor.
Qed.

(** In a batch the handler of the task is called right after the handler
    of the channel, with the same event, which is about this task. *)
Lemma batch_task (g pre post : list Delivery) (k : nat) (ev : ChannelEvent) :
  batch g -> g = pre ++ ToTask k ev :: post ->
  pre = [ToChannel ev] /\ about k ev = true.
Proof.
  intros Hg. destruct Hg as [|t ev' Hev]; intros Heq.
  - destruct pre as [|d [|d' pre]]; discriminate.
  - unfold event_deliveries in Heq.
    destruct pre as [|d [|d' pre]]; [discriminate| |].
    + simpl in Heq. inversion Heq; subst. now split.
    + simpl in Heq. inversion Heq as [[Hd Hd' Hrest]].
      destruct (observed t); destruct pre as [|x [|y pre]]; simpl in Hrest;
        discriminate Hrest.
Qed.

Lemma batch_options (g pre post : list Delivery) (k : nat) (ev : ChannelEvent) :
  batch g -> g = pre ++ ToOptions k ev :: post ->
  pre = [ToChannel ev; ToTask k ev] /\ about k ev = true.
Proof.
  intros Hg. destruct Hg as [|t ev' Hev]; intros Heq.
  - destruct pre as [|d [|d' pre]]; discriminate.
  - unfold event_deliveries in Heq.
    destruct pre as [|d [|d' [|d'' pre]]]; try discriminate.
    + destruct (observed t); [|discriminate].
      simpl in Heq. inversion Heq; subst. now split.
    + destruct (observed t); [|discriminate].
      simpl in Heq. inversion Heq as [[Hd Hd' Hd'' Hrest]].
      destruct pre; discriminate Hrest.
Qed.

(** X7: after any run, every call of the [eventHandler] of a task comes
    right after the call of the handler of the channel with the same event,
    and every call of the handler given in the options right after these two;
    the event is about the task whose handler is called, so CANCELLED_ALL_TASKS
    goes to the handler of the channel alone. *)
Theorem handlers_called_in_order (host : Delay.Host) (args : option ChannelArgs)
    (acts : list Action) (w : World) :
  run host acts (init args) = Some w ->
  (forall pre post k ev,
     delivered w = pre ++ ToTask k ev :: post ->
     about k ev = true /\ exists pre', pre = pre' ++ [ToChannel ev]) /\
  (forall pre post k ev,
     delivered w = pre ++ ToOptions k ev :: post ->
     about k ev = true /\ exists pre', pre = pre' ++ [ToChannel ev; ToTask k ev]).
Proof.
  intros Hrun. pose proof (run_Batched host args acts w Hrun) as Hb.
  induction Hb as [|ds g Hds IH Hg].
  - split; intros pre post k ev H; destruct pre; discriminate.
  - destruct IH as [IHt IHo]. split; intros pre post k ev Heq;
      apply app_eq_app in Heq; destruct Heq as [l [[Hds' Hg'] | [Hpre Hg']]].
    + destruct l as [|d l].
      * rewrite app_nil_r in Hds'. simpl in Hg'. subst.
        destruct (batch_task _ [] post k ev Hg eq_refl) as [Hnil _]. discriminate.
      * injection Hg' as <- Hpost. subst.
        apply (IHt pre l k ev eq_refl).
    + destruct (batch_task g l post k ev Hg Hg') as [-> Hab].
      split; [exact Hab|]. now exists ds.
    + destruct l as [|d l].
      * rewrite app_nil_r in Hds'. simpl in Hg'. subst.
        destruct (batch_options _ [] post k ev Hg eq_refl) as [Hnil _]. discriminate.
      * injection Hg' as <- Hpost. subst.
        apply (IHo pre l k ev eq_refl).
    + destruct (batch_options g l post k ev Hg Hg') as [-> Hab].
      split; [exact Hab|]. now exists ds.
Qed.

Lemma handlers_called_in_order_witness :
  run node busy_run (init (limit 1)) = Some busy_world /\
  exists pre', firstn 4 (delivered busy_world) =
    pre' ++ [ToChannel (TASK_STARTED (new_task (waits 0) 10 (set_allocated 0 busy_world)))].
Proof.
  split; [exact busy_world_run|].
  destruct (handlers_called_in_order node (limit 1) busy_run busy_world busy_world_run)
    as [Htask _].
  apply (Htask (firstn 4 (delivered busy_world)) (skipn 5 (delivered busy_world)) 0%nat
           (TASK_STARTED (new_task (waits 0) 10 (set_allocated 0 busy_world)))).
  reflexivity.
Defined.

(** X8: after any run, a task that was started and whose function returned
    a value [v] that is no promise has its promise fulfilled with the result
    [{isSuccess: true, isError: false, result: v}], and TASK_COMPLETED with
    [v] was sent for it; the same holds, with the value of the promise, for a
    task whose promise was fulfilled in the run. *)
Theorem success_is_a_result (host : Delay.Host) (args : option ChannelArgs)
    (acts : list Action) (w : World) :
  run host acts (init args) = Some w ->
  (forall t v,
     In (ToChannel (TASK_STARTED t)) (delivered w) ->
     call (task t) = Returns v -> isPromise v = false ->
     handle (ident t) w = Fulfilled (success v) /\
     In (ToChannel (TASK_COMPLETED t true false v)) (delivered w)) /\
  (forall before after tid v,
     acts = before ++ Settle tid (Fulfils v) :: after ->
     handle tid w = Fulfilled (success v) /\
     exists t, ident t = tid /\
       In (ToChannel (TASK_COMPLETED t true false v)) (delivered w)).
Proof.
  intros Hrun. split.
  - intros t v Hin Hcall Hno.
    apply (run_finished host args acts w Hrun t true v Hin).
    rewrite Hcall. now repeat split.
  - intros before after tid v ->.
    apply run_app in Hrun. destruct Hrun as (w1 & Hrun1 & Hrun2).
    cbn [run perform] in Hrun2.
    destruct (settle host tid (Fulfils v) w1) as [w2|] eqn:Hsettle; [|discriminate].
    destruct (settle_fulfils host tid v w1 w2 (run_consistent host args before w1 Hrun1)
                Hsettle) as (Hh & t & Hid & Hin).
    split.
    + apply (handle_keeps _ _ w2); [exact Hh | now apply (run_keeps host after)].
    + exists t. split; [exact Hid|].
      apply (extends_in (delivered w2)); [now apply (run_extends host after) | exact Hin].
Qed.

Lemma succeeding_world_run :
  run node succeeding_run (init (limit 1)) = Some succeeding_world.
Proof. vm_compute. reflexivity. Qed.

Lemma success_is_a_result_witness :
  run node succeeding_run (init (limit 1)) = Some succeeding_world /\
  handle 0 succeeding_world = Fulfilled (success (VNum 0)) /\
  handle 1 succeeding_world = Fulfilled (success (VStr "done")) /\
  handle 2 succeeding_world = Fulfilled (success (VNum 2)).
Proof.
  split; [exact succeeding_world_run|].
  destruct (success_is_a_result node (limit 1) succeeding_run succeeding_world
              succeeding_world_run) as (Hsync & Hasync).
  split; [|split].
  - apply (Hsync (new_task (returns 0 0) 10 (set_allocated 0 succeeding_world))
             (VNum 0)); [vm_compute; tauto | reflexivity | reflexivity].
  - apply (Hasync [Submit (returns 0 0) 10; Submit (waits 1) 11; Submit (returns 2 0) 12]
             [Tick] 1%nat (VStr "done")).
    reflexivity.
  - apply (Hsync (new_task (returns 2 0) 12 (set_allocated 2 succeeding_world))
             (VNum 2)); [vm_compute; tauto | reflexivity | reflexivity].
Defined.

(** ** Tasks that are done *)

Lemma phase_trace_terminal (ph ph' : Phase) (l : list Kind) :
  ph = Done \/ ph = Dropped ->
  phase_trace ph' = phase_trace ph ++ l -> ph' = ph /\ l = [].
Proof.
  intros [-> | ->]; destruct ph'; simpl; intros H; try discriminate;
    injection H as <-; now split.
Qed.

(** X9: a task for which TASK_COMPLETED or TASK_CANCELLED was sent is done
    for good: whatever happens to the channel afterwards, no handler gets
    another event about it, its promise is not resolved again and keeps its
    result, and the task is neither in the queue nor in progress. *)
Theorem terminal_event_is_final (host : Delay.Host) (args : option ChannelArgs)
    (acts later : list Action) (w w' : World) (tid : nat) :
  run host acts (init args) = Some w ->
  run host later w = Some w' ->
  In Completed (channel_view tid (delivered w)) \/
  In Cancelled (channel_view tid (delivered w)) ->
  channel_view tid (delivered w') = channel_view tid (delivered w) /\
  task_view tid (delivered w') = task_view tid (delivered w) /\
  resolutions tid (resolved w') = resolutions tid (resolved w) /\
  handle tid w' = handle tid w /\
  ~ In tid (map ident (tasksInQueue (channel w'))) /\
  ~ In tid (map ident (tasksInProgress (channel w'))).
Proof.
  intros Hrun Hlater Hterm.
  pose proof (run_chain host acts later (init args) w w' Hrun Hlater) as Hrun'.
  destruct (run_consistent host args acts w Hrun) as (_ & _ & Hst).
  destruct (run_consistent host args _ w' Hrun') as (_ & _ & Hst').
  destruct (Hst tid) as (ph & obs & S). destruct (Hst' tid) as (ph' & obs' & S').
  assert (Hph : ph = Done \/ ph = Dropped).
  { rewrite (ts_channel _ _ _ _ S) in Hterm.
    destruct ph; simpl in Hterm; auto; intuition discriminate. }
  destruct (run_extends host later w w' Hlater) as [more Hmore].
  destruct (run_keeps host later w w' Hlater) as [rmore Hrmore].
  assert (Hsame : ph' = ph).
  { pose proof (ts_channel _ _ _ _ S') as Hv. rewrite Hmore, channel_view_app in Hv.
    rewrite (ts_channel _ _ _ _ S) in Hv.
    now destruct (phase_trace_terminal ph ph' _ Hph (eq_sym Hv)). }
  subst ph'.
  assert (Hres : resolutions tid (resolved w') = resolutions tid (resolved w)).
  { pose proof (ts_resolved _ _ _ _ S') as Hl. rewrite Hrmore, resolutions_app in *.
    rewrite length_app, (ts_resolved _ _ _ _ S) in Hl.
    destruct (resolutions tid rmore); [apply app_nil_r | simpl in Hl; lia]. }
  repeat split.
  - now rewrite (ts_channel _ _ _ _ S'), (ts_channel _ _ _ _ S).
  - now rewrite (ts_task _ _ _ _ S'), (ts_task _ _ _ _ S).
  - exact Hres.
  - unfold handle. now rewrite Hres.
  - intros Hin. apply (ts_queued _ _ _ _ S') in Hin.
    destruct Hph; congruence.
  - intros Hin. apply (ts_running _ _ _ _ S') in Hin.
    destruct Hph; congruence.
Qed.

Lemma early_world_run : run node succeeding_start (init (limit 1)) = Some early_world.
Proof. vm_compute. reflexivity. Qed.

Lemma early_world_later : run node succeeding_rest early_world = Some succeeding_world.
Proof. vm_compute. reflexivity. Qed.

Lemma terminal_event_is_final_witness :
  run node succeeding_start (init (limit 1)) = Some early_world /\
  run node succeeding_rest early_world = Some succeeding_world /\
  In Completed (channel_view 0 (delivered early_world)) /\
  channel_view 0 (delivered succeeding_world) = channel_view 0 (delivered early_world) /\
  handle 0 succeeding_world = handle 0 early_world.
Proof.
  split; [exact early_world_run|]. split; [exact early_world_later|].
  assert (Hdone : In Completed (channel_view 0 (delivered early_world)))
    by (vm_compute; tauto).
  split; [exact Hdone|].
  destruct (terminal_event_is_final node (limit 1) succeeding_start succeeding_rest
              early_world succeeding_world 0%nat early_world_run early_world_later
              (or_introl Hdone)) as (Hv & _ & _ & Hh & _).
  split; [exact Hv | exact Hh].
Defined.

(** ** The promises of the tasks that are cancelled *)

Lemma cancel_resolutions_head (tid : nat) (q : list ChannelTask) :
  In tid (map ident q) ->
  exists l, resolutions tid (map (fun t => (ident t, cancelation)) q) = cancelation :: l.
Proof.
  induction q as [|a q IH]; [intros []|].
  intros Hin. unfold resolutions in *. cbn [map filter fst].
  destruct (Nat.eqb (ident a) tid) eqn:Ha.
  - eexists. reflexivity.
  - apply IH. destruct Hin as [Hin | Hin]; [|exact Hin].
    apply Nat.eqb_neq in Ha. contradiction.
Qed.

(** X10: after any run, [cancelAllChannelTasks] empties the queue, sends
    CANCELLED_ALL_TASKS and then TASK_CANCELLED for every task of the queue in
    the order of the queue, and fulfils the promise of each of them with the
    cancelled result; the tasks in progress and their reactions stay, and
    every other promise stays as it is. *)
Theorem cancelAllChannelTasks_cancels_queue (host : Delay.Host)
    (args : option ChannelArgs) (acts : list Action) (w : World) :
  run host acts (init args) = Some w ->
  tasksInQueue (channel (cancelAllChannelTasks w)) = [] /\
  tasksInProgress (channel (cancelAllChannelTasks w)) = tasksInProgress (channel w) /\
  awaiting (cancelAllChannelTasks w) = awaiting w /\
  delivered (cancelAllChannelTasks w) =
    delivered w ++ ToChannel CANCELLED_ALL_TASKS ::
      flat_map (fun t => event_deliveries t (TASK_CANCELLED t))
        (tasksInQueue (channel w)) /\
  (forall t, In t (tasksInQueue (channel w)) ->
     handle (ident t) (cancelAllChannelTasks w) = Fulfilled cancelation) /\
  (forall tid, ~ In tid (map ident (tasksInQueue (channel w))) ->
     handle tid (cancelAllChannelTasks w) = handle tid w).
Proof.
  intros Hrun. pose proof (run_consistent host args acts w Hrun) as Hc.
  rewrite cancelAllChannelTasks_spec. unfold handle. projections.
  repeat split.
  - intros t Hin. rewrite resolutions_app.
    rewrite (consistent_pending w t Hc) by (apply in_app_iff; now left).
    destruct (cancel_resolutions_head (ident t) (tasksInQueue (channel w)))
      as [l ->]; [now apply in_map | reflexivity].
  - intros tid Hnotin. rewrite resolutions_app.
    destruct (cancel_views_absent tid _ Hnotin) as (_ & _ & _ & ->).
    now rewrite app_nil_r.
Qed.

Lemma cancelAllChannelTasks_cancels_queue_witness :
  run node busy_run (init (limit 1)) = Some busy_world /\
  map (fun tid => handle tid (cancelAllChannelTasks busy_world)) [0; 1; 2; 3]%nat =
    [Pending; Fulfilled cancelation; Fulfilled cancelation; Fulfilled cancelation].
Proof.
  split; [exact busy_world_run|].
  destruct (cancelAllChannelTasks_cancels_queue node (limit 1) busy_run busy_world
              busy_world_run) as (_ & _ & _ & _ & Hq & Hother).
  assert (H0 : handle 0 (cancelAllChannelTasks busy_world) = Pending).
  { rewrite (Hother 0%nat); [reflexivity | simpl; lia]. }
  assert (H1 : handle 1 (cancelAllChannelTasks busy_world) = Fulfilled cancelation).
  { apply (Hq (new_task (waits 1) 11 (set_allocated 1 busy_world))). simpl. tauto. }
  assert (H2 : handle 2 (cancelAllChannelTasks busy_world) = Fulfilled cancelation).
  { apply (Hq (new_task (returns 2 (-1)) 12 (set_allocated 2 busy_world))).
    simpl. tauto. }
  assert (H3 : handle 3 (cancelAllChannelTasks busy_world) = Fulfilled cancelation).
  { apply (Hq (new_task (waits 1) 13 (set_allocated 3 busy_world))). simpl. tauto. }
  cbn [map]. now rewrite H0, H1, H2, H3.
Defined.

(** X11: after any run, [cancelChannelTask] fulfils the promise of the task
    it takes from the queue with the cancelled result; the events about this
    task are then TASK_ADDED and TASK_CANCELLED, and every other promise
    stays as it is. *)
Theorem cancelChannelTask_cancels_promise (host : Delay.Host)
    (args : option ChannelArgs) (acts : list Action) (w : World) (f : Fn)
    (pre post : list ChannelTask) (t : ChannelTask) :
  run host acts (init args) = Some w ->
  tasksInQueue (channel w) = pre ++ t :: post ->
  Forall (fun x => ref (task x) <> ref f) pre ->
  ref (task t) = ref f ->
  handle (ident t) (cancelChannelTask f w) = Fulfilled cancelation /\
  channel_view (ident t) (delivered (cancelChannelTask f w)) = [Added; Cancelled] /\
  (forall tid, tid <> ident t ->
     handle tid (cancelChannelTask f w) = handle tid w).
Proof.
  intros Hrun Hq Hpre Ht.
  pose proof (run_consistent host args acts w Hrun) as Hc.
  assert (Hin : In t (tasksInQueue (channel w) ++ tasksInProgress (channel w))).
  { rewrite Hq, !in_app_iff. simpl. auto. }
  rewrite (cancelChannelTask_found f w pre post t Hq).
  2: { eapply Forall_impl; [|exact Hpre]. intros x Hx. now apply Nat.eqb_neq. }
  2: { now apply Nat.eqb_eq. }
  rewrite sendEvent_spec. unfold handle. projections. cbn [event_resolutions].
  repeat split.
  - rewrite resolutions_app, (consistent_pending w t Hc Hin), resolutions_one.
    now rewrite Nat.eqb_refl.
  - destruct Hc as (_ & _ & Hst). destruct (Hst (ident t)) as (ph & obs & S).
    assert (ph = Queued) as ->.
    { apply (ts_queued _ _ _ _ S). rewrite Hq, map_app, in_app_iff. simpl. auto. }
    views. same_task. now rewrite (ts_channel _ _ _ _ S).
  - intros tid Hne. rewrite resolutions_app, resolutions_one.
    assert (Nat.eqb (ident t) tid = false) as -> by (apply Nat.eqb_neq; congruence).
    now rewrite app_nil_r.
Qed.

Lemma cancelChannelTask_cancels_promise_witness :
  run node busy_run (init (limit 1)) = Some busy_world /\
  handle 1 (cancelChannelTask (opt_task (waits 1)) busy_world) = Fulfilled cancelation /\
  handle 3 (cancelChannelTask (opt_task (waits 1)) busy_world) = Pending.
Proof.
  split; [exact busy_world_run|].
  destruct (cancelChannelTask_cancels_promise node (limit 1) busy_run busy_world
              (opt_task (waits 1))
              [new_task (returns 2 (-1)) 12 (set_allocated 2 busy_world)]
              [new_task (waits 1) 13 (set_allocated 3 busy_world)]
              (new_task (waits 1) 11 (set_allocated 1 busy_world))
              busy_world_run eq_refl) as (Hh & _ & Hother).
  - constructor; [simpl; lia | constructor].
  - reflexivity.
  - split; [exact Hh|]. rewrite (Hother 3%nat) by (simpl; lia). reflexivity.
Defined.

(** ** One submission *)

Lemma follows_spec (a b : ChannelTask) :
  0 < sortChannelQueue a b <->
  priority b < priority a \/
  (priority b = priority a /\ requestedAt b < requestedAt a).
Proof.
  unfold sortChannelQueue.
  destruct (Z.eqb_spec (priority a) (priority b)); lia.
Qed.

(** The promise of a task that is not yet built is pending. *)
Lemma consistent_unborn (w : World) :
  consistent w -> resolutions (allocated w) (resolved w) = [].
Proof.
  intros (_ & _ & Hst). destruct (Hst (allocated w)) as (ph & obs & S).
  apply length_zero_iff_nil. rewrite (ts_resolved _ _ _ _ S).
  assert (ph = Unborn) as -> by (apply (ts_unborn _ _ _ _ S); apply Nat.le_refl).
  reflexivity.
Qed.

(** X12: after any run, [addTaskToChannel] on a channel without a free slot
    only puts the new task into the queue: behind the waiting tasks with a
    lower priority or the same priority and a request that is not later, and
    before the others, whose order it keeps; it sends TASK_ADDED and nothing
    else, starts nothing, and the promise it returns is pending. *)
Theorem addTaskToChannel_at_capacity (host : Delay.Host) (args : option ChannelArgs)
    (acts : list Action) (w : World) (o : Options) (now : Z) :
  run host acts (init args) = Some w ->
  ~ room w ->
  (exists q1 q2,
     tasksInQueue (channel w) = q1 ++ q2 /\
     tasksInQueue (channel (fst (addTaskToChannel host o now w))) =
       q1 ++ new_task o now w :: q2 /\
     Forall (fun u => priority u < nullish (opt_priority o) 0 \/
                      (priority u = nullish (opt_priority o) 0 /\ requestedAt u <= now))
       q1 /\
     Forall (fun u => nullish (opt_priority o) 0 < priority u \/
                      (nullish (opt_priority o) 0 = priority u /\ now < requestedAt u))
       q2) /\
  tasksInProgress (channel (fst (addTaskToChannel host o now w))) =
    tasksInProgress (channel w) /\
  delivered (fst (addTaskToChannel host o now w)) =
    delivered w ++ event_deliveries (new_task o now w) (TASK_ADDED (new_task o now w)) /\
  resolved (fst (addTaskToChannel host o now w)) = resolved w /\
  handle_state (snd (addTaskToChannel host o now w))
    (fst (addTaskToChannel host o now w)) = Pending.
Proof.
  intros Hrun Hfull.
  assert (Hw' : fst (addTaskToChannel host o now w) = enqueue o now w).
  { rewrite addTaskToChannel_enqueue. apply proccessChannel_full.
    unfold room in *. now rewrite enqueue_channel. }
  rewrite Hw'. cbn [snd addTaskToChannel handle_state].
  pose proof (run_queue_sorted host args acts w Hrun) as Hs.
  destruct (sort_push sortChannelQueue precedes_trans (tasksInQueue (channel w))
              (new_task o now w) Hs) as (q1 & q2 & Hq & Hsort & H1 & H2).
  rewrite enqueue_spec. unfold handle. projections. rewrite Hsort.
  split; [|repeat split].
  - exists q1, q2. repeat split; auto.
    + eapply Forall_impl; [|exact H1]. intros u Hu.
      apply (precedes_spec u (new_task o now w)) in Hu. exact Hu.
    + eapply Forall_impl; [|exact H2]. intros u Hu.
      apply (follows_spec u (new_task o now w)) in Hu. exact Hu.
  - cbn [ident].
    now rewrite (consistent_unborn w (run_consistent host args acts w Hrun)).
Qed.

Lemma addTaskToChannel_at_capacity_witness :
  run node busy_run (init (limit 1)) = Some busy_world /\
  ~ room busy_world /\
  map ident (tasksInQueue (channel (fst (addTaskToChannel node (returns 4 0) 12 busy_world))))
    = [2; 1; 4; 3]%nat /\
  handle_state (snd (addTaskToChannel node (returns 4 0) 12 busy_world))
    (fst (addTaskToChannel node (returns 4 0) 12 busy_world)) = Pending.
Proof.
  split; [exact busy_world_run|].
  assert (Hfull : ~ room busy_world) by (unfold room; simpl; lia).
  split; [exact Hfull|]. split; [reflexivity|].
  apply (addTaskToChannel_at_capacity node (limit 1) busy_run busy_world (returns 4 0) 12
           busy_world_run Hfull).
Defined.

(** On an empty queue the callback of [runNextTick] changes nothing but
    what waits on the host. *)
Lemma runNextTick_empty_queue (host : Delay.Host) (w : World) :
  tasksInQueue (channel w) = [] ->
  Delay.runNextTick host defer defer (proccessChannel host) w = w \/
  Delay.runNextTick host defer defer (proccessChannel host) w = defer w.
Proof.
  intros Hq. unfold Delay.runNextTick.
  destruct (Delay.has_requestAnimationFrame host); [now right|].
  destruct (Delay.has_setTimeout host); [now right|].
  left. now apply proccessChannel_empty.
Qed.

(** X13: after any run, [addTaskToChannel] on a channel with a free slot and
    an empty queue starts the new task within the call.  When its function
    returns a promise, TASK_ADDED and TASK_STARTED are sent, the task is in
    progress and the promise that was returned is pending; when it returns
    another value or throws, TASK_COMPLETED is sent too, the tasks in
    progress are as before and the promise is fulfilled with the value or
    the error.  The queue is empty afterwards. *)
Theorem addTaskToChannel_when_idle (host : Delay.Host) (args : option ChannelArgs)
    (acts : list Action) (w : World) (o : Options) (now : Z) :
  run host acts (init args) = Some w ->
  room w -> tasksInQueue (channel w) = [] ->
  tasksInQueue (channel (fst (addTaskToChannel host o now w))) = [] /\
  match call (opt_task o) with
  | Returns v =>
    if isPromise v then
      delivered (fst (addTaskToChannel host o now w)) =
        delivered w ++
        event_deliveries (new_task o now w) (TASK_ADDED (new_task o now w)) ++
        event_deliveries (new_task o now w) (TASK_STARTED (new_task o now w)) /\
      tasksInProgress (channel (fst (addTaskToChannel host o now w))) =
        tasksInProgress (channel w) ++ [new_task o now w] /\
      handle (allocated w) (fst (addTaskToChannel host o now w)) = Pending
    else
      delivered (fst (addTaskToChannel host o now w)) =
        delivered w ++
        event_deliveries (new_task o now w) (TASK_ADDED (new_task o now w)) ++
        event_deliveries (new_task o now w) (TASK_STARTED (new_task o now w)) ++
        event_deliveries (new_task o now w)
          (TASK_COMPLETED (new_task o now w) true false v) /\
      tasksInProgress (channel (fst (addTaskToChannel host o now w))) =
        tasksInProgress (channel w) /\
      handle (allocated w) (fst (addTaskToChannel host o now w)) =
        Fulfilled (success v)
  | Throws e =>
    delivered (fst (addTaskToChannel host o now w)) =
      delivered w ++
      event_deliveries (new_task o now w) (TASK_ADDED (new_task o now w)) ++
      event_deliveries (new_task o now w) (TASK_STARTED (new_task o now w)) ++
      event_deliveries (new_task o now w)
        (TASK_COMPLETED (new_task o now w) false true e) /\
    tasksInProgress (channel (fst (addTaskToChannel host o now w))) =
      tasksInProgress (channel w) /\
    handle (allocated w) (fst (addTaskToChannel host o now w)) =
      Fulfilled (failure e)
  end.
Proof.
  intros Hrun Hroom Hq.
  pose proof (run_consistent host args acts w Hrun) as Hc.
  pose proof (consistent_enqueue o now w Hc) as Hce.
  pose proof (consistent_unborn w Hc) as Hpending.
  set (t := new_task o now w).
  assert (Heq : tasksInQueue (channel (enqueue o now w)) = t :: []).
  { rewrite enqueue_channel. cbn [tasksInQueue]. now rewrite Hq. }
  assert (Her : room (enqueue o now w)).
  { unfold room in *. now rewrite enqueue_channel. }
  rewrite addTaskToChannel_enqueue.
  rewrite (proccessChannel_dispatch host (enqueue o now w) t [] Her Heq).
  change (call (task t)) with (call (opt_task o)).
  assert (Hsync : forall ok res,
    tasksInQueue (channel (complete host (proccessChannel host) t ok res
                             (start t [] (enqueue o now w)))) = [] /\
    delivered (complete host (proccessChannel host) t ok res
                 (start t [] (enqueue o now w))) =
      delivered w ++ event_deliveries t (TASK_ADDED t) ++
      event_deliveries t (TASK_STARTED t) ++
      event_deliveries t (TASK_COMPLETED t ok (negb ok) res) /\
    tasksInProgress (channel (complete host (proccessChannel host) t ok res
                                (start t [] (enqueue o now w)))) =
      tasksInProgress (channel w) /\
    handle (allocated w) (complete host (proccessChannel host) t ok res
                            (start t [] (enqueue o now w))) =
      Fulfilled (if ok then success res else failure res)).
  { intros ok res. rewrite complete_settled.
    pose proof (sync_tasksInProgress (enqueue o now w) t [] ok res Hce Heq) as Hip.
    rewrite enqueue_channel in Hip. cbn [tasksInProgress] in Hip.
    assert (Hs : tasksInQueue (channel (settled t ok res (start t [] (enqueue o now w))))
                 = []).
    { now rewrite settled_queue, start_queue. }
    assert (Hd : delivered (settled t ok res (start t [] (enqueue o now w))) =
      delivered w ++ event_deliveries t (TASK_ADDED t) ++
      event_deliveries t (TASK_STARTED t) ++
      event_deliveries t (TASK_COMPLETED t ok (negb ok) res)).
    { rewrite settled_spec, start_spec, enqueue_spec. projections.
      now rewrite <- !app_assoc. }
    assert (Hh : handle (allocated w) (settled t ok res (start t [] (enqueue o now w))) =
      Fulfilled (if ok then success res else failure res)).
    { apply (handle_first _ _ _ (resolved w) []); [exact Hpending|].
      rewrite settled_spec, start_spec, enqueue_spec. reflexivity. }
    destruct (runNextTick_empty_queue host _ Hs) as [-> | ->]; auto. }
  split.
  - destruct (call (opt_task o)) as [v | e]; [destruct (isPromise v)|];
      try apply Hsync.
    unfold register. now rewrite start_spec.
  - destruct (call (opt_task o)) as [v | e]; [destruct (isPromise v)|].
    + unfold register. rewrite start_spec, enqueue_spec. unfold handle. projections.
      rewrite Hpending, <- app_assoc. repeat split.
    + apply Hsync.
    + apply Hsync.
Qed.

Lemma addTaskToChannel_when_idle_witness :
  run node succeeding_run (init (limit 1)) = Some succeeding_world /\
  room succeeding_world /\
  tasksInQueue (channel succeeding_world) = [] /\
  handle 3 (fst (addTaskToChannel node (throws 5) 20 succeeding_world)) =
    Fulfilled (failure (VStr "Error 1")).
Proof.
  split; [exact succeeding_world_run|].
  assert (Hroom : room succeeding_world) by (unfold room; simpl; lia).
  split; [exact Hroom|]. split; [reflexivity|].
  destruct (addTaskToChannel_when_idle node (limit 1) succeeding_run succeeding_world
              (throws 5) 20 succeeding_world_run Hroom eq_refl) as [_ H].
  apply H.
Defined.

End Channel.
